(** * Session supervisor of [src/sessions.js]: a shallow embedding

    The module keeps four global tables ([sessions], [pendingSessions],
    [sessionLocks], [restartAttempts]) and drives one Chrome worker per
    session id.  Every function of the module is [async]: it runs
    synchronously up to its next [await], and other functions may run
    while it is suspended.  The embedding keeps that structure: an
    operation is a coroutine ([task]) whose every resumption runs one
    synchronous segment of the source on the shared [World]. *)

From stdpp Require Import gmap strings list fin_maps pretty.
From Stdlib Require Import ZArith String Ascii Lia.

Set Warnings "-register-all".
Open Scope string_scope.
Open Scope Z_scope.

(* ================================================================== *)
(** ** Data model *)
(* ================================================================== *)

(** [const MAX_RESTART_ATTEMPTS = 3], [RESTART_COOLDOWN_MS = 30000],
    [RESTART_RESET_MS = 120000] (lines 13-15). *)
Definition MAX_RESTART_ATTEMPTS : Z := 3.
Definition RESTART_COOLDOWN_MS : Z := 30000.
Definition RESTART_RESET_MS : Z := 120000.

(** The value stored in [restartAttempts]. *)
Record Attempts : Type := mkAttempts {
  count : Z;
  firstAttempt : Z;
  lastAttempt : Z
}.

(** What the module reads of a [Client] object: the pid of
    [client.pupBrowser.process()], [None] when [pupBrowser] is not set or
    [process()] is null. *)
Record Client : Type := mkClient {
  pupBrowser : option Z
}.

(** Directory entries as far as the module looks at them. *)
Inductive Node : Type :=
| Symlink (target : string)
| Regular
| Directory.

(** The shared state: the four tables of lines 4-7, the part of the file
    system under the session folder, the live processes (pid to the
    session id whose data directory the process runs on), and the log of
    pids that were sent [SIGKILL] (latest first). *)
Record World : Type := mkWorld {
  sessions : gmap string Client;
  pendingSessions : gset string;
  sessionLocks : gmap string bool;
  restartAttempts : gmap string Attempts;
  fs : gmap string Node;
  procs : gmap Z string;
  signals : list Z
}.

Definition set_sessions (f : gmap string Client -> gmap string Client) (w : World) : World :=
  mkWorld (f (sessions w)) (pendingSessions w) (sessionLocks w) (restartAttempts w)
          (fs w) (procs w) (signals w).

Definition set_pendingSessions (f : gset string -> gset string) (w : World) : World :=
  mkWorld (sessions w) (f (pendingSessions w)) (sessionLocks w) (restartAttempts w)
          (fs w) (procs w) (signals w).

Definition set_sessionLocks (f : gmap string bool -> gmap string bool) (w : World) : World :=
  mkWorld (sessions w) (pendingSessions w) (f (sessionLocks w)) (restartAttempts w)
          (fs w) (procs w) (signals w).

Definition set_restartAttempts (f : gmap string Attempts -> gmap string Attempts) (w : World) : World :=
  mkWorld (sessions w) (pendingSessions w) (sessionLocks w) (f (restartAttempts w))
          (fs w) (procs w) (signals w).

Definition set_fs (f : gmap string Node -> gmap string Node) (w : World) : World :=
  mkWorld (sessions w) (pendingSessions w) (sessionLocks w) (restartAttempts w)
          (f (fs w)) (procs w) (signals w).

Definition set_procs (f : gmap Z string -> gmap Z string) (w : World) : World :=
  mkWorld (sessions w) (pendingSessions w) (sessionLocks w) (restartAttempts w)
          (fs w) (f (procs w)) (signals w).

Definition set_signals (f : list Z -> list Z) (w : World) : World :=
  mkWorld (sessions w) (pendingSessions w) (sessionLocks w) (restartAttempts w)
          (fs w) (procs w) (f (signals w)).

Definition emptyWorld : World := mkWorld ∅ ∅ ∅ ∅ ∅ ∅ [].

(** Values of [./config] and the [path] functions of the platform. *)
Record Config : Type := mkConfig {
  sessionFolderPath : string;
  releaseBrowserLock : bool;
  recoverSessions : bool;
  path_sep : ascii;
  (** [path.join(...)] *)
  path_join : list string -> string;
  (** [path.resolve(path.join(...))] *)
  path_resolve : list string -> string
}.

(* ================================================================== *)
(** ** RestartPolicy: [canRestart] (lines 28-50) *)
(* ================================================================== *)

(** [now] is the value of [Date.now()].  The last branch mutates the
    object held by the map, so the map entry changes with it. *)
Definition canRestart (sessionId : string) (now : Z) (w : World) : bool * World :=
  match restartAttempts w !! sessionId with
  | None =>
      (true, set_restartAttempts (insert sessionId (mkAttempts 1 now now)) w)
  | Some attempts =>
      if now - firstAttempt attempts >? RESTART_RESET_MS then
        (true, set_restartAttempts (insert sessionId (mkAttempts 1 now now)) w)
      else if count attempts >=? MAX_RESTART_ATTEMPTS then
        (false, w)
      else if now - lastAttempt attempts <? RESTART_COOLDOWN_MS then
        (false, w)
      else
        (true, set_restartAttempts
                 (insert sessionId
                    (mkAttempts (count attempts + 1) (firstAttempt attempts) now)) w)
  end.

(** The restart decision in the words of the specification (its
    [windowStart] is the source's [firstAttempt]), on one optional record:
    the decision and the record afterwards. *)
Definition canAttempt_rules (rec : option Attempts) (now : Z) : bool * option Attempts :=
  match rec with
  | None => (true, Some (mkAttempts 1 now now))
  | Some r =>
      if bool_decide (now - firstAttempt r > 120000) then (true, Some (mkAttempts 1 now now))
      else if bool_decide (count r >= 3) then (false, Some r)
      else if bool_decide (now - lastAttempt r < 30000) then (false, Some r)
      else (true, Some (mkAttempts (count r + 1) (firstAttempt r) now))
  end.

(** [canRestart] called at each time of the list in turn; the decisions
    paired with the count recorded afterwards. *)
Fixpoint restartTrace (sessionId : string) (times : list Z) (w : World)
  : list (bool * option Z) :=
  match times with
  | [] => []
  | now :: rest =>
      let '(ok, w') := canRestart sessionId now w in
      (ok, count <$> restartAttempts w' !! sessionId) :: restartTrace sessionId rest w'
  end.

(* ================================================================== *)
(** ** Asynchronous functions as coroutines *)
(* ================================================================== *)

(** What the outside world answers to the segment that is resumed: the
    clock, the worker library and the operating system.  A segment reads
    the fields it asks for and ignores the others.  Awaited calls whose
    outcome the source only logs ([terminateWebSocketServer],
    [client.destroy()], [client.logout()]) have no field. *)
Inductive LaunchOutcome : Type :=
| LaunchOk (pid : Z)
    (** [client.initialize()] resolved; the browser child has this pid *)
| LaunchFail (partial : option Z) (err : string)
    (** the [try] block of lines 289-298 threw; [partial] is the pid of
        the browser child the client object shows, if any *).

Record Ext : Type := mkExt {
  now : Z;                          (** [Date.now()] *)
  constructOk : bool;               (** lines 200-273 ([new LocalAuth], the options,
                                        [new Client]) did not throw *)
  launch : LaunchOutcome;           (** outcome of lines 290-298 *)
  unlinkOk : bool;                  (** [fs.promises.unlink] resolved *)
  errorMessage : string;            (** [error.message] of the error caught, if one is *)
  closeOk : bool;                   (** the awaited browser call of [reloadSession] resolved *)
  browserConnected : bool;          (** [client.pupBrowser?.isConnected()] *)
  killAllowed : bool;               (** [process.kill] on a live pid is permitted *)
  realpath : string -> option string; (** [fs.promises.realpath], [None] when it rejects *)
  rmOk : bool;                      (** [fs.promises.rm] resolved *)
  rmSurvives : string -> bool       (** entries a rejected [rm] left in place *)
}.

(** A settled promise. *)
Inductive Value : Type :=
| VUndefined
| VBool (b : bool)
| VSetup (success : bool) (message : string) (client : option Client).

Inductive Completion : Type :=
| Resolved (v : Value)
| Rejected (err : string).

(** A suspended asynchronous computation.  [Susp k] waits at an [await];
    resumed with the answers [e] on the world [w], [k e w] runs the next
    synchronous segment and gives the world it leaves and what is left to
    run.  [Poll busy k] is the loop
    [while (busy) await sleep; ...k...]: resumed while [busy] holds it
    goes back to sleep and changes nothing. *)
Inductive task (R : Type) : Type :=
| Done (r : R)
| Susp (k : Ext -> World -> World * task R)
| Poll (busy : World -> bool) (k : Ext -> World -> World * task R).
Arguments Done {R} r.
Arguments Susp {R} k.
Arguments Poll {R} busy k.

(** One synchronous segment: the world it leaves and the rest. *)
Definition seg (R : Type) : Type := (World * task R)%type.

Definition resume {R} (e : Ext) (w : World) (t : task R) : seg R :=
  match t with
  | Done r => (w, Done r)
  | Susp k => k e w
  | Poll busy k => if busy w then (w, Poll busy k) else k e w
  end.

(** [await t] followed by [k]: the callee's remaining segments run first;
    once it has settled with [a], the caller is resumed in a later turn. *)
Fixpoint await_ {A R} (t : task A) (k : A -> Ext -> World -> seg R) : task R :=
  match t with
  | Done a => Susp (k a)
  | Susp g => Susp (fun e w => let (w', t') := g e w in (w', await_ t' k))
  | Poll busy g => Poll busy (fun e w => let (w', t') := g e w in (w', await_ t' k))
  end.

(** [await f(...)] where the call [s] has already run its first segment. *)
Definition call_await {A R} (s : seg A) (k : A -> Ext -> World -> seg R) : seg R :=
  (s.1, await_ s.2 k).

(** [try { ... } finally { fin }] around the rest of a function: [fin]
    runs in the segment in which the body completes. *)
Fixpoint finally_ {R} (t : task R) (fin : World -> World) : task R :=
  match t with
  | Done r => Done r
  | Susp g =>
      Susp (fun e w => let (w', t') := g e w in
                       match t' with Done r => (fin w', Done r) | _ => (w', finally_ t' fin) end)
  | Poll busy g =>
      Poll busy (fun e w => let (w', t') := g e w in
                       match t' with Done r => (fin w', Done r) | _ => (w', finally_ t' fin) end)
  end.

Definition finally_seg {R} (s : seg R) (fin : World -> World) : seg R :=
  match s.2 with
  | Done r => (fin s.1, Done r)
  | t => (s.1, finally_ t fin)
  end.

(** Drive one operation alone, one answer per resumption. *)
Fixpoint run {R} (es : list Ext) (w : World) (t : task R) : option (World * R) :=
  match t with
  | Done r => Some (w, r)
  | _ =>
      match es with
      | [] => None
      | e :: es' => let (w', t') := resume e w t in run es' w' t'
      end
  end.

(** An operation run alone from the segment of its call. *)
Definition run_seg {R} (es : list Ext) (s : seg R) : option (World * R) :=
  run es s.1 s.2.

(** The same operation called again once the first call has settled. *)
Definition run_twice {R} (es1 es2 : list Ext) (w : World) (t : task R)
  : option ((World * R) * (World * R)) :=
  match run es1 w t with
  | Some (w1, r1) =>
      match run es2 w1 t with
      | Some (w2, r2) => Some ((w1, r1), (w2, r2))
      | None => None
      end
  | None => None
  end.

(* ================================================================== *)
(** ** KeyedLock (lines 17-26) *)
(* ================================================================== *)

Definition lockHeld (sessionId : string) (w : World) : bool :=
  match sessionLocks w !! sessionId with
  | Some true => true
  | _ => false
  end.

Definition releaseSessionLock (sessionId : string) (w : World) : World :=
  set_sessionLocks (delete sessionId) w.

(** [await acquireSessionLock(sessionId)] followed by [body]: the test and
    the [set] are one segment; the caller goes on in a later turn. *)
Definition acquireSessionLock {R} (sessionId : string)
    (body : Ext -> World -> seg R) : task R :=
  Poll (lockHeld sessionId)
       (fun _ w => (set_sessionLocks (insert sessionId true) w, Susp body)).

(* ================================================================== *)
(** ** ProcessReaper (lines 52-106) *)
(* ================================================================== *)

(** A [SIGKILL] that reaches a live process: logged, and the process is
    gone. *)
Definition sigkill (pid : Z) (w : World) : World :=
  set_procs (delete pid) (set_signals (cons pid) w).

(** [killBrowserProcess] has no [await] inside: it runs whole in the
    caller's segment.  [childProcess.kill] signals only a child that has
    not exited. *)
Definition killBrowserProcess (client : Client) (w : World) : World :=
  match pupBrowser client with
  | Some pid =>
      match procs w !! pid with
      | Some _ => sigkill pid w
      | None => w
      end
  | None => w
  end.

Definition is_digit (c : ascii) : bool :=
  let n := nat_of_ascii c in ((48 <=? n)%nat && (n <=? 57)%nat)%bool.

Fixpoint all_digits (s : string) : bool :=
  match s with
  | EmptyString => true
  | String c rest => (is_digit c && all_digits rest)%bool
  end.

(** [parseInt(digits, 10)] on a string of decimal digits (exact; the
    source rounds beyond 2^53, far above any pid). *)
Fixpoint parse_digits (acc : Z) (s : string) : Z :=
  match s with
  | EmptyString => acc
  | String c rest => parse_digits (10 * acc + (Z.of_nat (nat_of_ascii c) - 48)) rest
  end.

(** [linkTarget.match(/-(\d+)$/)]: the first position holding a dash that
    is followed by digits only, and at least one, up to the end. *)
Fixpoint match_dash_digits (s : string) : option string :=
  match s with
  | EmptyString => None
  | String c rest =>
      if (Ascii.eqb c "-" && negb (String.eqb rest "") && all_digits rest)%bool
      then Some rest
      else match_dash_digits rest
  end.

(** Lines 74-83: the pid read from the lock, [None] for [null]. *)
Definition lockPid (node : option Node) : option Z :=
  match node with
  | Some (Symlink linkTarget) =>
      match match_dash_digits linkTarget with
      | Some digits => Some (parse_digits 0 digits)
      | None => None
      end
  | _ => None
  end.

Definition singletonLockPath (cfg : Config) (sessionId : string) : string :=
  path_resolve cfg [sessionFolderPath cfg; "session-" ++ sessionId; "SingletonLock"].

(** Line 100, after [unlink] settled ([.catch(() => { })] swallows a
    failure). *)
Definition orphan_after_unlink (cfg : Config) (sessionId : string)
    (e : Ext) (w : World) : seg Completion :=
  ((if unlinkOk e then set_fs (delete (singletonLockPath cfg sessionId)) w else w),
   Done (Resolved (VBool true))).

(** Lines 76-98, after [readlink] settled. *)
Definition orphan_after_readlink (cfg : Config) (sessionId : string)
    (e : Ext) (w : World) : seg Completion :=
  match lockPid (fs w !! singletonLockPath cfg sessionId) with
  | Some pid =>
      if bool_decide (pid = 0) then (w, Susp (orphan_after_unlink cfg sessionId))
      else
        match procs w !! pid with
        | Some _ =>
            if killAllowed e then
              (* [process.kill(pid, 0)] passed: SIGKILL, then sleep 1s *)
              (sigkill pid w,
               Susp (fun _ w => (w, Susp (orphan_after_unlink cfg sessionId))))
            else (w, Susp (orphan_after_unlink cfg sessionId))
        | None => (w, Susp (orphan_after_unlink cfg sessionId))
        end
  | None => (w, Susp (orphan_after_unlink cfg sessionId))
  end.

(** Lines 69-72, after [lstat] settled. *)
Definition orphan_after_lstat (cfg : Config) (sessionId : string)
    (e : Ext) (w : World) : seg Completion :=
  match fs w !! singletonLockPath cfg sessionId with
  | None => (w, Done (Resolved (VBool false)))
  | Some _ => (w, Susp (orphan_after_readlink cfg sessionId))
  end.

(** The call itself: up to [await fs.promises.lstat(...)]. *)
Definition killOrphanedBrowserByLockFile (cfg : Config) (sessionId : string)
    (w : World) : seg Completion :=
  (w, Susp (orphan_after_lstat cfg sessionId)).

(** Modelled from the spec: [activeProcessIds()], "snapshot of PIDs owned
    by all ACTIVE/PENDING entries"; the source has no such function and
    keeps a client, hence a pid, for ACTIVE entries only. *)
Definition activeProcessIds (w : World) (pid : Z) : Prop :=
  ∃ sessionId client, sessions w !! sessionId = Some client ∧ pupBrowser client = Some pid.

(* ================================================================== *)
(** ** LivenessProbe: [validateSession] (lines 109-159) *)
(* ================================================================== *)

Record Validation : Type := mkValidation {
  success : bool;
  state : option string;
  message : string
}.

(** One turn of the loop of lines 126-142. *)
Inductive PageCheck : Type :=
| PageClosed      (** [client.pupPage.isClosed()] is true *)
| PageOpen        (** it is false *)
| PageThrows      (** the call throws, as when [pupPage] is undefined *).

Inductive RoundTrip : Type :=
| Evaluated       (** [pupPage.evaluate('1')] resolved first *)
| TimedOut        (** the 1000 ms timer resolved first *)
| EvaluateRejected (** [pupPage.evaluate('1')] rejected first *).

Record Attempt : Type := mkAttempt {
  isClosed : PageCheck;
  race : RoundTrip
}.

(** What [client.getState()] gives. *)
Inductive StateAnswer : Type :=
| StateIs (st : string)
| StateNull
| StateThrows (err : string).

(** What the worker answers during one probe: the attempts in order, and
    [client.getState()]. *)
Record Probe : Type := mkProbe {
  attempt : nat -> Attempt;
  getState : StateAnswer
}.

(** The loop, entered with [maxRetry]: [Some None] is [break],
    [Some (Some v)] is [return v], [None] is the fuel running out. *)
Fixpoint evaluable_loop (fuel : nat) (maxRetry : nat) (p : Probe)
  : option (option Validation) :=
  match fuel with
  | O => None
  | S fuel' =>
      let retry :=
        if (maxRetry =? 2)%nat
        then Some (Some (mkValidation false None "session closed"))
        else evaluable_loop fuel' (S maxRetry) p in
      match isClosed (attempt p maxRetry) with
      | PageClosed => Some (Some (mkValidation false None "browser tab closed"))
      | PageThrows => retry
      | PageOpen =>
          match race (attempt p maxRetry) with
          | Evaluated | TimedOut => Some None
          | EvaluateRejected => retry
          end
      end
  end.

Definition validateSession (w : World) (sessionId : string) (p : Probe)
  : option Validation :=
  match sessions w !! sessionId with
  | None => Some (mkValidation false None "session_not_found")
  | Some client =>
      match evaluable_loop 3 0 p with
      | None => None
      | Some (Some v) => Some v
      | Some None =>
          match getState p with
          | StateThrows err => Some (mkValidation false None err)
          | StateNull => Some (mkValidation false None "session_not_connected")
          | StateIs st =>
              if String.eqb st "CONNECTED"
              then Some (mkValidation true (Some st) "session_connected")
              else Some (mkValidation false (Some st) "session_not_connected")
          end
      end
  end.

(** An attempt of the probe loop either finds the page closed, or lands
    in the [catch] (it throws), or leaves the loop by [break]. *)
Definition throws (a : Attempt) : bool :=
  match isClosed a, race a with
  | PageThrows, _ => true
  | PageOpen, EvaluateRejected => true
  | _, _ => false
  end.

Definition breaks (a : Attempt) : bool :=
  match isClosed a, race a with
  | PageOpen, Evaluated => true
  | PageOpen, TimedOut => true
  | _, _ => false
  end.

(* ================================================================== *)
(** ** Supervisor: setup (lines 186-313) *)
(* ================================================================== *)

(** The browser child started by [client.initialize()] shows up in the
    process table, running on the data directory of [sessionId]. *)
Definition spawn (pid : Z) (sessionId : string) (w : World) : World :=
  set_procs (insert pid sessionId) w.

(** Lines 302-311, after the promise of [killBrowserProcess] settled: the
    reservation is dropped, the error rethrown into the outer [catch],
    which drops the reservation again and returns the failure. *)
Definition setup_after_kill (sessionId : string) (err : string) (e : Ext) (w : World)
  : seg Completion :=
  (set_pendingSessions (fun s => s ∖ {[sessionId]}) w,
   Done (Resolved (VSetup false err None))).

(** Lines 299-308, after [client.initialize()] settled.  On failure
    [killBrowserProcess] runs in this segment and its promise is
    awaited. *)
Definition setup_after_initialize (sessionId : string) (e : Ext) (w : World)
  : seg Completion :=
  match launch e with
  | LaunchOk pid =>
      let client := mkClient (Some pid) in
      (set_pendingSessions (fun s => s ∖ {[sessionId]})
         (set_sessions (insert sessionId client) (spawn pid sessionId w)),
       Done (Resolved (VSetup true "Session initiated successfully" (Some client))))
  | LaunchFail partial err =>
      let client := mkClient partial in
      let w1 := match partial with Some pid => spawn pid sessionId w | None => w end in
      (killBrowserProcess client w1, Susp (setup_after_kill sessionId err))
  end.

(** Line 284, after [unlink] settled; a rejection lands in the outer
    [catch]. *)
Definition setup_after_unlink (cfg : Config) (sessionId : string) (e : Ext) (w : World)
  : seg Completion :=
  if unlinkOk e then
    (set_fs (delete (singletonLockPath cfg sessionId)) w,
     Susp (setup_after_initialize sessionId))
  else
    (set_pendingSessions (fun s => s ∖ {[sessionId]}) w,
     Done (Resolved (VSetup false (errorMessage e) None))).

(** Lines 277-298, after [lstat] settled. *)
Definition setup_after_lstat (cfg : Config) (sessionId : string) (e : Ext) (w : World)
  : seg Completion :=
  match fs w !! singletonLockPath cfg sessionId with
  | Some _ =>
      match sessions w !! sessionId with
      | Some _ => (w, Susp (setup_after_initialize sessionId))
      | None => (w, Susp (setup_after_unlink cfg sessionId))
      end
  | None => (w, Susp (setup_after_initialize sessionId))
  end.

(** The call: lines 188-198 and on to the first [await].  When building
    the client throws, the outer [catch] of lines 309-312 drops the
    reservation just made and returns the failure, all in this segment. *)
Definition setupSession_call (cfg : Config) (sessionId : string) (e : Ext) (w : World)
  : seg Completion :=
  match sessions w !! sessionId with
  | Some client =>
      (w, Done (Resolved (VSetup false ("Session already exists for: " ++ sessionId)
                                 (Some client))))
  | None =>
      if bool_decide (sessionId ∈ pendingSessions w) then
        (w, Done (Resolved (VSetup false
                   ("Session initialization already in progress for: " ++ sessionId) None)))
      else
        let w1 := set_pendingSessions (fun s => {[sessionId]} ∪ s) w in
        if constructOk e then
          if releaseBrowserLock cfg
          then (w1, Susp (setup_after_lstat cfg sessionId))
          else (w1, Susp (setup_after_initialize sessionId))
        else
          (set_pendingSessions (fun s => s ∖ {[sessionId]}) w1,
           Done (Resolved (VSetup false (errorMessage e) None)))
  end.

Definition setupSession (cfg : Config) (sessionId : string) : task Completion :=
  Susp (setupSession_call cfg sessionId).

(** The answers under which a setup gets as far as the launch and the
    launch fails with [err], the client showing [partial]. *)
Definition launchFails (partial : option Z) (err : string) (e : Ext) : Prop :=
  launch e = LaunchFail partial err ∧ unlinkOk e = true ∧ constructOk e = true.

(* ================================================================== *)
(** ** Supervisor: folder removal (lines 587-605) *)
(* ================================================================== *)

Definition targetDirPath (cfg : Config) (sessionId : string) : string :=
  path_join cfg [sessionFolderPath cfg; "session-" ++ sessionId].

(** [safeSessionPath]: the resolved session folder followed by [path.sep]. *)
Definition safeSessionPath (cfg : Config) (resolvedSessionPath : string) : string :=
  resolvedSessionPath ++ String (path_sep cfg) "".

(** The entries [rm(dir, { recursive })] is about: [dir] and all below. *)
Definition under (cfg : Config) (dir p : string) : bool :=
  (String.eqb p dir || String.prefix (dir ++ String (path_sep cfg) "") p)%bool.

(** Line 600, after [rm] settled: when it rejects, some of the entries
    may be gone already. *)
Definition folder_after_rm (cfg : Config) (resolvedTargetDirPath : string)
    (e : Ext) (w : World) : seg Completion :=
  if rmOk e then
    (set_fs (filter (fun kv => under cfg resolvedTargetDirPath kv.1 = false)) w,
     Done (Resolved VUndefined))
  else
    (set_fs (filter (fun kv => under cfg resolvedTargetDirPath kv.1 = false
                               ∨ rmSurvives e kv.1 = true)) w,
     Done (Rejected (errorMessage e))).

(** Lines 591-600, after [realpath(sessionFolderPath)] settled. *)
Definition folder_after_realpath_root (cfg : Config) (resolvedTargetDirPath : string)
    (e : Ext) (w : World) : seg Completion :=
  match realpath e (sessionFolderPath cfg) with
  | None => (w, Done (Rejected (errorMessage e)))
  | Some resolvedSessionPath =>
      if String.prefix (safeSessionPath cfg resolvedSessionPath) resolvedTargetDirPath
      then (w, Susp (folder_after_rm cfg resolvedTargetDirPath))
      else (w, Done (Rejected "Invalid path: Directory traversal detected"))
  end.

(** Line 590, after [realpath(targetDirPath)] settled. *)
Definition folder_after_realpath_target (cfg : Config) (sessionId : string)
    (e : Ext) (w : World) : seg Completion :=
  match realpath e (targetDirPath cfg sessionId) with
  | None => (w, Done (Rejected (errorMessage e)))
  | Some resolvedTargetDirPath =>
      (w, Susp (folder_after_realpath_root cfg resolvedTargetDirPath))
  end.

Definition deleteSessionFolder (cfg : Config) (sessionId : string) (w : World)
  : seg Completion :=
  (w, Susp (folder_after_realpath_target cfg sessionId)).



(* ================================================================== *)
(** ** Supervisor: teardown, reload, recovery (lines 321-343, 608-726) *)
(* ================================================================== *)

(** Lines 668-670 and 716-718. *)
Definition clearSession (sessionId : string) (w : World) : World :=
  set_restartAttempts (delete sessionId)
    (set_pendingSessions (fun s => s ∖ {[sessionId]})
       (set_sessions (delete sessionId) w)).

(** Lines 324-325, 332-333, 627-628. *)
Definition dropSession (sessionId : string) (w : World) : World :=
  set_pendingSessions (fun s => s ∖ {[sessionId]}) (set_sessions (delete sessionId) w).

(** [while (client.pupBrowser?.isConnected() && maxDelay < 10)
      { await sleep(1000); maxDelay++ }] with [ticks = 10 - maxDelay];
    [after] gets what [isConnected()] says once the loop is left. *)
Fixpoint wait_disconnect {R} (ticks : nat) (after : bool -> Ext -> World -> seg R)
    (e : Ext) (w : World) : seg R :=
  if browserConnected e then
    match ticks with
    | S n => (w, Susp (wait_disconnect n after))
    | O => after true e w
    end
  else after false e w.

(** Lines 665-670. *)
Definition destroy_finish (sessionId : string) (client : Client)
    (stillConnected : bool) (e : Ext) (w : World) : seg Completion :=
  if stillConnected then
    (killBrowserProcess client w,
     Susp (fun _ w => (clearSession sessionId w, Done (Resolved VUndefined))))
  else (clearSession sessionId w, Done (Resolved VUndefined)).

(** The [try] block of [destroySession], lines 641-670. *)
Definition destroy_body (cfg : Config) (sessionId : string) (e : Ext) (w : World)
  : seg Completion :=
  match sessions w !! sessionId with
  | None =>
      call_await (killOrphanedBrowserByLockFile cfg sessionId w)
        (fun _ _ w =>
           (set_pendingSessions (fun s => s ∖ {[sessionId]}) w, Done (Resolved VUndefined)))
  | Some client =>
      (* listeners removed; [await terminateWebSocketServer(sessionId)] *)
      (w, Susp (fun _ w =>
        (* settled, a failure is logged; [await client.destroy()] *)
        (w, Susp
          (* settled, a failure is logged; the wait loop *)
          (wait_disconnect 10 (destroy_finish sessionId client)))))
  end.

Definition destroySession (cfg : Config) (sessionId : string) : task Completion :=
  acquireSessionLock sessionId
    (fun e w => finally_seg (destroy_body cfg sessionId e w) (releaseSessionLock sessionId)).

(** Lines 708-719: what follows the wait loop of [deleteSession]; a
    rejection of [deleteSessionFolder] propagates. *)
Definition delete_tail (cfg : Config) (sessionId : string) (e : Ext) (w : World)
  : seg Completion :=
  call_await (deleteSessionFolder cfg sessionId (clearSession sessionId w))
    (fun r _ w =>
       (w, Done (match r with
                 | Rejected err => Rejected err
                 | Resolved _ => Resolved VUndefined
                 end))).

Definition delete_finish (cfg : Config) (sessionId : string) (client : Client)
    (stillConnected : bool) (e : Ext) (w : World) : seg Completion :=
  if stillConnected then
    (killBrowserProcess client w, Susp (delete_tail cfg sessionId))
  else delete_tail cfg sessionId e w.

(** The [try] block of [deleteSession], lines 682-719.  [validation] is
    [None] when the caller passed [undefined]: reading [.success] then
    throws inside the inner [try] and is logged. *)
Definition delete_body (cfg : Config) (sessionId : string)
    (validation : option Validation) (e : Ext) (w : World) : seg Completion :=
  match sessions w !! sessionId with
  | None =>
      call_await (killOrphanedBrowserByLockFile cfg sessionId w)
        (fun _ _ w =>
           call_await
             (deleteSessionFolder cfg sessionId
                (set_pendingSessions (fun s => s ∖ {[sessionId]}) w))
             (* [.catch(() => { })] *)
             (fun _ _ w => (w, Done (Resolved VUndefined))))
  | Some client =>
      (* listeners removed; [await terminateWebSocketServer(sessionId)] *)
      (w, Susp (fun e w =>
        let loop := wait_disconnect 10 (delete_finish cfg sessionId client) in
        match validation with
        | Some v =>
            if success v then (w, Susp loop)          (* [await client.logout()] *)
            else if String.eqb (message v) "session_not_connected"
                 then (w, Susp loop)                  (* [await client.destroy()] *)
                 else loop e w
        | None => loop e w
        end))
  end.

Definition deleteSession (cfg : Config) (sessionId : string)
    (validation : option Validation) : task Completion :=
  acquireSessionLock sessionId
    (fun e w => finally_seg (delete_body cfg sessionId validation e w)
                            (releaseSessionLock sessionId)).

(** Lines 627-629. *)
Definition reload_relaunch (cfg : Config) (sessionId : string) (e : Ext) (w : World)
  : seg Completion :=
  call_await (setupSession_call cfg sessionId e (dropSession sessionId w))
    (fun _ _ w => (w, Done (Resolved VUndefined))).

(** Lines 617-626: the three awaited browser calls ([pages()], closing
    the pages, closing the browser against a 5 s timer), [more] of them
    still to come; a rejection goes to [killBrowserProcess].  When
    [client.pupBrowser] is undefined the first call throws at once and
    [killBrowserProcess] has nothing to kill: the same worlds, one
    suspension fewer. *)
Fixpoint reload_close (more : nat) (cfg : Config) (sessionId : string) (client : Client)
    (e : Ext) (w : World) : seg Completion :=
  if closeOk e then
    match more with
    | S n => (w, Susp (reload_close n cfg sessionId client))
    | O => reload_relaunch cfg sessionId e w
    end
  else (killBrowserProcess client w, Susp (reload_relaunch cfg sessionId)).

Definition reload_body (cfg : Config) (sessionId : string) (e : Ext) (w : World)
  : seg Completion :=
  match sessions w !! sessionId with
  | None => (w, Done (Resolved VUndefined))
  | Some client => (w, Susp (reload_close 2 cfg sessionId client))
  end.

Definition reloadSession (cfg : Config) (sessionId : string) : task Completion :=
  acquireSessionLock sessionId
    (fun e w => finally_seg (reload_body cfg sessionId e w) (releaseSessionLock sessionId)).

(** The [try] block of [safeRestartSession], lines 332-337; [client] is
    the one the closure captured. *)
Definition restart_body (cfg : Config) (sessionId : string) (client : Client)
    (e : Ext) (w : World) : seg Completion :=
  (dropSession sessionId w,
   (* [await client.destroy().catch(() => { })] *)
   Susp (fun _ w =>
     (killBrowserProcess client w,
      (* the promise of [killBrowserProcess] *)
      Susp (fun _ w =>
        (w,
         (* the 2000 ms timer *)
         Susp (fun e w =>
           call_await (setupSession_call cfg sessionId e w)
             (fun _ _ w => (w, Done (Resolved VUndefined))))))))).

(** The call of [safeRestartSession]: [canRestart], and when it allows,
    the first test of the lock, are one segment. *)
Definition safeRestartSession_call (cfg : Config) (sessionId : string) (client : Client)
    (e : Ext) (w : World) : seg Completion :=
  let '(ok, w1) := canRestart sessionId (now e) w in
  if ok then
    resume e w1
      (acquireSessionLock sessionId
         (fun e w => finally_seg (restart_body cfg sessionId client e w)
                                 (releaseSessionLock sessionId)))
  else
    (killBrowserProcess client (dropSession sessionId w1),
     Susp (fun _ w => (w, Done (Resolved VUndefined)))).

Definition safeRestartSession (cfg : Config) (sessionId : string) (client : Client)
  : task Completion :=
  Susp (safeRestartSession_call cfg sessionId client).

(** Line 291: the [ready] handler registered by [setupSession]. *)
Definition onReady (sessionId : string) : task Completion :=
  Susp (fun _ w => (set_restartAttempts (delete sessionId) w, Done (Resolved VUndefined))).

(* ================================================================== *)
(** ** The operations running together *)
(* ================================================================== *)

(** What may be started at any time: a request, or an event of a worker
    (a crash starts [safeRestartSession], [ready] starts the handler). *)
Inductive Op : Type :=
| OpSetup (sessionId : string)
| OpReload (sessionId : string)
| OpDestroy (sessionId : string)
| OpDelete (sessionId : string) (validation : option Validation)
| OpRestart (sessionId : string) (client : Client)
| OpReady (sessionId : string).

Definition invoke (cfg : Config) (op : Op) : task Completion :=
  match op with
  | OpSetup k => setupSession cfg k
  | OpReload k => reloadSession cfg k
  | OpDestroy k => destroySession cfg k
  | OpDelete k v => deleteSession cfg k v
  | OpRestart k c => safeRestartSession cfg k c
  | OpReady k => onReady k
  end.

(** The shared world and the operations in flight.  Between two steps
    every operation is at an [await] (or has not been called yet, or has
    settled). *)
Record System : Type := mkSystem {
  world : World;
  pool : list (task Completion)
}.

(** One operation that has not settled runs its next segment, on answers
    the environment is [allowed] to give. *)
Inductive resume_step (allowed : Ext -> Prop) : System -> System -> Prop :=
| resume_at (s : System) (i : nat) (t : task Completion) (e : Ext) :
    pool s !! i = Some t ->
    (∀ r, t ≠ Done r) ->
    allowed e ->
    resume_step allowed s
      (mkSystem (resume e (world s) t).1 (<[i := (resume e (world s) t).2]> (pool s))).

(** Lines 319-352: the crash handlers exist only with [recoverSessions]. *)
Definition arrives (cfg : Config) (op : Op) : Prop :=
  match op with
  | OpRestart _ _ => recoverSessions cfg = true
  | _ => True
  end.

(** ... or a new operation arrives. *)
Inductive step (cfg : Config) : System -> System -> Prop :=
| step_resume (s s' : System) : resume_step (fun _ => True) s s' -> step cfg s s'
| step_invoke (s : System) (op : Op) :
    arrives cfg op ->
    step cfg s (mkSystem (world s) (pool s ++ [invoke cfg op])).

(** The module as loaded: empty tables (lines 4-7), nothing in flight. *)
Definition initial (s : System) : Prop :=
  pool s = []
  ∧ sessions (world s) = ∅
  ∧ pendingSessions (world s) = ∅
  ∧ sessionLocks (world s) = ∅
  ∧ restartAttempts (world s) = ∅.

(** A key is ABSENT, PENDING or ACTIVE by the two tables. *)
Definition isPending (sessionId : string) (w : World) : Prop :=
  sessionId ∈ pendingSessions w.

Definition isActive (sessionId : string) (w : World) : Prop :=
  is_Some (sessions w !! sessionId).

Definition isAbsent (sessionId : string) (w : World) : Prop :=
  sessions w !! sessionId = None ∧ sessionId ∉ pendingSessions w.

(** No key is PENDING and ACTIVE at once. *)
Definition registry_exclusive (w : World) : Prop :=
  ∀ sessionId, ¬ (isPending sessionId w ∧ isActive sessionId w).

(** [always T t]: every segment [t] will ever run takes the world it is
    resumed on to a world related to it by [T]. *)
Inductive always {R} (T : World -> World -> Prop) : task R -> Prop :=
| always_Done (r : R) : always T (Done r)
| always_Susp (k : Ext -> World -> seg R) :
    (∀ e w, T w (k e w).1) ->
    (∀ e w, always T (k e w).2) ->
    always T (Susp k)
| always_Poll (busy : World -> bool) (k : Ext -> World -> seg R) :
    (∀ e w, T w (k e w).1) ->
    (∀ e w, always T (k e w).2) ->
    always T (Poll busy k).

(** The same for a segment that has just run from [w]. *)
Definition always_seg {R} (T : World -> World -> Prop) (w : World) (s : seg R) : Prop :=
  T w s.1 ∧ always T s.2.

(** The relations the operations are checked against: what a relation
    must allow so that every update the function bodies make to the
    registry, the restart table, the file system and the process table
    is allowed after the updates made so far. *)
Class BodyStep (T : World -> World -> Prop) : Prop := {
  step_refl : ∀ w, T w w;
  step_trans : ∀ w1 w2 w3, T w1 w2 -> T w2 w3 -> T w1 w3;
  step_restartAttempts : ∀ w w' f, T w w' -> T w (set_restartAttempts f w');
  step_fs : ∀ w w' f, T w w' -> T w (set_fs f w');
  step_procs : ∀ w w' f, T w w' -> T w (set_procs f w');
  step_signals : ∀ w w' f, T w w' -> T w (set_signals f w');
  step_pending_delete :
    ∀ w w' k, T w w' -> T w (set_pendingSessions (fun s => s ∖ {[k]}) w');
  step_sessions_delete : ∀ w w' k, T w w' -> T w (set_sessions (delete k) w');
  (** line 197, reached with no registry entry for the key *)
  step_reserve :
    ∀ w k, sessions w !! k = None ->
           T w (set_pendingSessions (fun s => {[k]} ∪ s) w);
  (** lines 306-307, the browser child recorded *)
  step_activate :
    ∀ w k pid,
      T w (set_pendingSessions (fun s => s ∖ {[k]})
             (set_sessions (insert k (mkClient (Some pid))) (spawn pid k w)))
}.

(** A segment keeps the registry exclusive. *)
Definition exclusive_step (w w' : World) : Prop :=
  registry_exclusive w -> registry_exclusive w'.

(** A segment leaves the lock table as it is. *)
Definition same_locks (w w' : World) : Prop := sessionLocks w' = sessionLocks w.

(** What one segment may do to [sessionLocks], for an operation that
    holds the lock [o] before and [o'] after: nothing, take a lock, or
    give back the lock it holds. *)
Inductive lock_trans (o o' : option string) (w w' : World) : Prop :=
| lock_keep :
    o' = o -> sessionLocks w' = sessionLocks w -> lock_trans o o' w w'
| lock_acquire (k : string) :
    o = None -> o' = Some k ->
    sessionLocks w' = <[k := true]> (sessionLocks w) -> lock_trans o o' w w'
| lock_release (k : string) :
    o = Some k -> o' = None ->
    sessionLocks w' = delete k (sessionLocks w) -> lock_trans o o' w w'.

(** [disciplined o t]: [t] holds the session lock [o] (none for [None]),
    every segment it runs is one of the three moves above, and it cannot
    settle, with a value or with an error, while it holds a lock. *)
Fixpoint disciplined {R} (o : option string) (t : task R) {struct t} : Prop :=
  match t with
  | Done _ => o = None
  | Susp g =>
      ∀ e w, ∃ o', lock_trans o o' w (g e w).1 ∧ disciplined o' (g e w).2
  | Poll _ g =>
      ∀ e w, ∃ o', lock_trans o o' w (g e w).1 ∧ disciplined o' (g e w).2
  end.

Definition settled {R} (t : task R) : Prop := ∃ r, t = Done r.

(** [os] names, for every operation in flight, the session lock it
    holds; every lock in the table is held by one of them. *)
Definition lock_owners (os : list (option string)) (s : System) : Prop :=
  Forall2 disciplined os (pool s)
  ∧ ∀ k, is_Some (sessionLocks (world s) !! k) -> Some k ∈ os.

(* ------------------------------------------------------------------ *)
(** Concurrent calls of [setupSession] on one key. *)





(** The successful result, carrying the client with its browser pid. *)
Definition won (pid : Z) : Completion :=
  Resolved (VSetup true "Session initiated successfully" (Some (mkClient (Some pid)))).



(** Answers under which a setup that made the reservation goes through:
    the client can be built, the stale lock, if there is one, can be
    removed, and the launch succeeds. *)
Definition launchSucceeds (e : Ext) : Prop :=
  (∃ pid, launch e = LaunchOk pid) ∧ unlinkOk e = true ∧ constructOk e = true.

(** At most one live process runs on the data directory of the key. *)
Definition one_worker (sessionId : string) (w : World) : Prop :=
  ∀ p1 p2, procs w !! p1 = Some sessionId -> procs w !! p2 = Some sessionId -> p1 = p2.






(** A schedule run from a system: each entry resumes the operation at
    that index on those answers. *)
Definition resume_index (i : nat) (e : Ext) (s : System) : System :=
  match pool s !! i with
  | Some t => mkSystem (resume e (world s) t).1 (<[i := (resume e (world s) t).2]> (pool s))
  | None => s
  end.

Fixpoint exec (schedule : list (nat * Ext)) (s : System) : System :=
  match schedule with
  | [] => s
  | (i, e) :: rest => exec rest (resume_index i e s)
  end.

(* ------------------------------------------------------------------ *)
(** Sample inputs. *)

Definition posixConfig : Config :=
  mkConfig "/sessions" true true "/" (String.concat "/") (String.concat "/").

(** Answers of a quiet world: everything asked for succeeds. *)
Definition quietExt : Ext :=
  mkExt 0 true (LaunchOk 1) true "" true false true (fun p => Some p) true
        (fun _ => false).

(** Answers of a world in which the browser starts and the launch then
    fails, the client showing the child 7. *)
Definition failingExt : Ext :=
  mkExt 0 true (LaunchFail (Some 7) "Failed to launch the browser process") true ""
        true false true (fun p => Some p) true (fun _ => false).

(** Session D is ACTIVE with browser pid 4242; the folder of session C
    was left behind with a lock that names pid 4242. *)
Definition reusedPidWorld : World :=
  mkWorld {[ "D" := mkClient (Some 4242) ]} ∅ ∅ ∅
          {[ "/sessions/session-C/SingletonLock" := Symlink "host-4242" ]}
          {[ 4242 := "D" ]} [].

(** Answers of a world in which the session folder cannot be resolved. *)
Definition missingFolderExt : Ext :=
  mkExt 0 true (LaunchOk 1) true "ENOENT: no such file or directory" true false true
        (fun _ => None) true (fun _ => false).


(** A worker whose page is open and never answers within the second. *)
Definition silentProbe : Probe :=
  mkProbe (fun _ => mkAttempt PageOpen TimedOut) (StateIs "CONNECTED").

(** Sample systems: the module as loaded, and one [setupSession "C"]
    called and run up to its first [await]. *)
Definition loadedSystem : System := mkSystem emptyWorld [].

Definition oneSetupSystem : System :=
  mkSystem (resume quietExt emptyWorld (setupSession posixConfig "C")).1
           (<[0%nat := (resume quietExt emptyWorld (setupSession posixConfig "C")).2]>
              ([] ++ [invoke posixConfig (OpSetup "C")])%list).



(* ================================================================== *)
(** ** Session folders: [/^session-(.+)$/] (lines 172 and 736) *)
(* ================================================================== *)

(** [strip_prefix p s]: what follows [p] in [s], when [s] starts with [p]. *)
Fixpoint strip_prefix (p s : string) : option string :=
  match p, s with
  | EmptyString, _ => Some s
  | String a p', String b s' => if Ascii.eqb a b then strip_prefix p' s' else None
  | String _ _, EmptyString => None
  end.

(** The line terminators U+2028 and U+2029 in the UTF-8 bytes of a file
    name. *)
Definition lineSeparator : string :=
  String (ascii_of_nat 226) (String (ascii_of_nat 128) (String (ascii_of_nat 168) "")).

Definition paragraphSeparator : string :=
  String (ascii_of_nat 226) (String (ascii_of_nat 128) (String (ascii_of_nat 169) "")).

(** [.] of a JavaScript regular expression (no [s] flag) matches every
    character but a line terminator: LF, CR, U+2028, U+2029. *)
Fixpoint has_line_terminator (s : string) : bool :=
  match s with
  | EmptyString => false
  | String c rest =>
      (Ascii.eqb c (ascii_of_nat 10) || Ascii.eqb c (ascii_of_nat 13)
       || String.prefix lineSeparator s || String.prefix paragraphSeparator s
       || has_line_terminator rest)%bool
  end.

(** [file.match(/^session-(.+)$/)]: [match[1]], [None] for no match. *)
Definition session_of_file (file : string) : option string :=
  match strip_prefix "session-" file with
  | Some sessionId =>
      if (negb (String.eqb sessionId "") && negb (has_line_terminator sessionId))%bool
      then Some sessionId
      else None
  | None => None
  end.

(** The number of restarts a trace of [canRestart] allowed. *)
Definition restartsAllowed (trace : list (bool * option Z)) : nat :=
  List.length (filter (fun oc => oc.1 = true) trace).

(* ================================================================== *)
(** ** An operation run alone to its end *)
(* ================================================================== *)

(** [settles P Q n w t]: resumed from [w] on any answers that satisfy
    [P], with nothing else running in between, [t] settles after at most
    [n] segments, and the world it leaves and its result satisfy [Q]. *)
Inductive settles {R} (P : Ext -> Prop) (Q : World -> R -> Prop)
  : nat -> World -> task R -> Prop :=
| settles_Done (n : nat) (w : World) (r : R) :
    Q w r -> settles P Q n w (Done r)
| settles_step (n : nat) (w : World) (t : task R) :
    (∀ r, t ≠ Done r) ->
    (∀ e, P e -> settles P Q n (resume e w t).1 (resume e w t).2) ->
    settles P Q (S n) w t.

(** The same for a call that has run its first segment. *)
Definition settles_seg {R} (P : Ext -> Prop) (Q : World -> R -> Prop) (n : nat)
    (s : seg R) : Prop :=
  settles P Q n s.1 s.2.


(** The four tables of the module are the same in two worlds. *)
Definition same_registry (w w' : World) : Prop :=
  sessions w' = sessions w
  ∧ pendingSessions w' = pendingSessions w
  ∧ sessionLocks w' = sessionLocks w
  ∧ restartAttempts w' = restartAttempts w.

(** What [killOrphanedBrowserByLockFile] may do to the file system and
    the processes: remove the lock, and send one SIGKILL, to the live
    process the lock names. *)
Definition reaper_effects (cfg : Config) (sessionId : string) (w w' : World) : Prop :=
  (fs w' = fs w ∨ fs w' = delete (singletonLockPath cfg sessionId) (fs w))
  ∧ ((signals w' = signals w ∧ procs w' = procs w)
     ∨ ∃ pid, lockPid (fs w !! singletonLockPath cfg sessionId) = Some pid
              ∧ pid ≠ 0
              ∧ is_Some (procs w !! pid)
              ∧ signals w' = pid :: signals w
              ∧ procs w' = delete pid (procs w)).

(** What [killOrphanedBrowserByLockFile] leaves, from [w], when it gave
    [b]. *)
Definition reaped (cfg : Config) (sessionId : string) (w w' : World) (b : bool) : Prop :=
  same_registry w w'
  ∧ (b = true <-> is_Some (fs w !! singletonLockPath cfg sessionId))
  ∧ (b = false -> w' = w)
  ∧ reaper_effects cfg sessionId w w'.

(** What the reaper does beyond [reaped] when the answers are known to
    let it: the lock is removed, the live process the lock names is
    killed. *)
Definition reaper_post (P : Ext -> Prop) (cfg : Config) (sessionId : string)
    (w w' : World) (r : Completion) : Prop :=
  ∃ b, r = Resolved (VBool b)
       ∧ reaped cfg sessionId w w' b
       ∧ ((∀ e, P e -> unlinkOk e = true) -> b = true ->
          fs w' = delete (singletonLockPath cfg sessionId) (fs w))
       ∧ ((∀ e, P e -> killAllowed e = true) ->
          ∀ pid, lockPid (fs w !! singletonLockPath cfg sessionId) = Some pid ->
                 pid ≠ 0 -> is_Some (procs w !! pid) ->
                 signals w' = pid :: signals w ∧ procs w' = delete pid (procs w)).

(** Answers under which a setup goes through with the browser [pid]:
    the client can be built, a stale lock can be removed, the launch
    gives [pid]. *)
Definition launchGives (pid : Z) (e : Ext) : Prop :=
  launch e = LaunchOk pid ∧ unlinkOk e = true ∧ constructOk e = true.

(** What [setupSession] leaves, from [w], and what it returns; the last
    three lines say what is known when all answers are known to let the
    setup go through, to make the launch fail, to give one pid. *)
Definition setup_post (P : Ext -> Prop) (cfg : Config) (sessionId : string)
    (w w' : World) (r : Completion) : Prop :=
  ∃ ok msg c,
    r = Resolved (VSetup ok msg c)
    ∧ pendingSessions w' = pendingSessions w
    ∧ sessionLocks w' = sessionLocks w
    ∧ restartAttempts w' = restartAttempts w
    ∧ (fs w' = fs w ∨ fs w' = delete (singletonLockPath cfg sessionId) (fs w))
    ∧ (ok = true ->
       isAbsent sessionId w
       ∧ msg = "Session initiated successfully"
       ∧ ∃ pid, c = Some (mkClient (Some pid))
                ∧ sessions w' = <[sessionId := mkClient (Some pid)]> (sessions w)
                ∧ procs w' = <[pid := sessionId]> (procs w)
                ∧ signals w' = signals w
                ∧ fs w' = (if releaseBrowserLock cfg
                           then delete (singletonLockPath cfg sessionId) (fs w)
                           else fs w))
    ∧ (ok = false -> sessions w' = sessions w ∧ c = sessions w !! sessionId)
    ∧ ((∀ e, P e -> launchSucceeds e) -> isAbsent sessionId w -> ok = true)
    ∧ ((∀ e, P e -> ∃ partial err, launch e = LaunchFail partial err) -> ok = false)
    ∧ (∀ pid, (∀ e, P e -> launch e = LaunchOk pid) -> ok = true ->
              c = Some (mkClient (Some pid))).

(** Answers of a world in which the lock file may not be removed. *)
Definition lockedExt : Ext :=
  mkExt 0 true (LaunchOk 1) false "EPERM: operation not permitted, unlink" true false
        true (fun p => Some p) true (fun _ => false).


(** Answers under which the session folder of [sessionId] resolves to
    [dir], the session root to [root], and [rm] goes through. *)
Definition folderResolves (cfg : Config) (sessionId dir root : string) (e : Ext) : Prop :=
  realpath e (targetDirPath cfg sessionId) = Some dir
  ∧ realpath e (sessionFolderPath cfg) = Some root
  ∧ rmOk e = true.

(** Answers under which the session folder cannot be resolved, with the
    error [err]. *)
Definition folderMissing (cfg : Config) (sessionId err : string) (e : Ext) : Prop :=
  realpath e (targetDirPath cfg sessionId) = None ∧ errorMessage e = err.

(** [w'] is [w] with some entries of the file system removed. *)
Definition only_removes (w w' : World) : Prop :=
  ∀ p, fs w' !! p = fs w !! p ∨ fs w' !! p = None.

(** What [deleteSessionFolder] leaves, from [w], and how it settles. *)
Definition folder_post (P : Ext -> Prop) (cfg : Config) (sessionId : string)
    (w w' : World) (r : Completion) : Prop :=
  same_registry w w'
  ∧ procs w' = procs w
  ∧ signals w' = signals w
  ∧ only_removes w w'
  ∧ (r = Resolved VUndefined ∨ ∃ err, r = Rejected err)
  ∧ (∀ err, (∀ e, P e -> folderMissing cfg sessionId err e) ->
            r = Rejected err ∧ fs w' = fs w)
  ∧ (∀ dir root, (∀ e, P e -> folderResolves cfg sessionId dir root e) ->
                 String.prefix (safeSessionPath cfg root) dir = true ->
                 r = Resolved VUndefined
                 ∧ ∀ p, under cfg dir p = true -> fs w' !! p = None).

(** The signal [killBrowserProcess] may send for [client]. *)
Definition may_kill (client : Client) (w w' : World) : Prop :=
  (signals w' = signals w ∧ procs w' = procs w)
  ∨ ∃ pid, pupBrowser client = Some pid
           ∧ is_Some (procs w !! pid)
           ∧ signals w' = pid :: signals w
           ∧ procs w' = delete pid (procs w).

(** [k] has been cleared from the registry and the restart table. *)
Definition cleared (sessionId : string) (w w' : World) : Prop :=
  sessions w' = delete sessionId (sessions w)
  ∧ pendingSessions w' = pendingSessions w ∖ {[sessionId]}
  ∧ restartAttempts w' = delete sessionId (restartAttempts w).

(** What [destroySession] and [deleteSession] leave of the tables and of
    the lock file, from [w], for a key without client: the reaper has
    run and the reservation of the key, if there was one, is dropped. *)
Definition orphan_post (P : Ext -> Prop) (cfg : Config) (sessionId : string)
    (w w' : World) : Prop :=
  sessions w' = sessions w
  ∧ pendingSessions w' = pendingSessions w ∖ {[sessionId]}
  ∧ sessionLocks w' = sessionLocks w
  ∧ restartAttempts w' = restartAttempts w
  ∧ reaper_effects cfg sessionId w w'
  ∧ ((∀ e, P e -> unlinkOk e = true) ->
     is_Some (fs w !! singletonLockPath cfg sessionId) ->
     fs w' = delete (singletonLockPath cfg sessionId) (fs w))
  ∧ ((∀ e, P e -> killAllowed e = true) ->
     ∀ pid, lockPid (fs w !! singletonLockPath cfg sessionId) = Some pid ->
            pid ≠ 0 -> is_Some (procs w !! pid) ->
            signals w' = pid :: signals w ∧ procs w' = delete pid (procs w)).

(** The same for [deleteSession], which goes on to remove the folder. *)
Definition delete_orphan_post (P : Ext -> Prop) (cfg : Config) (sessionId : string)
    (w w' : World) : Prop :=
  sessions w' = sessions w
  ∧ pendingSessions w' = pendingSessions w ∖ {[sessionId]}
  ∧ sessionLocks w' = sessionLocks w
  ∧ restartAttempts w' = restartAttempts w
  ∧ only_removes w w'
  ∧ ((signals w' = signals w ∧ procs w' = procs w)
     ∨ ∃ pid, lockPid (fs w !! singletonLockPath cfg sessionId) = Some pid
              ∧ pid ≠ 0
              ∧ is_Some (procs w !! pid)
              ∧ signals w' = pid :: signals w
              ∧ procs w' = delete pid (procs w))
  ∧ (∀ dir root, (∀ e, P e -> folderResolves cfg sessionId dir root e) ->
                 String.prefix (safeSessionPath cfg root) dir = true ->
                 ∀ p, under cfg dir p = true -> fs w' !! p = None).

(** What [destroySession] leaves, from [w], for a key with [client]. *)
Definition destroy_active_post (P : Ext -> Prop) (sessionId : string) (client : Client)
    (w w' : World) : Prop :=
  cleared sessionId w w'
  ∧ sessionLocks w' = sessionLocks w
  ∧ fs w' = fs w
  ∧ may_kill client w w'
  ∧ ((∀ e, P e -> browserConnected e = true) ->
     signals w' = signals (killBrowserProcess client w))
  ∧ ((∀ e, P e -> browserConnected e = false) -> signals w' = signals w).

(** What [deleteSession] leaves, from [w], for a key with [client], and
    how it settles. *)
Definition delete_active_post (P : Ext -> Prop) (cfg : Config) (sessionId : string)
    (client : Client) (w w' : World) (r : Completion) : Prop :=
  cleared sessionId w w'
  ∧ sessionLocks w' = sessionLocks w
  ∧ only_removes w w'
  ∧ may_kill client w w'
  ∧ (r = Resolved VUndefined ∨ ∃ err, r = Rejected err)
  ∧ (∀ err, (∀ e, P e -> folderMissing cfg sessionId err e) ->
            r = Rejected err ∧ fs w' = fs w)
  ∧ (∀ dir root, (∀ e, P e -> folderResolves cfg sessionId dir root e) ->
                 String.prefix (safeSessionPath cfg root) dir = true ->
                 r = Resolved VUndefined
                 ∧ ∀ p, under cfg dir p = true -> fs w' !! p = None).

(** A world in which [setupSession "C"] has made its reservation and
    waits for the launch. *)
Definition oneSetupWorld : World :=
  set_pendingSessions (fun s => {["C"]} ∪ s) emptyWorld.

(** What a relaunch of [sessionId] leaves of the tables, from [w]: the
    old entry is gone, and the key is registered again when the setup went
    through. *)
Definition relaunched (P : Ext -> Prop) (sessionId : string) (w w' : World) : Prop :=
  sessionLocks w' = sessionLocks w
  ∧ pendingSessions w' = pendingSessions w ∖ {[sessionId]}
  ∧ (sessions w' = delete sessionId (sessions w)
     ∨ ∃ pid, sessions w' = <[sessionId := mkClient (Some pid)]> (sessions w))
  ∧ ((∀ e, P e -> ∃ partial err, launch e = LaunchFail partial err) ->
     sessions w' = delete sessionId (sessions w))
  ∧ (∀ pid, (∀ e, P e -> launchGives pid e) ->
            sessions w' = <[sessionId := mkClient (Some pid)]> (sessions w)).

(** What [reloadSession] leaves, from [w], for a key with [client]. *)
Definition reload_post (P : Ext -> Prop) (sessionId : string) (client : Client)
    (w w' : World) : Prop :=
  relaunched P sessionId w w'
  ∧ restartAttempts w' = restartAttempts w
  ∧ (∀ pid, (∀ e, P e -> launchGives pid e) ->
            ((∀ e, P e -> closeOk e = true) -> signals w' = signals w)
            ∧ ((∀ e, P e -> closeOk e = false) ->
               signals w' = signals (killBrowserProcess client w))).

(** What an allowed [safeRestartSession] leaves, from the world [w] in
    which [canRestart] has recorded the attempt. *)
Definition restart_post (P : Ext -> Prop) (sessionId : string) (client : Client)
    (w w' : World) : Prop :=
  relaunched P sessionId w w'
  ∧ restartAttempts w' = restartAttempts w
  ∧ (∀ pid, (∀ e, P e -> launchGives pid e) ->
            signals w' = signals (killBrowserProcess client w)).

(** Session D is ACTIVE with browser pid 4242 and was restarted once, at
    time 0. *)
Definition crashedWorld : World :=
  set_restartAttempts (insert "D" (mkAttempts 1 0 0)) reusedPidWorld.

(** Answers of a quiet world, forty seconds on. *)
Definition laterExt : Ext :=
  mkExt 40000 true (LaunchOk 1) true "" true false true (fun p => Some p) true
        (fun _ => false).


(* ================================================================== *)
(** ** Session restoration: [restoreSessions] (lines 162-183) *)
(* ================================================================== *)

(** What the file system answers to [restoreSessions] and
    [flushSessions]: whether [mkdirSync] goes through, and the entries
    [readdir] lists, [None] when it fails. *)
Record Listing : Type := mkListing {
  mkdirOk : bool;
  readdir : option (list string)
}.

(** The loop of lines 170-178, from one [await setupSession] to the
    next: entries that are no session folders are passed over in the
    same segment. *)
Fixpoint restore_loop (cfg : Config) (files : list string) (e : Ext) (w : World)
  : seg Completion :=
  match files with
  | [] => (w, Done (Resolved VUndefined))
  | file :: rest =>
      match session_of_file file with
      | Some sessionId =>
          call_await (setupSession_call cfg sessionId e w)
            (fun _ => restore_loop cfg rest)
      | None => restore_loop cfg rest e w
      end
  end.

(** The callback of [fs.readdir]: with no listing, [files] is undefined
    and the loop throws at once. *)
Definition restore_callback (cfg : Config) (l : Listing) (e : Ext) (w : World)
  : seg Completion :=
  match readdir l with
  | Some files => restore_loop cfg files e w
  | None => (w, Done (Rejected "files is not iterable"))
  end.

(** The call: the session folder is created when it is missing; when
    that throws, the error is logged and nothing is read. *)
Definition restoreSessions (cfg : Config) (l : Listing) (w : World) : seg Completion :=
  match fs w !! sessionFolderPath cfg with
  | Some _ => (w, Susp (restore_callback cfg l))
  | None =>
      if mkdirOk l
      then (set_fs (insert (sessionFolderPath cfg) Directory) w,
            Susp (restore_callback cfg l))
      else (w, Done (Resolved VUndefined))
  end.

(** The session ids a listing names, in its order. *)
Definition listed (files : list string) : list string := omap session_of_file files.

(** What [restoreSessions] leaves of the tables, from [w]. *)
Definition restore_post (P : Ext -> Prop) (files : list string) (w w' : World) : Prop :=
  pendingSessions w' = pendingSessions w
  ∧ sessionLocks w' = sessionLocks w
  ∧ restartAttempts w' = restartAttempts w
  ∧ sessions w ⊆ sessions w'
  ∧ (∀ k, k ∉ listed files -> sessions w' !! k = sessions w !! k)
  ∧ ((∀ e, P e -> launchSucceeds e) ->
     ∀ k, k ∈ listed files -> k ∉ pendingSessions w -> is_Some (sessions w' !! k)).

(** The module just loaded, the session folder on disk. *)
Definition restartedWorld : World :=
  set_fs (insert "/sessions" Directory) emptyWorld.


(* ================================================================== *)
(** ** Session flush: [flushSessions] (lines 729-756) *)
(* ================================================================== *)

(** Lines 144-154, after [client.getState()] settled. *)
Definition validate_getState (p : Probe) : Validation :=
  match getState p with
  | StateThrows err => mkValidation false None err
  | StateNull => mkValidation false None "session_not_connected"
  | StateIs st =>
      if String.eqb st "CONNECTED"
      then mkValidation true (Some st) "session_connected"
      else mkValidation false (Some st) "session_not_connected"
  end.

(** The loop of lines 126-142 with its [await]: an attempt on an open
    page suspends on the race; [retries] is [2 - maxRetry]. *)
Fixpoint validate_attempts (retries maxRetry : nat) (p : Probe) (w : World)
  : seg Validation :=
  match isClosed (attempt p maxRetry) with
  | PageClosed => (w, Done (mkValidation false None "browser tab closed"))
  | PageThrows =>
      match retries with
      | O => (w, Done (mkValidation false None "session closed"))
      | S n => validate_attempts n (S maxRetry) p w
      end
  | PageOpen =>
      (w, Susp (fun _ w =>
         match race (attempt p maxRetry) with
         | Evaluated | TimedOut =>
             (w, Susp (fun _ w => (w, Done (validate_getState p))))
         | EvaluateRejected =>
             match retries with
             | O => (w, Done (mkValidation false None "session closed"))
             | S n => validate_attempts n (S maxRetry) p w
             end
         end))
  end.

(** A call of [validateSession]: up to the [await] of
    [waitForNestedObject], on the client registered at the call. *)
Definition validateSession_call (p : Probe) (sessionId : string) (w : World)
  : seg Validation :=
  match sessions w !! sessionId with
  | None => (w, Done (mkValidation false None "session_not_found"))
  | Some _ => (w, Susp (fun _ w => validate_attempts 2 0 p w))
  end.

(** The loop of lines 735-749; [probes] is what the worker of each
    session answers to its validation. *)
Fixpoint flush_loop (cfg : Config) (probes : string -> Probe) (deleteOnlyInactive : bool)
    (files : list string) (e : Ext) (w : World) : seg Completion :=
  match files with
  | [] => (w, Done (Resolved VUndefined))
  | file :: rest =>
      match session_of_file file with
      | None => flush_loop cfg probes deleteOnlyInactive rest e w
      | Some sessionId =>
          call_await (validateSession_call (probes sessionId) sessionId w)
            (fun validation e w =>
               if (negb deleteOnlyInactive || negb (success validation))%bool then
                 call_await (resume e w (deleteSession cfg sessionId (Some validation)))
                   (fun r e w =>
                      match r with
                      | Rejected err => (w, Done (Rejected err))
                      | Resolved _ => flush_loop cfg probes deleteOnlyInactive rest e w
                      end)
               else flush_loop cfg probes deleteOnlyInactive rest e w)
      end
  end.

(** The call: up to [await fs.promises.readdir]; its rejection is
    logged and rethrown. *)
Definition flushSessions (cfg : Config) (probes : string -> Probe)
    (deleteOnlyInactive : bool) (l : Listing) : task Completion :=
  Susp (fun e w =>
    match readdir l with
    | Some files => flush_loop cfg probes deleteOnlyInactive files e w
    | None => (w, Done (Rejected (errorMessage e)))
    end).

(** The registry entry, the reservation and the restart record of [k]
    are the same in two worlds. *)
Definition untouched (k : string) (w w' : World) : Prop :=
  sessions w' !! k = sessions w !! k
  ∧ (k ∈ pendingSessions w' <-> k ∈ pendingSessions w)
  ∧ restartAttempts w' !! k = restartAttempts w !! k.

(** [validateSession] reports the session [k] connected. *)
Definition reportsConnected (probes : string -> Probe) (k : string) (w : World) : Prop :=
  ∃ v, validateSession w k (probes k) = Some v ∧ success v = true.

(** What [flushSessions] leaves of the tables, from [w], and how it
    settles. *)
Definition flush_post (probes : string -> Probe) (deleteOnlyInactive : bool)
    (files : list string) (w w' : World) (r : Completion) : Prop :=
  sessionLocks w' = sessionLocks w
  ∧ sessions w' ⊆ sessions w
  ∧ pendingSessions w' ⊆ pendingSessions w
  ∧ (∀ k, k ∉ listed files -> untouched k w w')
  ∧ (deleteOnlyInactive = true -> ∀ k, reportsConnected probes k w -> untouched k w w')
  ∧ (r = Resolved VUndefined ∨ ∃ err, r = Rejected err)
  ∧ (r = Resolved VUndefined ->
     ∀ k, k ∈ listed files ->
          deleteOnlyInactive = false ∨ ¬ reportsConnected probes k w ->
          sessions w' !! k = None ∧ k ∉ pendingSessions w').


(* ================================================================== *)
(** ** Operations on different keys *)
(* ================================================================== *)

(** The key an operation is about. *)
Definition op_key (op : Op) : string :=
  match op with
  | OpSetup k | OpReload k | OpDestroy k | OpDelete k _ | OpRestart k _ | OpReady k => k
  end.

(** The relations the operations on the key [k] are checked against:
    what a relation must allow so that every update these operations
    make to the tables is allowed, each of them an update at [k]; the
    file system and the processes may change in any way. *)
Class KeyStep (k : string) (T : World -> World -> Prop) : Prop := {
  key_refl : ∀ w, T w w;
  key_trans : ∀ w1 w2 w3, T w1 w2 -> T w2 w3 -> T w1 w3;
  key_fs : ∀ w w' f, T w w' -> T w (set_fs f w');
  key_procs : ∀ w w' f, T w w' -> T w (set_procs f w');
  key_signals : ∀ w w' f, T w w' -> T w (set_signals f w');
  key_restart_alter :
    ∀ w w' f, T w w' -> T w (set_restartAttempts (partial_alter f k) w');
  key_restart_delete : ∀ w w', T w w' -> T w (set_restartAttempts (delete k) w');
  key_lock_insert : ∀ w w', T w w' -> T w (set_sessionLocks (insert k true) w');
  key_lock_delete : ∀ w w', T w w' -> T w (set_sessionLocks (delete k) w');
  key_pending_add :
    ∀ w w', T w w' -> T w (set_pendingSessions (fun s => {[k]} ∪ s) w');
  key_pending_delete :
    ∀ w w', T w w' -> T w (set_pendingSessions (fun s => s ∖ {[k]}) w');
  key_sessions_insert : ∀ w w' c, T w w' -> T w (set_sessions (insert k c) w');
  key_sessions_delete : ∀ w w', T w w' -> T w (set_sessions (delete k) w')
}.

(** The registry entry, the reservation, the lock and the restart
    record of [j] are the same in two worlds. *)
Definition isolated (j : string) (w w' : World) : Prop :=
  sessions w' !! j = sessions w !! j
  ∧ (j ∈ pendingSessions w' <-> j ∈ pendingSessions w)
  ∧ sessionLocks w' !! j = sessionLocks w !! j
  ∧ restartAttempts w' !! j = restartAttempts w !! j.

(** The steps of a system in which no operation on [j] is started. *)
Inductive step_beside (cfg : Config) (j : string) : System -> System -> Prop :=
| beside_resume (s s' : System) :
    resume_step (fun _ => True) s s' -> step_beside cfg j s s'
| beside_invoke (s : System) (op : Op) :
    arrives cfg op -> op_key op ≠ j ->
    step_beside cfg j s (mkSystem (world s) (pool s ++ [invoke cfg op])).

(** Sample systems: session D registered and restarted once, nothing in
    flight; and the same with one [setupSession "C"] called and run up to
    its first [await]. *)
Definition crashedSystem : System := mkSystem crashedWorld [].

Definition crashedSystemBusy : System :=
  mkSystem (resume quietExt crashedWorld (setupSession posixConfig "C")).1
           (<[0%nat := (resume quietExt crashedWorld (setupSession posixConfig "C")).2]>
              ([] ++ [invoke posixConfig (OpSetup "C")])%list).


(* ================================================================== *)
(** ** The session lock as a mutex *)
(* ================================================================== *)

(** What one segment may do to [sessionLocks], for an operation that
    holds the lock [o] before and [o'] after: nothing, take a lock that
    is free, or give back the lock it holds. *)
Inductive lock_move (o o' : option string) (w w' : World) : Prop :=
| move_keep :
    o' = o -> sessionLocks w' = sessionLocks w -> lock_move o o' w w'
| move_acquire (k : string) :
    o = None -> o' = Some k -> lockHeld k w = false ->
    sessionLocks w' = <[k := true]> (sessionLocks w) -> lock_move o o' w w'
| move_release (k : string) :
    o = Some k -> o' = None ->
    sessionLocks w' = delete k (sessionLocks w) -> lock_move o o' w w'.

(** [locking o t]: [t] holds the session lock [o] (none for [None]);
    every segment it runs is one of the three moves above, a waiting
    loop going on only when its condition has become false; and it
    cannot settle while it holds a lock. *)
Fixpoint locking {R} (o : option string) (t : task R) {struct t} : Prop :=
  match t with
  | Done _ => o = None
  | Susp g =>
      ∀ e w, ∃ o', lock_move o o' w (g e w).1 ∧ locking o' (g e w).2
  | Poll busy g =>
      ∀ e w, busy w = false -> ∃ o', lock_move o o' w (g e w).1 ∧ locking o' (g e w).2
  end.

(** [os] names, for every operation in flight, the session lock it
    holds: the locks in the table are those held, every one of them by
    one operation only. *)
Definition lock_table (os : list (option string)) (s : System) : Prop :=
  Forall2 locking os (pool s)
  ∧ (∀ k, is_Some (sessionLocks (world s) !! k) <-> Some k ∈ os)
  ∧ (∀ i j k, os !! i = Some (Some k) -> os !! j = Some (Some k) -> i = j)
  ∧ (∀ k b, sessionLocks (world s) !! k = Some b -> b = true).

(** A sample system: [destroySession "C"] called on the module as
    loaded and run up to the [await] of the lock. *)
Definition oneDestroySystem : System :=
  mkSystem (resume quietExt emptyWorld (destroySession posixConfig "C")).1
           (<[0%nat := (resume quietExt emptyWorld (destroySession posixConfig "C")).2]>
              ([] ++ [invoke posixConfig (OpDestroy "C")])%list).


(* ================================================================== *)
(** ** A teardown between two setups *)
(* ================================================================== *)

(** Answers of a quiet world in which the launch gives the browser
    [pid]. *)
Definition launchExt (pid : Z) : Ext :=
  mkExt 0 true (LaunchOk pid) true "" true false true (fun p => Some p) true
        (fun _ => false).

(** Two calls of [setupSession] on one key and a [destroySession] on it,
    none of them run yet. *)
Definition setupDestroySetup (cfg : Config) (sessionId : string) : list (task Completion) :=
  [setupSession cfg sessionId; destroySession cfg sessionId; setupSession cfg sessionId].

(** One operation of the pool resumed on each answer in turn. *)
Definition alone (i : nat) (es : list Ext) : list (nat * Ext) :=
  (fun e => (i, e)) <$> es.

(** The first setup runs up to its launch; the teardown runs to its
    end; the second setup runs up to its launch; the two launches come
    back, with the browsers [p1] and [p2]. *)
Definition teardownBetween (cfg : Config) (p1 p2 : Z) : list (nat * Ext) :=
  (alone 0 (replicate (if releaseBrowserLock cfg then 2 else 1) (launchExt p1))
   ++ alone 1 (replicate 7 (launchExt p1))
   ++ alone 2 (replicate (if releaseBrowserLock cfg then 2 else 1) (launchExt p2))
   ++ [(0%nat, launchExt p1); (2%nat, launchExt p2)])%list.

(* ------------------------------------------------------------------ *)
(** Sample runs against the claims as the specification words them. *)




(* ================================================================== *)
(** * Theorems *)
(* ================================================================== *)

(** ** RestartPolicy *)

Lemma set_restartAttempts_id (f : gmap string Attempts -> gmap string Attempts) (w : World) :
  f (restartAttempts w) = restartAttempts w -> set_restartAttempts f w = w.
Proof. destruct w as [s p l r f0 pr sg]; unfold set_restartAttempts; simpl; intros ->; reflexivity. Qed.

Lemma canRestart_world (sessionId : string) (now : Z) (w : World) :
  canRestart sessionId now w =
  ((canAttempt_rules (restartAttempts w !! sessionId) now).1,
   set_restartAttempts
     (partial_alter (fun o => (canAttempt_rules o now).2) sessionId) w).
Proof.
  unfold canRestart, canAttempt_rules, MAX_RESTART_ATTEMPTS, RESTART_COOLDOWN_MS,
    RESTART_RESET_MS.
  destruct (restartAttempts w !! sessionId) as [a|] eqn:Hrec.
  - assert (Hkeep : partial_alter (fun _ : option Attempts => Some a) sessionId
                      (restartAttempts w) = restartAttempts w).
    { apply map_eq; intros j. destruct (decide (sessionId = j)) as [->|Hne].
      - rewrite lookup_partial_alter_eq; congruence.
      - rewrite lookup_partial_alter_ne; auto. }
    destruct (Z.gtb_spec (now - firstAttempt a) 120000) as [Hw|Hw].
    + rewrite bool_decide_eq_true_2 by lia. simpl. f_equal.
      unfold set_restartAttempts; f_equal.
      apply partial_alter_ext; intros x Hx. rewrite Hrec in Hx; subst x.
      rewrite bool_decide_eq_true_2 by lia; reflexivity.
    + rewrite bool_decide_eq_false_2 by lia.
      destruct (count a >=? 3) eqn:Hc.
      * rewrite bool_decide_eq_true_2 by lia. simpl. f_equal.
        symmetry; apply set_restartAttempts_id. rewrite <- Hkeep at 2.
        apply partial_alter_ext; intros x Hx. rewrite Hrec in Hx; subst x.
        rewrite bool_decide_eq_false_2 by lia.
        rewrite bool_decide_eq_true_2 by lia; reflexivity.
      * rewrite (bool_decide_eq_false_2 (count a >= 3)) by lia.
        destruct (Z.ltb_spec (now - lastAttempt a) 30000) as [Hl|Hl].
        -- rewrite bool_decide_eq_true_2 by lia. simpl. f_equal.
           symmetry; apply set_restartAttempts_id. rewrite <- Hkeep at 2.
           apply partial_alter_ext; intros x Hx. rewrite Hrec in Hx; subst x.
           rewrite bool_decide_eq_false_2 by lia.
           rewrite (bool_decide_eq_false_2 (count a >= 3)) by lia.
           rewrite bool_decide_eq_true_2 by lia; reflexivity.
        -- rewrite bool_decide_eq_false_2 by lia. simpl. f_equal.
           unfold set_restartAttempts; f_equal.
           apply partial_alter_ext; intros x Hx. rewrite Hrec in Hx; subst x.
           rewrite bool_decide_eq_false_2 by lia.
           rewrite (bool_decide_eq_false_2 (count a >= 3)) by lia.
           rewrite bool_decide_eq_false_2 by lia; reflexivity.
  - simpl. f_equal. unfold set_restartAttempts; f_equal.
    apply partial_alter_ext; intros x Hx. rewrite Hrec in Hx; subst x. reflexivity.
Qed.

Lemma canRestart_record (sessionId : string) (now : Z) (w : World) :
  restartAttempts (canRestart sessionId now w).2 !! sessionId =
  (canAttempt_rules (restartAttempts w !! sessionId) now).2.
Proof.
  rewrite canRestart_world. simpl. rewrite lookup_partial_alter_eq. reflexivity.
Qed.

Lemma restartTrace_cons (sessionId : string) (now : Z) (rest : list Z) (w : World) :
  restartTrace sessionId (now :: rest) w =
  ((canAttempt_rules (restartAttempts w !! sessionId) now).1,
   count <$> (canAttempt_rules (restartAttempts w !! sessionId) now).2)
  :: restartTrace sessionId rest (canRestart sessionId now w).2.
Proof.
  simpl. pose proof (canRestart_record sessionId now w) as Hrec.
  destruct (canRestart sessionId now w) as [ok w'] eqn:Hc.
  rewrite canRestart_world in Hc. injection Hc as Hok Hw. simpl in Hrec.
  rewrite Hrec, Hok. reflexivity.
Qed.

(** C2.  [canRestart] is the four-rule decision of the specification on
    the key's record and leaves every other key and table alone; and from
    a key without record the attempts at 0 s, 10 s, 40 s, 70 s, 100 s and
    130 s (after any start time) are allowed with count 1, denied, allowed
    with count 2, allowed with count 3, denied, allowed with count 1. *)
Theorem canRestart_four_rules :
  (∀ (sessionId : string) (now : Z) (w : World),
     canRestart sessionId now w =
     ((canAttempt_rules (restartAttempts w !! sessionId) now).1,
      set_restartAttempts
        (partial_alter (fun o => (canAttempt_rules o now).2) sessionId) w))
  ∧ (∀ (sessionId : string) (t0 : Z) (w : World),
       restartTrace sessionId
         [t0; t0 + 10000; t0 + 40000; t0 + 70000; t0 + 100000; t0 + 130000]
         (set_restartAttempts (delete sessionId) w)
       = [(true, Some 1); (false, Some 1); (true, Some 2); (true, Some 3);
          (false, Some 3); (true, Some 1)]).
Proof.
  split; [exact canRestart_world|].
  intros k t0 w.
  rewrite !restartTrace_cons, !canRestart_record.
  simpl restartTrace. simpl restartAttempts. rewrite lookup_delete_eq.
  unfold canAttempt_rules. simpl.
  repeat (first [ rewrite bool_decide_eq_true_2 by (simpl; lia)
                | rewrite bool_decide_eq_false_2 by (simpl; lia) ]; simpl).
  reflexivity.
Qed.

(** ** LivenessProbe *)

Lemma throws_cases (a : Attempt) :
  throws a = true ->
  isClosed a = PageThrows ∨ (isClosed a = PageOpen ∧ race a = EvaluateRejected).
Proof. destruct a as [[] []]; simpl; intros H; try discriminate H; auto. Qed.

Lemma breaks_cases (a : Attempt) :
  breaks a = true ->
  isClosed a = PageOpen ∧ (race a = Evaluated ∨ race a = TimedOut).
Proof. destruct a as [[] []]; simpl; intros H; try discriminate H; auto. Qed.

Lemma evaluable_loop_throws (fuel m : nat) (p : Probe) :
  throws (attempt p m) = true ->
  evaluable_loop (S fuel) m p =
  if (m =? 2)%nat then Some (Some (mkValidation false None "session closed"))
  else evaluable_loop fuel (S m) p.
Proof.
  intros H. simpl. destruct (throws_cases _ H) as [-> | [-> ->]]; reflexivity.
Qed.

Lemma evaluable_loop_breaks (fuel m : nat) (p : Probe) :
  breaks (attempt p m) = true -> evaluable_loop (S fuel) m p = Some None.
Proof.
  intros H. simpl. destruct (breaks_cases _ H) as [-> [-> | ->]]; reflexivity.
Qed.

Lemma evaluable_loop_closed (fuel m : nat) (p : Probe) :
  isClosed (attempt p m) = PageClosed ->
  evaluable_loop (S fuel) m p = Some (Some (mkValidation false None "browser tab closed")).
Proof. intros H. simpl. rewrite H. reflexivity. Qed.

Lemma attempt_cases (a : Attempt) :
  isClosed a = PageClosed ∨ throws a = true ∨ breaks a = true.
Proof. destruct a as [[] []]; simpl; auto. Qed.

(** The loop started as the source starts it always settles. *)
Lemma evaluable_loop_total (p : Probe) : ∃ r, evaluable_loop 3 0 p = Some r.
Proof.
  destruct (attempt_cases (attempt p 0%nat)) as [H0 | [H0 | H0]];
    [rewrite (evaluable_loop_closed _ _ _ H0); eauto
    | rewrite (evaluable_loop_throws _ _ _ H0)
    | rewrite (evaluable_loop_breaks _ _ _ H0); eauto ].
  simpl Nat.eqb. cbv iota.
  destruct (attempt_cases (attempt p 1%nat)) as [H1 | [H1 | H1]];
    [rewrite (evaluable_loop_closed _ _ _ H1); eauto
    | rewrite (evaluable_loop_throws _ _ _ H1)
    | rewrite (evaluable_loop_breaks _ _ _ H1); eauto ].
  simpl Nat.eqb. cbv iota.
  destruct (attempt_cases (attempt p 2%nat)) as [H2 | [H2 | H2]];
    [rewrite (evaluable_loop_closed _ _ _ H2); eauto
    | rewrite (evaluable_loop_throws _ _ _ H2)
    | rewrite (evaluable_loop_breaks _ _ _ H2); eauto ].
  simpl. eauto.
Qed.

Lemma evaluable_loop_skip (p : Probe) (i : nat) :
  (i < 3)%nat ->
  (∀ j, (j < i)%nat -> throws (attempt p j) = true) ->
  evaluable_loop 3 0 p = evaluable_loop (3 - i) i p.
Proof.
  intros Hi Hthrows.
  destruct i as [|[|[|i]]]; [reflexivity | | | lia].
  - rewrite (evaluable_loop_throws 2 0) by (apply Hthrows; lia). reflexivity.
  - rewrite (evaluable_loop_throws 2 0) by (apply Hthrows; lia). simpl Nat.eqb. cbv iota.
    rewrite (evaluable_loop_throws 1 1) by (apply Hthrows; lia). reflexivity.
Qed.

Lemma evaluable_loop_all_throw (p : Probe) :
  (∀ j, (j < 3)%nat -> throws (attempt p j) = true) ->
  evaluable_loop 3 0 p = Some (Some (mkValidation false None "session closed")).
Proof.
  intros Hthrows.
  rewrite (evaluable_loop_skip p 2) by (intros; try apply Hthrows; lia).
  rewrite (evaluable_loop_throws 0 2) by (apply Hthrows; lia). reflexivity.
Qed.

Lemma string_eqb_CONNECTED (st : string) :
  String.eqb st "CONNECTED" = true <-> StateIs st = StateIs "CONNECTED".
Proof.
  rewrite String.eqb_eq. split; [intros ->; reflexivity | intros [= ->]; reflexivity].
Qed.

(** C7, as the code has it.  On a registered key the probe always
    answers, and: an attempt that finds the page closed (after attempts
    that threw) answers not connected, "browser tab closed"; three
    attempts that throw answer not connected, "session closed"; an
    attempt whose round trip resolves or only runs into the 1000 ms timer
    leaves the loop, and the answer is connected exactly when
    [getState()] gives CONNECTED. *)
Theorem validateSession_probe (w : World) (sessionId : string) (p : Probe)
    (Hregistered : is_Some (sessions w !! sessionId)) :
  ∃ v, validateSession w sessionId p = Some v
    ∧ (∀ i, (i < 3)%nat ->
         (∀ j, (j < i)%nat -> throws (attempt p j) = true) ->
         isClosed (attempt p i) = PageClosed ->
         v = mkValidation false None "browser tab closed")
    ∧ ((∀ j, (j < 3)%nat -> throws (attempt p j) = true) ->
         v = mkValidation false None "session closed")
    ∧ (∀ i, (i < 3)%nat ->
         (∀ j, (j < i)%nat -> throws (attempt p j) = true) ->
         breaks (attempt p i) = true ->
         (success v = true <-> getState p = StateIs "CONNECTED")
         ∧ (success v = true -> message v = "session_connected")
         ∧ (∀ st, getState p = StateIs st -> state v = Some st)).
Proof.
  destruct Hregistered as [client Hclient].
  unfold validateSession. rewrite Hclient.
  destruct (evaluable_loop_total p) as [r Hr].
  assert (Hclosed : ∀ i, (i < 3)%nat ->
            (∀ j, (j < i)%nat -> throws (attempt p j) = true) ->
            isClosed (attempt p i) = PageClosed ->
            r = Some (mkValidation false None "browser tab closed")).
  { intros i Hi Hthrows Hc. rewrite (evaluable_loop_skip p i Hi Hthrows) in Hr.
    destruct (3 - i)%nat as [|fuel] eqn:Hfuel; [lia|].
    rewrite (evaluable_loop_closed _ _ _ Hc) in Hr. congruence. }
  assert (Hall : (∀ j, (j < 3)%nat -> throws (attempt p j) = true) ->
            r = Some (mkValidation false None "session closed")).
  { intros Hthrows. rewrite (evaluable_loop_all_throw p Hthrows) in Hr. congruence. }
  assert (Hbreak : ∀ i, (i < 3)%nat ->
            (∀ j, (j < i)%nat -> throws (attempt p j) = true) ->
            breaks (attempt p i) = true -> r = None).
  { intros i Hi Hthrows Hb. rewrite (evaluable_loop_skip p i Hi Hthrows) in Hr.
    destruct (3 - i)%nat as [|fuel] eqn:Hfuel; [lia|].
    rewrite (evaluable_loop_breaks _ _ _ Hb) in Hr. congruence. }
  rewrite Hr. destruct r as [v|].
  - exists v. split; [reflexivity|]. split; [|split].
    + intros i Hi Hthrows Hc. specialize (Hclosed i Hi Hthrows Hc). congruence.
    + intros Hthrows. specialize (Hall Hthrows). congruence.
    + intros i Hi Hthrows Hb. specialize (Hbreak i Hi Hthrows Hb). discriminate.
  - destruct (getState p) as [st | | err] eqn:Hst.
    + destruct (String.eqb st "CONNECTED") eqn:Heq.
      * eexists; split; [reflexivity|]. split; [|split].
        -- intros i Hi Hthrows Hc. specialize (Hclosed i Hi Hthrows Hc). discriminate.
        -- intros Hthrows. specialize (Hall Hthrows). discriminate.
        -- intros _ _ _ _. simpl. rewrite <- string_eqb_CONNECTED.
           repeat split; auto. intros st' [= ->]; reflexivity.
      * eexists; split; [reflexivity|]. split; [|split].
        -- intros i Hi Hthrows Hc. specialize (Hclosed i Hi Hthrows Hc). discriminate.
        -- intros Hthrows. specialize (Hall Hthrows). discriminate.
        -- intros _ _ _ _. simpl. rewrite <- string_eqb_CONNECTED, Heq.
           repeat split; try discriminate. intros st' [= ->]; reflexivity.
    + eexists; split; [reflexivity|]. split; [|split].
      * intros i Hi Hthrows Hc. specialize (Hclosed i Hi Hthrows Hc). discriminate.
      * intros Hthrows. specialize (Hall Hthrows). discriminate.
      * intros _ _ _ _. simpl. repeat split; try discriminate.
    + eexists; split; [reflexivity|]. split; [|split].
      * intros i Hi Hthrows Hc. specialize (Hclosed i Hi Hthrows Hc). discriminate.
      * intros Hthrows. specialize (Hall Hthrows). discriminate.
      * intros _ _ _ _. simpl. repeat split; try discriminate.
Qed.

Lemma validateSession_probe_witness :
  is_Some (sessions reusedPidWorld !! "D")
  ∧ ∃ v, validateSession reusedPidWorld "D" silentProbe = Some v
       ∧ (success v = true <-> getState silentProbe = StateIs "CONNECTED").
Proof.
  assert (H : is_Some (sessions reusedPidWorld !! "D")).
  { exists (mkClient (Some 4242)). vm_compute. reflexivity. }
  split; [exact H|].
  destruct (validateSession_probe reusedPidWorld "D" silentProbe H)
    as [v [Hv [_ [_ Hbreak]]]].
  exists v. split; [exact Hv|].
  apply (Hbreak 0%nat); [lia | intros j Hj; lia | reflexivity].
Defined.

(** C7 as stated fails: the page of session D is open and each of the
    three round trips runs into the timer, yet the probe answers
    connected, not "unresponsive". *)
Lemma validateSession_unresponsive_counterexample :
  is_Some (sessions reusedPidWorld !! "D")
  ∧ isClosed (attempt silentProbe 0) = PageOpen
  ∧ race (attempt silentProbe 0) = TimedOut
  ∧ race (attempt silentProbe 1) = TimedOut
  ∧ race (attempt silentProbe 2) = TimedOut
  ∧ validateSession reusedPidWorld "D" silentProbe
    = Some (mkValidation true (Some "CONNECTED") "session_connected")
  ∧ ¬ (∃ v, validateSession reusedPidWorld "D" silentProbe = Some v
          ∧ success v = false ∧ message v = "unresponsive").
Proof.
  assert (Hv : validateSession reusedPidWorld "D" silentProbe
               = Some (mkValidation true (Some "CONNECTED") "session_connected"))
    by (vm_compute; reflexivity).
  repeat split; try exact Hv.
  - exists (mkClient (Some 4242)). vm_compute. reflexivity.
  - intros [v [Hv' [Hs _]]]. rewrite Hv in Hv'. injection Hv' as <-. discriminate Hs.
Qed.

(** ** Folder removal *)







Lemma run_Done {R} (es : list Ext) (w : World) (r : R) : run es w (Done r) = Some (w, r).
Proof. destruct es; reflexivity. Qed.

Lemma run_Susp {R} (e : Ext) (es : list Ext) (w : World)
    (k : Ext -> World -> seg R) :
  run (e :: es) w (Susp k) = run es (k e w).1 (k e w).2.
Proof. simpl. destruct (k e w); reflexivity. Qed.


Lemma filter_keeps_or_removes (cfg : Config) (dir : string) (keep : string -> bool)
    (m : gmap string Node) (p : string) :
  let m' := filter (fun kv : string * Node => under cfg dir kv.1 = false ∨ keep kv.1 = true) m in
  m' !! p = m !! p ∨ (m' !! p = None ∧ under cfg dir p = true).
Proof.
  simpl. destruct (m !! p) as [node|] eqn:Hp.
  - destruct (under cfg dir p) eqn:Hu.
    + destruct (keep p) eqn:Hk.
      * left. apply map_lookup_filter_Some. split; [exact Hp | right; exact Hk].
      * right. split; [|reflexivity]. apply map_lookup_filter_None. right.
        intros x Hx [H | H]; simpl in H; congruence.
    + left. apply map_lookup_filter_Some. split; [exact Hp | left; exact Hu].
  - left. apply map_lookup_filter_None. left. exact Hp.
Qed.

Lemma filter_removes (cfg : Config) (dir : string) (m : gmap string Node) (p : string) :
  let m' := filter (fun kv : string * Node => under cfg dir kv.1 = false) m in
  (m' !! p = m !! p ∨ (m' !! p = None ∧ under cfg dir p = true))
  ∧ (under cfg dir p = true -> m' !! p = None).
Proof.
  simpl. split.
  - destruct (m !! p) as [node|] eqn:Hp.
    + destruct (under cfg dir p) eqn:Hu.
      * right. split; [|reflexivity]. apply map_lookup_filter_None. right.
        intros x Hx H; simpl in H; congruence.
      * left. apply map_lookup_filter_Some. split; [exact Hp | exact Hu].
    + left. apply map_lookup_filter_None. left. exact Hp.
  - intros Hu. apply map_lookup_filter_None. right.
    intros x Hx H; simpl in H; congruence.
Qed.




(** ** Orphan reaper *)

(** C1, the code at the failing input.  Session D is ACTIVE and owns
    pid 4242; session C has no registry entry, and its stale lock names
    4242.  [destroySession "C"] runs the orphan reaper, which sends
    SIGKILL to 4242: none of the three ownership checks is made. *)
Theorem orphan_reaper_kills_active_pid :
  activeProcessIds reusedPidWorld 4242
  ∧ sessions reusedPidWorld !! "C" = None
  ∧ procs reusedPidWorld !! 4242 = Some "D"
  ∧ match run (replicate 8 quietExt) reusedPidWorld (destroySession posixConfig "C") with
    | Some (w', r) =>
        r = Resolved VUndefined
        ∧ signals w' = [4242]
        ∧ procs w' !! 4242 = None
        ∧ sessions w' !! "D" = Some (mkClient (Some 4242))
    | None => False
    end.
Proof.
  split; [|split; [|split]].
  - exists "D", (mkClient (Some 4242)). split; vm_compute; reflexivity.
  - vm_compute; reflexivity.
  - vm_compute; reflexivity.
  - vm_compute. repeat split.
Qed.

(** ** Teardown of an absent key *)

Lemma pending_delete_absent (sessionId : string) (s : gset string) :
  sessionId ∉ s -> s ∖ {[sessionId]} = s.
Proof.
  intros Hnot. apply set_eq; intros x. rewrite elem_of_difference, elem_of_singleton.
  split; [tauto|]. intros Hx; split; [exact Hx|]. intros ->; contradiction.
Qed.

Lemma destroySession_absent_once (cfg : Config) (sessionId : string) (w : World)
    (e1 e2 e3 e4 : Ext) (es : list Ext) :
  isAbsent sessionId w ->
  fs w !! singletonLockPath cfg sessionId = None ->
  sessionLocks w !! sessionId = None ->
  run (e1 :: e2 :: e3 :: e4 :: es) w (destroySession cfg sessionId)
  = Some (w, Resolved VUndefined).
Proof.
  intros [Hsess Hpend] Hlock Hfree.
  unfold destroySession, acquireSessionLock, finally_seg, destroy_body, call_await,
    killOrphanedBrowserByLockFile, orphan_after_lstat, lockHeld.
  simpl. rewrite Hfree. simpl. rewrite Hsess. simpl. rewrite Hlock. simpl.
  rewrite run_Done. f_equal. f_equal.
  unfold releaseSessionLock, set_sessionLocks, set_pendingSessions. destruct w; simpl in *.
  rewrite delete_insert_eq, (delete_id _ _ Hfree), (pending_delete_absent _ _ Hpend).
  reflexivity.
Qed.

(** C8.  On a key that is ABSENT (no registry entry, no reservation, no
    lock artifact on disk) and whose session lock is free, as it is
    between calls made in sequence, [destroySession] called twice settles
    both times without error and leaves the whole world (the four tables,
    the file system, the processes) as it was. *)
Theorem destroySession_absent_twice (cfg : Config) (sessionId : string) (w : World)
    (e1 e2 e3 e4 : Ext) (es : list Ext) (e1' e2' e3' e4' : Ext) (es' : list Ext) :
  isAbsent sessionId w ->
  fs w !! singletonLockPath cfg sessionId = None ->
  sessionLocks w !! sessionId = None ->
  run_twice (e1 :: e2 :: e3 :: e4 :: es) (e1' :: e2' :: e3' :: e4' :: es') w
            (destroySession cfg sessionId)
  = Some ((w, Resolved VUndefined), (w, Resolved VUndefined)).
Proof.
  intros Habsent Hlock Hfree. unfold run_twice.
  rewrite (destroySession_absent_once cfg sessionId w e1 e2 e3 e4 es Habsent Hlock Hfree).
  rewrite (destroySession_absent_once cfg sessionId w e1' e2' e3' e4' es' Habsent Hlock Hfree).
  reflexivity.
Qed.

Lemma destroySession_absent_twice_witness :
  isAbsent "C" emptyWorld
  ∧ fs emptyWorld !! singletonLockPath posixConfig "C" = None
  ∧ sessionLocks emptyWorld !! "C" = None
  ∧ run_twice (replicate 4 quietExt) (replicate 4 quietExt) emptyWorld
              (destroySession posixConfig "C")
    = Some ((emptyWorld, Resolved VUndefined), (emptyWorld, Resolved VUndefined)).
Proof.
  assert (Habsent : isAbsent "C" emptyWorld).
  { split; [reflexivity | apply not_elem_of_empty]. }
  assert (Hlock : fs emptyWorld !! singletonLockPath posixConfig "C" = None)
    by reflexivity.
  assert (Hfree : sessionLocks emptyWorld !! "C" = None) by reflexivity.
  split; [exact Habsent|]. split; [exact Hlock|]. split; [exact Hfree|].
  exact (destroySession_absent_twice posixConfig "C" emptyWorld
           quietExt quietExt quietExt quietExt [] quietExt quietExt quietExt quietExt []
           Habsent Hlock Hfree).
Defined.

(** ** Setup *)

Lemma conflict_messages_differ (sessionId : string) :
  "Session already exists for: " ++ sessionId
  ≠ "Session initialization already in progress for: " ++ sessionId.
Proof. intros H. cbv [append] in H. discriminate H. Qed.

(** C4.  The call of [setupSession] is one segment.  On an ACTIVE key it
    settles at once with the failure "Session already exists for: ...",
    on a PENDING key with "Session initialization already in progress
    for: ...", two different messages, and the world is untouched.  On
    any other key the same segment that tested both tables has added the
    key to [pendingSessions]: when the client can be built, nothing else
    has changed and the call is still running; when building it throws,
    the same segment has dropped the reservation again and the call has
    settled with that error. *)
Theorem setupSession_conflicts (cfg : Config) (sessionId : string) (e : Ext) (w : World) :
  (∀ client, sessions w !! sessionId = Some client ->
     resume e w (setupSession cfg sessionId)
     = (w, Done (Resolved (VSetup false ("Session already exists for: " ++ sessionId)
                                  (Some client)))))
  ∧ (sessions w !! sessionId = None -> sessionId ∈ pendingSessions w ->
     resume e w (setupSession cfg sessionId)
     = (w, Done (Resolved (VSetup false
                   ("Session initialization already in progress for: " ++ sessionId)
                   None))))
  ∧ "Session already exists for: " ++ sessionId
    ≠ "Session initialization already in progress for: " ++ sessionId
  ∧ (isAbsent sessionId w -> constructOk e = true ->
     (resume e w (setupSession cfg sessionId)).1
     = set_pendingSessions (fun s => {[sessionId]} ∪ s) w
     ∧ isPending sessionId (resume e w (setupSession cfg sessionId)).1
     ∧ ∀ r, (resume e w (setupSession cfg sessionId)).2 ≠ Done r)
  ∧ (isAbsent sessionId w -> constructOk e = false ->
     resume e w (setupSession cfg sessionId)
     = (set_pendingSessions (fun s => s ∖ {[sessionId]})
          (set_pendingSessions (fun s => {[sessionId]} ∪ s) w),
        Done (Resolved (VSetup false (errorMessage e) None)))
     ∧ isAbsent sessionId (resume e w (setupSession cfg sessionId)).1).
Proof.
  unfold setupSession, setupSession_call, isAbsent, isPending. cbn [resume].
  split; [|split; [|split; [|split]]].
  - intros client ->. reflexivity.
  - intros -> Hin. rewrite bool_decide_eq_true_2 by exact Hin. reflexivity.
  - apply conflict_messages_differ.
  - intros [-> Hnot] ->. rewrite bool_decide_eq_false_2 by exact Hnot.
    destruct (releaseBrowserLock cfg); cbn [fst snd]; (split; [reflexivity|]);
      (split; [simpl; apply elem_of_union_l, elem_of_singleton; reflexivity
              | intros r; discriminate]).
  - intros [Hsess Hnot] ->. rewrite Hsess.
    rewrite bool_decide_eq_false_2 by exact Hnot.
    split; [reflexivity|]. cbn [fst]. split; [exact Hsess|]. simpl.
    intros Hin. apply elem_of_difference in Hin as [_ Hin].
    apply Hin, elem_of_singleton. reflexivity.
Qed.

Lemma setupSession_conflicts_witness :
  sessions reusedPidWorld !! "D" = Some (mkClient (Some 4242))
  ∧ resume quietExt reusedPidWorld (setupSession posixConfig "D")
    = (reusedPidWorld,
       Done (Resolved (VSetup false "Session already exists for: D"
                              (Some (mkClient (Some 4242)))))).
Proof.
  assert (Hactive : sessions reusedPidWorld !! "D" = Some (mkClient (Some 4242)))
    by (vm_compute; reflexivity).
  split; [exact Hactive|].
  exact (proj1 (setupSession_conflicts posixConfig "D" quietExt reusedPidWorld)
           (mkClient (Some 4242)) Hactive).
Defined.

Lemma setup_after_initialize_fails (sessionId : string) (partial : option Z) (err : string)
    (e e' : Ext) (es : list Ext) (w : World) :
  launch e = LaunchFail partial err ->
  run (e :: e' :: es) w (Susp (setup_after_initialize sessionId))
  = Some (set_pendingSessions (fun s => s ∖ {[sessionId]})
            (killBrowserProcess (mkClient partial)
               (match partial with Some pid => spawn pid sessionId w | None => w end)),
          Resolved (VSetup false err None)).
Proof.
  intros Hl. cbn [run resume]. unfold setup_after_initialize. rewrite Hl.
  cbn [run resume]. apply run_Done.
Qed.

Lemma reaped_world (sessionId : string) (partial : option Z) (w : World) :
  let w' := set_pendingSessions (fun s => s ∖ {[sessionId]})
              (killBrowserProcess (mkClient partial)
                 (match partial with Some pid => spawn pid sessionId w | None => w end)) in
  sessions w' = sessions w
  ∧ pendingSessions w' = pendingSessions w ∖ {[sessionId]}
  ∧ sessionLocks w' = sessionLocks w
  ∧ restartAttempts w' = restartAttempts w
  ∧ ∀ pid, partial = Some pid -> procs w' !! pid = None ∧ signals w' = pid :: signals w.
Proof.
  destruct partial as [pid|]; simpl.
  - unfold killBrowserProcess, spawn. simpl. rewrite lookup_insert_eq. simpl.
    do 4 (split; [reflexivity|]). intros pid' [= <-].
    split; [apply lookup_delete_eq | reflexivity].
  - unfold killBrowserProcess. simpl. do 4 (split; [reflexivity|]). intros pid' [=].
Qed.

(** C5.  [setupSession] run alone on an ABSENT key, with answers under
    which it reaches the launch and the launch fails: it settles with the
    failure that carries the error message and no client; the key is
    ABSENT again, [sessions] and [pendingSessions] are as before the call;
    and the browser child the client shows, if any, has been sent SIGKILL
    and is gone. *)
Theorem setupSession_launch_failure (cfg : Config) (sessionId : string) (w : World)
    (partial : option Z) (err : string) (es : list Ext) :
  isAbsent sessionId w ->
  Forall (launchFails partial err) es ->
  (5 <= List.length es)%nat ->
  ∃ w', run es w (setupSession cfg sessionId)
        = Some (w', Resolved (VSetup false err None))
      ∧ isAbsent sessionId w'
      ∧ sessions w' = sessions w
      ∧ pendingSessions w' = pendingSessions w
      ∧ sessionLocks w' = sessionLocks w
      ∧ restartAttempts w' = restartAttempts w
      ∧ ∀ pid, partial = Some pid -> procs w' !! pid = None ∧ pid ∈ signals w'.
Proof.
  intros [Hsess Hpend] Hes Hlen.
  destruct es as [|e0 [|e1 [|e2 [|e3 [|e4 es]]]]]; simpl in Hlen; try lia.
  apply Forall_cons in Hes as [(_ & _ & Hc0) Hes].
  apply Forall_cons in Hes as [(Hl1 & Hu1 & _) Hes].
  apply Forall_cons in Hes as [(Hl2 & Hu2 & _) Hes].
  apply Forall_cons in Hes as [(Hl3 & Hu3 & _) Hes].
  assert (Hback : ∀ w0 : World,
            sessions w0 = sessions w ->
            pendingSessions w0 = {[sessionId]} ∪ pendingSessions w ->
            sessionLocks w0 = sessionLocks w ->
            restartAttempts w0 = restartAttempts w ->
            ∀ ea eb rest, launch ea = LaunchFail partial err ->
            ∃ w', run (ea :: eb :: rest) w0 (Susp (setup_after_initialize sessionId))
                  = Some (w', Resolved (VSetup false err None))
                ∧ isAbsent sessionId w'
                ∧ sessions w' = sessions w
                ∧ pendingSessions w' = pendingSessions w
                ∧ sessionLocks w' = sessionLocks w
                ∧ restartAttempts w' = restartAttempts w
                ∧ ∀ pid, partial = Some pid -> procs w' !! pid = None ∧ pid ∈ signals w').
  { intros w0 Hs0 Hp0 Hk0 Hr0 ea eb rest Hla.
    eexists. split; [apply (setup_after_initialize_fails _ _ _ _ _ _ _ Hla)|].
    destruct (reaped_world sessionId partial w0) as (Hs & Hp & Hk & Hr & Hpid).
    assert (Hpend' : pendingSessions w0 ∖ {[sessionId]} = pendingSessions w).
    { rewrite Hp0. apply set_eq; intros x.
      rewrite elem_of_difference, elem_of_union, elem_of_singleton.
      split; [tauto|]. intros Hx. split; [auto|]. intros ->; contradiction. }
    split; [|split; [|split; [|split; [|split]]]].
    - split; [rewrite Hs, Hs0; exact Hsess | rewrite Hp, Hpend'; exact Hpend].
    - rewrite Hs; exact Hs0.
    - rewrite Hp; exact Hpend'.
    - rewrite Hk; exact Hk0.
    - rewrite Hr; exact Hr0.
    - intros pid Hpid'. destruct (Hpid pid Hpid') as [Hgone Hsig].
      split; [exact Hgone | rewrite Hsig; apply list_elem_of_here]. }
  unfold setupSession. rewrite run_Susp. unfold setupSession_call. rewrite Hsess.
  rewrite bool_decide_eq_false_2 by exact Hpend. rewrite Hc0.
  destruct (releaseBrowserLock cfg); cbn [fst snd].
  - rewrite run_Susp. unfold setup_after_lstat. cbn [fs sessions set_pendingSessions].
    rewrite Hsess.
    destruct (fs w !! singletonLockPath cfg sessionId) as [node|]; cbn [fst snd].
    + rewrite run_Susp. unfold setup_after_unlink. rewrite Hu2. cbn [fst snd].
      apply Hback; auto.
    + apply Hback; auto.
  - apply Hback; auto.
Qed.

Lemma setupSession_launch_failure_witness :
  isAbsent "C" emptyWorld
  ∧ Forall (launchFails (Some 7) "Failed to launch the browser process")
           (replicate 5 failingExt)
  ∧ ∃ w', run (replicate 5 failingExt) emptyWorld (setupSession posixConfig "C")
          = Some (w', Resolved (VSetup false "Failed to launch the browser process" None))
        ∧ isAbsent "C" w'
        ∧ procs w' !! 7 = None ∧ 7 ∈ signals w'.
Proof.
  assert (Habsent : isAbsent "C" emptyWorld).
  { split; [reflexivity | apply not_elem_of_empty]. }
  assert (Hes : Forall (launchFails (Some 7) "Failed to launch the browser process")
                       (replicate 5 failingExt)).
  { simpl. repeat constructor. }
  split; [exact Habsent|]. split; [exact Hes|].
  destruct (setupSession_launch_failure posixConfig "C" emptyWorld (Some 7)
              "Failed to launch the browser process" (replicate 5 failingExt)
              Habsent Hes) as (w' & Hrun & Habs & _ & _ & _ & _ & Hpid).
  - simpl. lia.
  - exists w'. split; [exact Hrun|]. split; [exact Habs|]. apply Hpid. reflexivity.
Defined.


(** ** Every segment of every operation *)

Section Always.
Context {R : Type} (T : World -> World -> Prop).

Lemma always_Susp_seg (k : Ext -> World -> seg R) :
  (∀ e w, always_seg T w (k e w)) -> always T (Susp k).
Proof. intros H. constructor; intros e w; apply (H e w). Qed.

Lemma always_resume (e : Ext) (w : World) (t : task R) :
  (∀ w, T w w) -> always T t -> always_seg T w (resume e w t).
Proof.
  intros Hrefl Ht. destruct Ht as [r | k H1 H2 | busy k H1 H2]; simpl.
  - split; [apply Hrefl | constructor].
  - split; [apply H1 | apply H2].
  - destruct (busy w).
    + split; [apply Hrefl | constructor; assumption].
    + split; [apply H1 | apply H2].
Qed.

Lemma always_finally (t : task R) (fin : World -> World) :
  (∀ w w', T w w' -> T w (fin w')) -> always T t -> always T (finally_ t fin).
Proof.
  intros Hfin Ht. induction Ht as [r | k H1 H2 IH | busy k H1 H2 IH]; simpl.
  - constructor.
  - constructor; intros e w; specialize (H1 e w); specialize (IH e w);
      destruct (k e w) as [w' t']; simpl in *; destruct t'; simpl; auto; constructor.
  - constructor; intros e w; specialize (H1 e w); specialize (IH e w);
      destruct (k e w) as [w' t']; simpl in *; destruct t'; simpl; auto; constructor.
Qed.

Lemma always_finally_seg (w : World) (s : seg R) (fin : World -> World) :
  (∀ w w', T w w' -> T w (fin w')) ->
  always_seg T w s -> always_seg T w (finally_seg s fin).
Proof.
  intros Hfin [Hw Ht]. unfold finally_seg. destruct s as [w' t]; simpl in *.
  pose proof (always_finally t fin Hfin Ht) as Hf.
  destruct t; split; simpl; auto; constructor.
Qed.

Lemma always_seg_after (w w1 : World) (s : seg R) :
  (∀ w1 w2 w3, T w1 w2 -> T w2 w3 -> T w1 w3) ->
  T w w1 -> always_seg T w1 s -> always_seg T w s.
Proof. intros Htrans Hw [H1 H2]. split; [eapply Htrans; eassumption | exact H2]. Qed.
End Always.

Lemma always_await {A R} (T : World -> World -> Prop) (t : task A)
    (k : A -> Ext -> World -> seg R) :
  (∀ a e w, always_seg T w (k a e w)) -> always T t -> always T (await_ t k).
Proof.
  intros Hk Ht. induction Ht as [r | g H1 H2 IH | busy g H1 H2 IH]; simpl.
  - apply always_Susp_seg. intros e w. apply Hk.
  - constructor; intros e w; specialize (H1 e w); specialize (IH e w);
      destruct (g e w) as [w' t']; simpl in *; auto.
  - constructor; intros e w; specialize (H1 e w); specialize (IH e w);
      destruct (g e w) as [w' t']; simpl in *; auto.
Qed.

Lemma always_call_await {A R} (T : World -> World -> Prop) (w : World) (s : seg A)
    (k : A -> Ext -> World -> seg R) :
  always_seg T w s -> (∀ a e w, always_seg T w (k a e w)) ->
  always_seg T w (call_await s k).
Proof.
  intros [Hw Ht] Hk. split; simpl; [exact Hw | apply always_await; assumption].
Qed.

(** The function bodies, against any relation of the class. *)
Section Bodies.
Context (T : World -> World -> Prop) `{!BodyStep T}.

Lemma body_refl w : T w w.
Proof. apply step_refl. Qed.

Lemma body_restartAttempts w w' f : T w w' -> T w (set_restartAttempts f w').
Proof. apply step_restartAttempts. Qed.

Lemma body_fs w w' f : T w w' -> T w (set_fs f w').
Proof. apply step_fs. Qed.

Lemma body_procs w w' f : T w w' -> T w (set_procs f w').
Proof. apply step_procs. Qed.

Lemma body_signals w w' f : T w w' -> T w (set_signals f w').
Proof. apply step_signals. Qed.

Lemma body_pending_delete w w' k :
  T w w' -> T w (set_pendingSessions (fun s => s ∖ {[k]}) w').
Proof. apply step_pending_delete. Qed.

Lemma body_sessions_delete w w' k : T w w' -> T w (set_sessions (delete k) w').
Proof. apply step_sessions_delete. Qed.

Lemma body_reserve w k :
  sessions w !! k = None -> T w (set_pendingSessions (fun s => {[k]} ∪ s) w).
Proof. apply step_reserve. Qed.

Lemma body_activate w k pid :
  T w (set_pendingSessions (fun s => s ∖ {[k]})
         (set_sessions (insert k (mkClient (Some pid))) (spawn pid k w))).
Proof. apply step_activate. Qed.

Lemma step_sigkill w w' pid : T w w' -> T w (sigkill pid w').
Proof. intros H. apply step_procs, step_signals, H. Qed.

Lemma step_spawn w w' pid k : T w w' -> T w (spawn pid k w').
Proof. intros H. apply step_procs, H. Qed.

Lemma step_killBrowserProcess w w' client : T w w' -> T w (killBrowserProcess client w').
Proof.
  intros H. unfold killBrowserProcess.
  destruct (pupBrowser client) as [pid|]; [|exact H].
  destruct (procs w' !! pid); [apply step_sigkill|]; exact H.
Qed.

Lemma step_dropSession w w' k : T w w' -> T w (dropSession k w').
Proof. intros H. apply step_pending_delete, step_sessions_delete, H. Qed.

Lemma step_clearSession w w' k : T w w' -> T w (clearSession k w').
Proof.
  intros H. apply step_restartAttempts, step_pending_delete, step_sessions_delete, H.
Qed.

Lemma step_canRestart w w' k now : T w w' -> T w (canRestart k now w').2.
Proof. intros H. rewrite canRestart_world. apply step_restartAttempts, H. Qed.

Ltac world :=
  solve [ eauto 12 using body_refl, body_restartAttempts, body_fs, body_procs,
            body_signals, body_pending_delete, body_sessions_delete, step_sigkill,
            step_spawn, step_killBrowserProcess, step_dropSession, step_clearSession,
            step_canRestart, body_reserve, body_activate ].

Ltac body_step :=
  match goal with
  | |- always_seg _ _ (call_await _ _) => apply always_call_await; [|intros ? ? ?]
  | |- always_seg _ _ (match ?x with _ => _ end) => destruct x eqn:?
  | |- always_seg _ _ (let x := _ in _) => cbv zeta
  | |- always_seg _ _ (_, _) => split; cbn [fst snd]
  | |- always _ (Done _) => constructor
  | |- always _ (Susp _) => apply always_Susp_seg; intros ? ?
  | |- T _ _ => world
  end.

Ltac body := repeat body_step.

Lemma setup_after_initialize_always (k : string) (e : Ext) (w : World) :
  always_seg T w (setup_after_initialize k e w).
Proof.
  unfold setup_after_initialize.
  destruct (launch e) as [pid | [pid|] err]; body; unfold setup_after_kill; body.
Qed.

Lemma setup_after_unlink_always (cfg : Config) (k : string) (e : Ext) (w : World) :
  always_seg T w (setup_after_unlink cfg k e w).
Proof. unfold setup_after_unlink. body. apply setup_after_initialize_always. Qed.

Lemma setup_after_lstat_always (cfg : Config) (k : string) (e : Ext) (w : World) :
  always_seg T w (setup_after_lstat cfg k e w).
Proof.
  unfold setup_after_lstat. body;
    first [ apply setup_after_initialize_always | apply setup_after_unlink_always ].
Qed.

Lemma setupSession_call_always (cfg : Config) (k : string) (e : Ext) (w : World) :
  always_seg T w (setupSession_call cfg k e w).
Proof.
  unfold setupSession_call. body;
    first [ apply setup_after_initialize_always | apply setup_after_lstat_always ].
Qed.

Lemma orphan_after_unlink_always (cfg : Config) (k : string) (e : Ext) (w : World) :
  always_seg T w (orphan_after_unlink cfg k e w).
Proof. unfold orphan_after_unlink. destruct (unlinkOk e); body. Qed.

Lemma orphan_after_readlink_always (cfg : Config) (k : string) (e : Ext) (w : World) :
  always_seg T w (orphan_after_readlink cfg k e w).
Proof. unfold orphan_after_readlink. body; apply orphan_after_unlink_always. Qed.

Lemma killOrphaned_always (cfg : Config) (k : string) (w : World) :
  always_seg T w (killOrphanedBrowserByLockFile cfg k w).
Proof.
  unfold killOrphanedBrowserByLockFile. body.
  unfold orphan_after_lstat. body. apply orphan_after_readlink_always.
Qed.

Lemma deleteSessionFolder_always (cfg : Config) (k : string) (w : World) :
  always_seg T w (deleteSessionFolder cfg k w).
Proof.
  unfold deleteSessionFolder. body.
  unfold folder_after_realpath_target. body.
  unfold folder_after_realpath_root. body.
  unfold folder_after_rm. body.
Qed.

Lemma wait_disconnect_always (ticks : nat)
    (after : bool -> Ext -> World -> seg Completion) :
  (∀ b e w, always_seg T w (after b e w)) ->
  ∀ e w, always_seg T w (wait_disconnect ticks after e w).
Proof.
  intros Hafter. induction ticks as [|n IH]; intros e w; simpl.
  - destruct (browserConnected e); apply Hafter.
  - destruct (browserConnected e); [|apply Hafter]. body. apply IH.
Qed.

Lemma destroy_body_always (cfg : Config) (k : string) (e : Ext) (w : World) :
  always_seg T w (destroy_body cfg k e w).
Proof.
  unfold destroy_body. destruct (sessions w !! k) as [client|].
  - body. apply wait_disconnect_always.
    intros b e' w'. unfold destroy_finish. body.
  - body. apply killOrphaned_always.
Qed.

Lemma delete_tail_always (cfg : Config) (k : string) (e : Ext) (w : World) :
  always_seg T w (delete_tail cfg k e w).
Proof.
  unfold delete_tail. body.
  apply (always_seg_after T w (clearSession k w)); [apply step_trans | world |].
  apply deleteSessionFolder_always.
Qed.

Lemma delete_body_always (cfg : Config) (k : string) (v : option Validation)
    (e : Ext) (w : World) :
  always_seg T w (delete_body cfg k v e w).
Proof.
  unfold delete_body.
  assert (Hloop : ∀ client e w,
            always_seg T w (wait_disconnect 10 (delete_finish cfg k client) e w)).
  { intros client e' w'. apply wait_disconnect_always.
    intros b e'' w''. unfold delete_finish. destruct b.
    - body. apply delete_tail_always.
    - apply delete_tail_always. }
  destruct (sessions w !! k) as [client|].
  - body; apply Hloop.
  - body; [apply killOrphaned_always|].
    eapply always_seg_after; [apply step_trans | | apply deleteSessionFolder_always].
    world.
Qed.

Lemma reload_relaunch_always (cfg : Config) (k : string) (e : Ext) (w : World) :
  always_seg T w (reload_relaunch cfg k e w).
Proof.
  unfold reload_relaunch. body.
  apply (always_seg_after T w (dropSession k w)); [apply step_trans | world |].
  apply setupSession_call_always.
Qed.

Lemma reload_close_always (more : nat) (cfg : Config) (k : string) (client : Client) :
  ∀ e w, always_seg T w (reload_close more cfg k client e w).
Proof.
  induction more as [|n IH]; intros e w; simpl.
  - destruct (closeOk e); [apply reload_relaunch_always|].
    body. apply reload_relaunch_always.
  - destruct (closeOk e); body; [apply IH | apply reload_relaunch_always].
Qed.

Lemma reload_body_always (cfg : Config) (k : string) (e : Ext) (w : World) :
  always_seg T w (reload_body cfg k e w).
Proof. unfold reload_body. body. apply reload_close_always. Qed.

Lemma restart_body_always (cfg : Config) (k : string) (client : Client)
    (e : Ext) (w : World) :
  always_seg T w (restart_body cfg k client e w).
Proof. unfold restart_body. body. apply setupSession_call_always. Qed.

Lemma restart_denied_always (k : string) (client : Client) (w : World) :
  always_seg T w
    (killBrowserProcess client (dropSession k w),
     Susp (fun (_ : Ext) w => (w, Done (Resolved VUndefined)))).
Proof. body. Qed.

Lemma setupSession_always (cfg : Config) (k : string) : always T (setupSession cfg k).
Proof.
  unfold setupSession. apply always_Susp_seg. intros e w.
  apply setupSession_call_always.
Qed.

Lemma onReady_always (k : string) : always T (onReady k).
Proof. unfold onReady. body. Qed.
End Bodies.

(** ** The registry: PENDING and ACTIVE exclude each other *)

Lemma exclusive_shrinks (w w' : World) :
  (∀ k, k ∈ pendingSessions w' -> k ∈ pendingSessions w) ->
  (∀ k, is_Some (sessions w' !! k) -> is_Some (sessions w !! k)) ->
  registry_exclusive w -> registry_exclusive w'.
Proof.
  intros Hp Hs Hex k [Hpk Hsk]. apply (Hex k). split; [apply Hp, Hpk | apply Hs, Hsk].
Qed.

(** Reserving a key that has no registry entry. *)
Lemma exclusive_reserve (w : World) (k : string) :
  sessions w !! k = None -> registry_exclusive w ->
  registry_exclusive (set_pendingSessions (fun s => {[k]} ∪ s) w).
Proof.
  intros Hnone Hex x [Hp [c Hs]]. unfold isPending in Hp. simpl in Hp, Hs.
  apply elem_of_union in Hp as [Hp | Hp].
  - apply elem_of_singleton in Hp as ->. congruence.
  - apply (Hex x). split; [exact Hp | exists c; exact Hs].
Qed.

(** Lines 306-307: the entry is written and the reservation dropped in
    one segment. *)
Lemma exclusive_activate (w : World) (k : string) (pid : Z) :
  registry_exclusive w ->
  registry_exclusive
    (set_pendingSessions (fun s => s ∖ {[k]})
       (set_sessions (insert k (mkClient (Some pid))) (spawn pid k w))).
Proof.
  intros Hex x [Hp [c Hs]]. unfold isPending in Hp. simpl in Hp, Hs.
  apply elem_of_difference in Hp as [Hp Hne].
  rewrite elem_of_singleton in Hne.
  rewrite lookup_insert_ne in Hs by congruence.
  apply (Hex x). split; [exact Hp | exists c; exact Hs].
Qed.

#[local] Instance exclusive_BodyStep : BodyStep exclusive_step.
Proof.
  split; unfold exclusive_step.
  - auto.
  - auto.
  - intros w w' f H Hw. exact (H Hw).
  - intros w w' f H Hw. exact (H Hw).
  - intros w w' f H Hw. exact (H Hw).
  - intros w w' f H Hw. exact (H Hw).
  - intros w w' k H Hw. apply (exclusive_shrinks w'); [| |exact (H Hw)]; simpl.
    + intros x Hx. apply elem_of_difference in Hx as [Hx _]. exact Hx.
    + auto.
  - intros w w' k H Hw. apply (exclusive_shrinks w'); [| |exact (H Hw)]; simpl.
    + auto.
    + intros x Hx. destruct (decide (k = x)) as [->|Hne].
      * rewrite lookup_delete_eq in Hx. destruct Hx; discriminate.
      * rewrite lookup_delete_ne in Hx by exact Hne. exact Hx.
  - intros w k Hnone Hw. apply exclusive_reserve; assumption.
  - intros w k pid Hw. apply exclusive_activate, Hw.
Qed.

Lemma acquireSessionLock_always (T : World -> World -> Prop) (k : string)
    (body : Ext -> World -> seg Completion) :
  (∀ w f, T w (set_sessionLocks f w)) ->
  (∀ e w, always_seg T w (body e w)) ->
  always T (acquireSessionLock k body).
Proof.
  intros Hlocks Hbody. unfold acquireSessionLock. constructor; intros e w; cbn [fst snd].
  - apply Hlocks.
  - apply always_Susp_seg. exact Hbody.
Qed.

Lemma exclusive_set_sessionLocks (w w' : World) (f : gmap string bool -> gmap string bool) :
  exclusive_step w w' -> exclusive_step w (set_sessionLocks f w').
Proof. intros H Hw. exact (H Hw). Qed.

Lemma guarded_exclusive (k : string) (body : Ext -> World -> seg Completion) :
  (∀ e w, always_seg exclusive_step w (body e w)) ->
  always exclusive_step
    (acquireSessionLock k (fun e w => finally_seg (body e w) (releaseSessionLock k))).
Proof.
  intros Hbody. apply acquireSessionLock_always.
  - intros w f. apply exclusive_set_sessionLocks. exact (fun H => H).
  - intros e w. apply always_finally_seg; [|apply Hbody].
    intros w1 w2. apply exclusive_set_sessionLocks.
Qed.

Lemma invoke_exclusive (cfg : Config) (op : Op) : always exclusive_step (invoke cfg op).
Proof.
  destruct op as [k | k | k | k v | k client | k]; simpl.
  - apply setupSession_always; typeclasses eauto.
  - apply guarded_exclusive. intros e w. apply reload_body_always; typeclasses eauto.
  - apply guarded_exclusive. intros e w. apply destroy_body_always; typeclasses eauto.
  - apply guarded_exclusive. intros e w. apply delete_body_always; typeclasses eauto.
  - unfold safeRestartSession. apply always_Susp_seg. intros e w.
    unfold safeRestartSession_call.
    pose proof (step_canRestart exclusive_step w w k (now e) (step_refl w)) as Hcan.
    destruct (canRestart k (now e) w) as [ok w1]. cbn [snd] in Hcan.
    apply (always_seg_after exclusive_step w w1); [apply step_trans | exact Hcan |].
    destruct ok.
    + apply always_resume; [apply step_refl|].
      apply guarded_exclusive. intros e' w'. apply restart_body_always; typeclasses eauto.
    + apply restart_denied_always; typeclasses eauto.
  - apply onReady_always; typeclasses eauto.
Qed.

Lemma resume_step_exclusive (allowed : Ext -> Prop) (s s' : System) :
  resume_step allowed s s' ->
  registry_exclusive (world s) ∧ Forall (always exclusive_step) (pool s) ->
  registry_exclusive (world s') ∧ Forall (always exclusive_step) (pool s').
Proof.
  intros Hstep [Hw Hpool]. destruct Hstep as [s i t e Hi _ _]. cbn [world pool].
  assert (Ht : always exclusive_step t).
  { rewrite Forall_forall in Hpool. apply Hpool. eapply list_elem_of_lookup_2, Hi. }
  destruct (always_resume exclusive_step e (world s) t (fun w H => H) Ht) as [Hw' Ht'].
  split; [exact (Hw' Hw)|]. apply Forall_insert; assumption.
Qed.

Lemma step_exclusive (cfg : Config) (s s' : System) :
  step cfg s s' ->
  registry_exclusive (world s) ∧ Forall (always exclusive_step) (pool s) ->
  registry_exclusive (world s') ∧ Forall (always exclusive_step) (pool s').
Proof.
  intros Hstep [Hw Hpool]. destruct Hstep as [s s' Hres | s op _].
  - eapply resume_step_exclusive; [eassumption | split; assumption].
  - cbn [world pool]. split; [exact Hw|].
    apply Forall_app; split; [exact Hpool|].
    apply Forall_cons; split; [apply invoke_exclusive | apply Forall_nil; exact I].
Qed.

Lemma initial_exclusive (s : System) : initial s -> registry_exclusive (world s).
Proof.
  intros (_ & Hs & Hp & _) k [Hk _]. unfold isPending in Hk. rewrite Hp in Hk.
  exact (not_elem_of_empty k Hk).
Qed.

(** C3.  Started from the module as loaded, whatever operations (setup,
    destroy, delete, reload, crash recovery, the ready handler) arrive,
    however their segments interleave and whatever the workers answer:
    whenever every operation is at a suspension point, no key is in
    [pendingSessions] and in [sessions] at once. *)
Theorem registry_exclusive_invariant (cfg : Config) (s0 s : System) :
  initial s0 ->
  rtc (step cfg) s0 s ->
  ∀ sessionId, ¬ (isPending sessionId (world s) ∧ isActive sessionId (world s)).
Proof.
  intros Hinit Hsteps.
  assert (Hinv : registry_exclusive (world s)
                 ∧ Forall (always exclusive_step) (pool s)).
  { refine (rtc_ind_r (fun s => registry_exclusive (world s)
                                 ∧ Forall (always exclusive_step) (pool s))
                       s0 _ _ s Hsteps).
    - split; [apply initial_exclusive, Hinit|].
      destruct Hinit as [Hpool _]. rewrite Hpool. constructor.
    - intros s1 s2 _ Hstep IH. eapply step_exclusive; eassumption. }
  exact (proj1 Hinv).
Qed.

Lemma registry_exclusive_invariant_witness :
  initial loadedSystem
  ∧ rtc (step posixConfig) loadedSystem oneSetupSystem
  ∧ isPending "C" (world oneSetupSystem)
  ∧ ∀ sessionId, ¬ (isPending sessionId (world oneSetupSystem)
                    ∧ isActive sessionId (world oneSetupSystem)).
Proof.
  assert (Hinit : initial loadedSystem) by (repeat split).
  assert (Hsteps : rtc (step posixConfig) loadedSystem oneSetupSystem).
  { eapply rtc_l; [apply (step_invoke posixConfig loadedSystem (OpSetup "C")); exact I|].
    apply rtc_once. apply step_resume.
    apply (resume_at (fun _ => True)
             (mkSystem emptyWorld ([] ++ [invoke posixConfig (OpSetup "C")])%list)
             0%nat (setupSession posixConfig "C") quietExt);
      [reflexivity | intros r; discriminate | exact I]. }
  split; [exact Hinit|]. split; [exact Hsteps|]. split.
  - unfold isPending, oneSetupSystem, setupSession, setupSession_call.
    cbn [world resume]. change (sessions emptyWorld !! "C") with (@None Client).
    rewrite bool_decide_eq_false_2 by apply not_elem_of_empty.
    cbn. apply elem_of_union_l, elem_of_singleton. reflexivity.
  - exact (registry_exclusive_invariant posixConfig loadedSystem oneSetupSystem
             Hinit Hsteps).
Defined.


(** ** The session lock *)

#[local] Instance same_locks_BodyStep : BodyStep same_locks.
Proof.
  split; unfold same_locks; simpl; try congruence; auto.
Qed.

Lemma free_disciplined {R} (t : task R) : always same_locks t -> disciplined None t.
Proof.
  intros Ht. induction Ht as [r | g H1 H2 IH | busy g H1 H2 IH]; simpl.
  - reflexivity.
  - intros e w. exists None. split; [apply lock_keep; [reflexivity | apply H1] | apply IH].
  - intros e w. exists None. split; [apply lock_keep; [reflexivity | apply H1] | apply IH].
Qed.

Lemma holder_segment {R} (k : string) (w w' : World) (t' : task R) :
  same_locks w w' ->
  ((∀ r, t' ≠ Done r) -> disciplined (Some k) (finally_ t' (releaseSessionLock k))) ->
  ∃ o', lock_trans (Some k) o' w
          (match t' with
           | Done r => (releaseSessionLock k w', Done r)
           | _ => (w', finally_ t' (releaseSessionLock k))
           end).1
        ∧ disciplined o'
            (match t' with
             | Done r => (releaseSessionLock k w', Done r)
             | _ => (w', finally_ t' (releaseSessionLock k))
             end).2.
Proof.
  intros Hw IH. destruct t' as [r | g | busy g]; cbn [fst snd].
  - exists None. split; [|reflexivity].
    apply (lock_release _ _ _ _ k); [reflexivity | reflexivity |].
    simpl. rewrite Hw. reflexivity.
  - exists (Some k). split; [apply lock_keep; [reflexivity | exact Hw]|].
    apply IH. intros r; discriminate.
  - exists (Some k). split; [apply lock_keep; [reflexivity | exact Hw]|].
    apply IH. intros r; discriminate.
Qed.

Lemma holder_finally {R} (k : string) (t : task R) :
  always same_locks t -> (∀ r, t ≠ Done r) ->
  disciplined (Some k) (finally_ t (releaseSessionLock k)).
Proof.
  intros Ht. induction Ht as [r | g H1 H2 IH | busy g H1 H2 IH]; intros Hnot.
  - exfalso. exact (Hnot r eq_refl).
  - simpl. intros e w. specialize (H1 e w). specialize (IH e w).
    destruct (g e w) as [w' t']. apply holder_segment; assumption.
  - simpl. intros e w. specialize (H1 e w). specialize (IH e w).
    destruct (g e w) as [w' t']. apply holder_segment; assumption.
Qed.

Lemma holder_body (k : string) (body : Ext -> World -> seg Completion) :
  (∀ e w, always_seg same_locks w (body e w)) ->
  disciplined (Some k)
    (Susp (fun e w => finally_seg (body e w) (releaseSessionLock k))).
Proof.
  intros Hbody. simpl. intros e w. destruct (Hbody e w) as [Hw Ht].
  unfold finally_seg. destruct (body e w) as [w' t']. cbn [fst snd] in *.
  assert (Hfin : (∀ r, t' ≠ Done r) ->
                 disciplined (Some k) (finally_ t' (releaseSessionLock k)))
    by (intros Hnot; apply holder_finally; assumption).
  destruct t' as [r | g | busy g].
  - exact (holder_segment k w w' (Done r) Hw Hfin).
  - exact (holder_segment k w w' (Susp g) Hw Hfin).
  - exact (holder_segment k w w' (Poll busy g) Hw Hfin).
Qed.

Lemma guarded_disciplined (k : string) (body : Ext -> World -> seg Completion) :
  (∀ e w, always_seg same_locks w (body e w)) ->
  disciplined None
    (acquireSessionLock k (fun e w => finally_seg (body e w) (releaseSessionLock k))).
Proof.
  intros Hbody. unfold acquireSessionLock. cbn [disciplined]. intros e w.
  exists (Some k). cbn [fst snd]. split.
  - apply (lock_acquire _ _ _ _ k); reflexivity.
  - apply holder_body, Hbody.
Qed.

Lemma disciplined_resume {R} (o : option string) (e : Ext) (w : World) (t : task R) :
  disciplined o t ->
  ∃ o', lock_trans o o' w (resume e w t).1 ∧ disciplined o' (resume e w t).2.
Proof.
  intros Ht. destruct t as [r | g | busy g]; simpl in *.
  - exists o. split; [apply lock_keep; reflexivity | exact Ht].
  - apply Ht.
  - destruct (busy w); [|apply Ht].
    exists o. split; [apply lock_keep; reflexivity | exact Ht].
Qed.

Lemma invoke_disciplined (cfg : Config) (op : Op) : disciplined None (invoke cfg op).
Proof.
  destruct op as [k | k | k | k v | k client | k]; simpl invoke.
  - apply free_disciplined, setupSession_always; typeclasses eauto.
  - apply guarded_disciplined. intros e w. apply reload_body_always; typeclasses eauto.
  - apply guarded_disciplined. intros e w. apply destroy_body_always; typeclasses eauto.
  - apply guarded_disciplined. intros e w. apply delete_body_always; typeclasses eauto.
  - unfold safeRestartSession. cbn [disciplined]. intros e w.
    unfold safeRestartSession_call.
    pose proof (step_canRestart same_locks w w k (now e) (step_refl w)) as Hcan.
    destruct (canRestart k (now e) w) as [ok w1]. cbn [snd] in Hcan.
    destruct ok.
    + destruct (disciplined_resume None e w1 _
                  (guarded_disciplined k (restart_body cfg k client)
                     (fun e w => restart_body_always same_locks cfg k client e w)))
        as [o' [Htrans Hdisc]].
      exists o'. split; [|exact Hdisc].
      destruct Htrans as [Ho Hl | k' Ho Ho' Hl | k' Ho Ho' Hl].
      * apply lock_keep; [exact Ho | rewrite Hl; exact Hcan].
      * apply (lock_acquire _ _ _ _ k'); [exact Ho | exact Ho' | rewrite Hl, Hcan; reflexivity].
      * discriminate Ho.
    + exists None. cbn [fst snd].
      destruct (restart_denied_always same_locks k client w1) as [Hw Ht].
      cbn [fst snd] in Hw, Ht. split.
      * apply lock_keep; [reflexivity|]. unfold same_locks in *. rewrite Hw. exact Hcan.
      * apply free_disciplined. exact Ht.
  - apply free_disciplined, onReady_always; typeclasses eauto.
Qed.

Lemma run_disciplined {R} (es : list Ext) :
  ∀ (o : option string) (w : World) (t : task R) (w' : World) (r : R) (k : string),
    disciplined o t ->
    run es w t = Some (w', r) ->
    sessionLocks w !! k = None ∨ o = Some k ->
    sessionLocks w' !! k = None.
Proof.
  induction es as [|e es IH]; intros o w t w' r k Hdisc Hrun Hk.
  - destruct t as [r0 | g | busy g]; simpl in Hrun; try discriminate.
    injection Hrun as <- <-. simpl in Hdisc. subst o.
    destruct Hk as [Hk | Hk]; [exact Hk | discriminate].
  - destruct t as [r0 | g | busy g].
    + simpl in Hrun. injection Hrun as <- <-. simpl in Hdisc. subst o.
      destruct Hk as [Hk | Hk]; [exact Hk | discriminate].
    + destruct (disciplined_resume o e w (Susp g) Hdisc) as [o' [Htrans Hd']].
      simpl in Hrun, Htrans, Hd'. destruct (g e w) as [w1 t1]. cbn [fst snd] in *.
      apply (IH o' w1 t1 w' r k Hd' Hrun).
      destruct Htrans as [Ho Hl | k1 Ho Ho' Hl | k1 Ho Ho' Hl]; rewrite Hl.
      * subst o'. exact Hk.
      * subst o o'. destruct Hk as [Hk | Hk]; [|discriminate].
        destruct (decide (k1 = k)) as [->|Hne]; [right; reflexivity|].
        left. rewrite lookup_insert_ne by exact Hne. exact Hk.
      * subst o o'. left. destruct (decide (k1 = k)) as [->|Hne].
        -- apply lookup_delete_eq.
        -- rewrite lookup_delete_ne by exact Hne.
           destruct Hk as [Hk | Hk]; [exact Hk | congruence].
    + simpl in Hrun. destruct (busy w).
      * exact (IH o w (Poll busy g) w' r k Hdisc Hrun Hk).
      * simpl in Hdisc. destruct (Hdisc e w) as [o' [Htrans Hd']].
        destruct (g e w) as [w1 t1]. cbn [fst snd] in *.
        apply (IH o' w1 t1 w' r k Hd' Hrun).
        destruct Htrans as [Ho Hl | k1 Ho Ho' Hl | k1 Ho Ho' Hl]; rewrite Hl.
        -- subst o'. exact Hk.
        -- subst o o'. destruct Hk as [Hk | Hk]; [|discriminate].
           destruct (decide (k1 = k)) as [->|Hne]; [right; reflexivity|].
           left. rewrite lookup_insert_ne by exact Hne. exact Hk.
        -- subst o o'. left. destruct (decide (k1 = k)) as [->|Hne].
           ++ apply lookup_delete_eq.
           ++ rewrite lookup_delete_ne by exact Hne.
              destruct Hk as [Hk | Hk]; [exact Hk | congruence].
Qed.

Lemma lock_owners_resume (allowed : Ext -> Prop) (s s' : System) (os : list (option string)) :
  resume_step allowed s s' -> lock_owners os s -> ∃ os', lock_owners os' s'.
Proof.
  intros Hstep [Hall Hheld]. destruct Hstep as [s i t e Hi _ _].
  destruct (Forall2_lookup_r _ _ _ _ _ Hall Hi) as [o [Hoi Hdisc]].
  destruct (disciplined_resume o e (world s) t Hdisc) as [o' [Htrans Hd']].
  exists (<[i := o']> os). split; cbn [world pool].
  - apply Forall2_insert; assumption.
  - intros k Hk.
    assert (Hother : ∀ k0, Some k0 ∈ os -> o ≠ Some k0 -> Some k0 ∈ <[i := o']> os).
    { intros k0 Hin Hne. apply list_elem_of_lookup in Hin as [j Hj].
      apply list_elem_of_lookup. exists j.
      rewrite list_lookup_insert_ne; [exact Hj|]. intros ->. congruence. }
    destruct Htrans as [Ho Hl | k1 Ho Ho' Hl | k1 Ho Ho' Hl]; rewrite Hl in Hk.
    + subst o'. rewrite list_insert_id by exact Hoi. apply Hheld, Hk.
    + subst o o'. destruct (decide (k1 = k)) as [->|Hne].
      * apply list_elem_of_lookup. exists i.
        apply list_lookup_insert_eq. eapply lookup_lt_Some, Hoi.
      * rewrite lookup_insert_ne in Hk by exact Hne.
        apply Hother; [apply Hheld, Hk | discriminate].
    + subst o o'. destruct (decide (k1 = k)) as [->|Hne].
      * rewrite lookup_delete_eq in Hk. destruct Hk; discriminate.
      * rewrite lookup_delete_ne in Hk by exact Hne.
        apply Hother; [apply Hheld, Hk | congruence].
Qed.

Lemma lock_owners_step (cfg : Config) (s s' : System) (os : list (option string)) :
  step cfg s s' -> lock_owners os s -> ∃ os', lock_owners os' s'.
Proof.
  intros Hstep Hown. destruct Hstep as [s s' Hres | s op _].
  - eapply lock_owners_resume; eassumption.
  - destruct Hown as [Hall Hheld]. exists (os ++ [None])%list. split; cbn [world pool].
    + apply Forall2_app; [exact Hall|].
      constructor; [apply invoke_disciplined | constructor].
    + intros k Hk. apply elem_of_app. left. apply Hheld, Hk.
Qed.

Lemma lock_owners_reachable (cfg : Config) (s0 s : System) :
  initial s0 -> rtc (step cfg) s0 s -> ∃ os, lock_owners os s.
Proof.
  intros Hinit Hsteps.
  refine (rtc_ind_r (fun s => ∃ os, lock_owners os s) s0 _ _ s Hsteps).
  - exists []. destruct Hinit as (Hpool & _ & _ & Hlocks & _). split.
    + rewrite Hpool. constructor.
    + intros k Hk. rewrite Hlocks, lookup_empty in Hk. destruct Hk; discriminate.
  - intros s1 s2 _ Hstep [os Hown]. eapply lock_owners_step; eassumption.
Qed.

(** C10.  Every operation keeps the lock discipline: it takes a session
    lock only by [acquireSessionLock], and the segment in which it
    settles, with a value or with an error, has given the lock back.
    Hence an operation run alone to its end from a world in which a
    key's lock is free leaves it free; and with any operations running
    together, a lock in the table is always held by an operation still
    in flight, so that once all have settled no lock is held. *)
Theorem session_lock_released (cfg : Config) :
  (∀ op, disciplined None (invoke cfg op))
  ∧ (∀ op es w w' r k,
       run es w (invoke cfg op) = Some (w', r) ->
       sessionLocks w !! k = None ->
       sessionLocks w' !! k = None)
  ∧ (∀ s0 s,
       initial s0 -> rtc (step cfg) s0 s ->
       (∀ k, is_Some (sessionLocks (world s) !! k) ->
             ∃ i t, pool s !! i = Some t ∧ disciplined (Some k) t ∧ ¬ settled t)
       ∧ (Forall settled (pool s) -> sessionLocks (world s) = ∅)).
Proof.
  split; [apply invoke_disciplined|]. split.
  - intros op es w w' r k Hrun Hfree.
    apply (run_disciplined es None w (invoke cfg op) w' r k
             (invoke_disciplined cfg op) Hrun).
    left. exact Hfree.
  - intros s0 s Hinit Hsteps.
    destruct (lock_owners_reachable cfg s0 s Hinit Hsteps) as [os [Hall Hheld]].
    assert (Hholder : ∀ k, is_Some (sessionLocks (world s) !! k) ->
              ∃ i t, pool s !! i = Some t ∧ disciplined (Some k) t ∧ ¬ settled t).
    { intros k Hk. apply Hheld, list_elem_of_lookup in Hk as [i Hi].
      destruct (Forall2_lookup_l _ _ _ _ _ Hall Hi) as [t [Ht Hdisc]].
      exists i, t. split; [exact Ht|]. split; [exact Hdisc|].
      intros [r ->]. simpl in Hdisc. discriminate. }
    split; [exact Hholder|].
    intros Hsettled. apply map_empty. intros k.
    destruct (sessionLocks (world s) !! k) as [b|] eqn:Hk; [|reflexivity].
    destruct (Hholder k) as (i & t & Ht & _ & Hnot); [rewrite Hk; eauto|].
    exfalso. apply Hnot. rewrite Forall_forall in Hsettled. apply Hsettled.
    eapply list_elem_of_lookup_2, Ht.
Qed.

Lemma session_lock_released_witness :
  sessionLocks reusedPidWorld !! "D" = None
  ∧ ∃ w', run (replicate 6 missingFolderExt) reusedPidWorld
              (invoke posixConfig (OpDelete "D" None))
          = Some (w', Rejected "ENOENT: no such file or directory")
        ∧ sessionLocks w' !! "D" = None.
Proof.
  assert (Hfree : sessionLocks reusedPidWorld !! "D" = None) by reflexivity.
  assert (Hrun : ∃ w', run (replicate 6 missingFolderExt) reusedPidWorld
                           (invoke posixConfig (OpDelete "D" None))
                       = Some (w', Rejected "ENOENT: no such file or directory")).
  { vm_compute. eexists. reflexivity. }
  split; [exact Hfree|]. destruct Hrun as [w' Hrun]. exists w'. split; [exact Hrun|].
  exact (proj1 (proj2 (session_lock_released posixConfig))
           (OpDelete "D" None) (replicate 6 missingFolderExt) reusedPidWorld w'
           (Rejected "ENOENT: no such file or directory") "D" Hrun Hfree).
Defined.

(** ** Concurrent calls of [setupSession] *)





















(* ================================================================== *)
(** * Further properties of the module *)
(* ================================================================== *)

(** ** The pid in a browser lock *)

Lemma all_digits_app_dash (h rest : string) :
  all_digits (h ++ String "-" rest) = false.
Proof.
  induction h as [|c h IH]; [reflexivity|].
  change (all_digits (String c (h ++ String "-" rest)) = false).
  simpl. rewrite IH. apply andb_false_r.
Qed.

Lemma match_dash_digits_app (host digits : string) :
  digits ≠ "" -> all_digits digits = true ->
  match_dash_digits (host ++ String "-" digits) = Some digits.
Proof.
  intros Hne Hd. induction host as [|c h IH].
  - change (match_dash_digits (String "-" digits) = Some digits). simpl.
    rewrite Hd. destruct (String.eqb_spec digits ""); [contradiction | reflexivity].
  - change (match_dash_digits (String c (h ++ String "-" digits)) = Some digits).
    simpl. rewrite all_digits_app_dash, andb_false_r. exact IH.
Qed.

Lemma match_dash_digits_inv (s digits : string) :
  match_dash_digits s = Some digits ->
  ∃ host, s = host ++ String "-" digits ∧ digits ≠ "" ∧ all_digits digits = true.
Proof.
  induction s as [|c s IH]; [discriminate|]. simpl.
  destruct (Ascii.eqb_spec c "-") as [->|Hc]; simpl.
  - destruct (String.eqb_spec s "") as [->|Hs]; simpl.
    + discriminate.
    + destruct (all_digits s) eqn:Hd.
      * intros [= <-]. exists "". repeat split; auto.
      * intros H. destruct (IH H) as (host & -> & Hne & Hd').
        exists (String "-" host). repeat split; auto.
  - intros H. destruct (IH H) as (host & -> & Hne & Hd').
    exists (String c host). repeat split; auto.
Qed.

Lemma pretty_N_char_digit (d : N) :
  (d < 10)%N ->
  is_digit (pretty_N_char d) = true
  ∧ Z.of_nat (nat_of_ascii (pretty_N_char d)) - 48 = Z.of_N d.
Proof.
  intros Hd.
  assert (Hcases : (d = 0 ∨ d = 1 ∨ d = 2 ∨ d = 3 ∨ d = 4 ∨ d = 5 ∨ d = 6 ∨ d = 7
                     ∨ d = 8 ∨ d = 9)%N) by lia.
  repeat (destruct Hcases as [-> | Hcases]; [split; reflexivity|]).
  subst d. split; reflexivity.
Qed.

(** The decimal numeral of [x] in front of [s]: digits only, read back
    as [x] appended to what was read before. *)
Lemma pretty_N_go_digits (x : N) :
  ∀ s, all_digits (pretty_N_go x s) = all_digits s
       ∧ ((0 < x)%N -> pretty_N_go x s ≠ "")
       ∧ ∃ n : nat, ∀ acc,
           parse_digits acc (pretty_N_go x s)
           = parse_digits (acc * 10 ^ Z.of_nat n + Z.of_N x) s.
Proof.
  induction (N.lt_wf_0 x) as [x _ IH]. intros s.
  assert (x = 0 ∨ 0 < x)%N as [-> | Hpos] by lia.
  - rewrite pretty_N_go_0. split; [reflexivity|]. split; [lia|].
    exists 0%nat. intros acc. f_equal. simpl. lia.
  - rewrite pretty_N_go_step by exact Hpos.
    assert (Hlt : (x `div` 10 < x)%N) by (apply N.div_lt; lia).
    assert (Hmod : (x `mod` 10 < 10)%N) by (apply N.mod_lt; lia).
    destruct (pretty_N_char_digit _ Hmod) as [Hdig Hval].
    destruct (IH _ Hlt (String (pretty_N_char (x `mod` 10)) s)) as (Hall & Hne & n & Hparse).
    split; [|split].
    + rewrite Hall. simpl. rewrite Hdig. reflexivity.
    + intros _ Hempty. pose proof Hall as Hall'. rewrite Hempty in Hall'.
      assert (Hlen : ∀ y t, (String.length t <= String.length (pretty_N_go y t))%nat).
      { intros y. induction (N.lt_wf_0 y) as [y _ IHy]. intros t.
        assert (y = 0 ∨ 0 < y)%N as [-> | Hy] by lia.
        - rewrite pretty_N_go_0. lia.
        - rewrite pretty_N_go_step by exact Hy.
          etransitivity; [|apply IHy, N.div_lt; lia]. simpl. lia. }
      specialize (Hlen (x `div` 10)%N (String (pretty_N_char (x `mod` 10)) s)).
      rewrite Hempty in Hlen. simpl in Hlen. lia.
    + exists (S n). intros acc. rewrite Hparse. simpl parse_digits. f_equal.
      rewrite Hval. rewrite Nat2Z.inj_succ, Z.pow_succ_r by lia.
      pose proof (N.div_mod x 10 ltac:(lia)) as Hdm.
      assert (Z.of_N x = 10 * Z.of_N (x `div` 10) + Z.of_N (x `mod` 10)) by lia.
      lia.
Qed.

Lemma pretty_N_digits (pid : N) :
  all_digits (pretty pid) = true ∧ pretty pid ≠ "" ∧ parse_digits 0 (pretty pid) = Z.of_N pid.
Proof.
  unfold pretty, pretty_N. destruct (decide (pid = 0)%N) as [->|Hne].
  - repeat split. discriminate.
  - destruct (pretty_N_go_digits pid "") as (Hall & Hnonempty & n & Hparse).
    split; [rewrite Hall; reflexivity|]. split; [apply Hnonempty; lia|].
    rewrite Hparse. simpl. lia.
Qed.

(** X1.  Chrome writes its lock as a symbolic link to [host-pid].  For
    every host name, with dashes and digits of its own or not, and every
    pid below 2^53, the reaper reads that pid back; and whenever it reads
    a pid at all, the lock is a symbolic link whose target ends in a dash
    followed by decimal digits only and the pid is the number they
    write: a regular file, a directory, a missing entry or any other
    target give none. *)
Theorem lockPid_reads_pid :
  (∀ (host : string) (pid : N),
     (pid < 2 ^ 53)%N ->
     lockPid (Some (Symlink (host ++ "-" ++ pretty pid))) = Some (Z.of_N pid))
  ∧ (∀ (node : option Node) (pid : Z),
       lockPid node = Some pid ->
       ∃ host digits,
         node = Some (Symlink (host ++ "-" ++ digits))
         ∧ digits ≠ "" ∧ all_digits digits = true ∧ pid = parse_digits 0 digits).
Proof.
  split.
  - intros host pid _. destruct (pretty_N_digits pid) as (Hall & Hne & Hparse).
    unfold lockPid. change (host ++ "-" ++ pretty pid) with (host ++ String "-" (pretty pid)).
    rewrite (match_dash_digits_app host (pretty pid) Hne Hall), Hparse. reflexivity.
  - intros node pid H. unfold lockPid in H.
    destruct node as [[target| |]|]; try discriminate H.
    destruct (match_dash_digits target) as [digits|] eqn:Hm; [|discriminate H].
    injection H as <-. destruct (match_dash_digits_inv _ _ Hm) as (host & -> & Hne & Hd).
    exists host, digits. repeat split; auto.
Qed.

Lemma lockPid_reads_pid_witness :
  (4242 < 2 ^ 53)%N
  ∧ lockPid (Some (Symlink ("build-7-host" ++ "-" ++ pretty 4242%N))) = Some 4242.
Proof.
  assert (H : (4242 < 2 ^ 53)%N) by (vm_compute; reflexivity).
  split; [exact H|]. exact (proj1 lockPid_reads_pid "build-7-host" 4242%N H).
Defined.


(** ** Session folders *)

Lemma strip_prefix_app (p s : string) : strip_prefix p (p ++ s) = Some s.
Proof.
  induction p as [|a p IH]; [reflexivity|].
  change (strip_prefix (String a p) (String a (p ++ s)) = Some s).
  simpl. rewrite Ascii.eqb_refl. exact IH.
Qed.

Lemma strip_prefix_inv (p s rest : string) : strip_prefix p s = Some rest -> s = p ++ rest.
Proof.
  revert s. induction p as [|a p IH]; intros s H.
  - injection H as ->. reflexivity.
  - destruct s as [|b s]; [discriminate H|]. simpl in H.
    destruct (Ascii.eqb_spec a b) as [->|Hne]; [|discriminate H].
    rewrite (IH s H). reflexivity.
Qed.

(** X2.  The folder of a session is named [session-<id>]
    (line 589), and the listing loops of [restoreSessions] and
    [flushSessions] read the id back from the name: an entry gives the id
    [k] exactly when its name is [session-] followed by [k], [k] is not
    empty and holds no line terminator.  So every such id is read back
    unchanged, and an entry named otherwise ([session-] alone, a name
    with another prefix) is passed over. *)
Theorem session_of_file_folder_name (file sessionId : string) :
  session_of_file file = Some sessionId
  <-> file = "session-" ++ sessionId
      ∧ sessionId ≠ ""
      ∧ has_line_terminator sessionId = false.
Proof.
  unfold session_of_file. split.
  - destruct (strip_prefix "session-" file) as [k|] eqn:Hk; [|discriminate].
    destruct (String.eqb_spec k "") as [->|Hne]; simpl; [discriminate|].
    destruct (has_line_terminator k) eqn:Hlt; simpl; [discriminate|].
    intros [= <-]. split; [apply strip_prefix_inv, Hk | split; assumption].
  - intros (-> & Hne & Hlt). rewrite strip_prefix_app, Hlt.
    destruct (String.eqb_spec sessionId ""); [contradiction | reflexivity].
Qed.

(** ** The restart budget *)

Lemma restartTrace_counts (sessionId : string) (times : list Z) :
  ∀ w,
    match restartAttempts w !! sessionId with
    | Some a => 1 <= count a <= MAX_RESTART_ATTEMPTS
    | None => True
    end ->
    Forall (fun oc => ∃ c, oc.2 = Some c ∧ 1 <= c <= MAX_RESTART_ATTEMPTS)
           (restartTrace sessionId times w).
Proof.
  unfold MAX_RESTART_ATTEMPTS.
  induction times as [|now times IH]; intros w Hw; [constructor|].
  rewrite restartTrace_cons.
  pose proof (canRestart_record sessionId now w) as Hrec.
  assert (Hnext : match (canAttempt_rules (restartAttempts w !! sessionId) now).2 with
                  | Some a => 1 <= count a <= 3
                  | None => False
                  end).
  { unfold canAttempt_rules. destruct (restartAttempts w !! sessionId) as [a|]; simpl.
    - repeat case_bool_decide; simpl; lia.
    - lia. }
  constructor.
  - cbn [snd]. destruct ((canAttempt_rules (restartAttempts w !! sessionId) now).2) as [a|];
      [|contradiction]. exists (count a). split; [reflexivity | exact Hnext].
  - apply IH. rewrite Hrec.
    destruct ((canAttempt_rules (restartAttempts w !! sessionId) now).2) as [a|];
      [exact Hnext | exact I].
Qed.

(** X3.  However often and at whatever times [canRestart] is called for
    a key, from a key without record on: after every call the key has a
    record, and its count lies between 1 and [MAX_RESTART_ATTEMPTS]. *)
Theorem canRestart_count_bounded (sessionId : string) (times : list Z) (w : World) :
  Forall (fun oc => ∃ c, oc.2 = Some c ∧ 1 <= c <= MAX_RESTART_ATTEMPTS)
         (restartTrace sessionId times (set_restartAttempts (delete sessionId) w)).
Proof.
  apply restartTrace_counts. simpl. rewrite lookup_delete_eq. exact I.
Qed.

Lemma restartsAllowed_cons (oc : bool * option Z) (trace : list (bool * option Z)) :
  restartsAllowed (oc :: trace)
  = ((if oc.1 then 1 else 0) + restartsAllowed trace)%nat.
Proof.
  unfold restartsAllowed. rewrite filter_cons.
  destruct oc as [[] c]; destruct (decide _) as [H|H]; simpl in *;
    first [reflexivity | discriminate H | exfalso; apply H; reflexivity].
Qed.

Lemma restartTrace_window (sessionId : string) (t0 : Z) (times : list Z) :
  ∀ w a,
    restartAttempts w !! sessionId = Some a ->
    firstAttempt a = t0 ->
    0 <= count a <= MAX_RESTART_ATTEMPTS ->
    Forall (fun t => t - t0 <= RESTART_RESET_MS) times ->
    (Z.of_nat (restartsAllowed (restartTrace sessionId times w))
     <= MAX_RESTART_ATTEMPTS - count a).
Proof.
  unfold MAX_RESTART_ATTEMPTS, RESTART_RESET_MS.
  induction times as [|now times IH]; intros w a Hrec Hfirst Hcount Htimes.
  - simpl. unfold restartsAllowed. simpl. lia.
  - apply Forall_cons in Htimes as [Hnow Htimes].
    rewrite restartTrace_cons, restartsAllowed_cons. cbn [fst].
    pose proof (canRestart_record sessionId now w) as Hnext.
    rewrite Hrec in *. unfold canAttempt_rules in *.
    rewrite bool_decide_eq_false_2 in * by lia.
    destruct (bool_decide (count a >= 3)) eqn:Hc; simpl in *.
    + apply bool_decide_eq_true in Hc.
      specialize (IH _ a Hnext Hfirst Hcount Htimes). lia.
    + apply bool_decide_eq_false in Hc.
      destruct (bool_decide (now - lastAttempt a < 30000)); simpl in *.
      * specialize (IH _ a Hnext Hfirst Hcount Htimes). lia.
      * specialize (IH _ _ Hnext Hfirst ltac:(simpl; lia) Htimes). simpl in IH. lia.
Qed.

(** X4.  Calls of [canRestart] for one key, the first at [t0] on a key
    without record, the others at any times up to [t0] plus
    [RESTART_RESET_MS]: at most [MAX_RESTART_ATTEMPTS] of them, the first
    included, are allowed. *)
Theorem canRestart_window_limit (sessionId : string) (t0 : Z) (times : list Z) (w : World) :
  Forall (fun t => t - t0 <= RESTART_RESET_MS) times ->
  (restartsAllowed
     (restartTrace sessionId (t0 :: times) (set_restartAttempts (delete sessionId) w))
   <= 3)%nat.
Proof.
  intros Htimes. rewrite restartTrace_cons, restartsAllowed_cons.
  pose proof (canRestart_record sessionId t0 (set_restartAttempts (delete sessionId) w))
    as Hrec.
  simpl restartAttempts in *. rewrite lookup_delete_eq in *. simpl in *.
  pose proof (restartTrace_window sessionId t0 times _ _ Hrec eq_refl
                ltac:(unfold MAX_RESTART_ATTEMPTS; simpl; lia) Htimes) as Hwin.
  unfold MAX_RESTART_ATTEMPTS in Hwin. simpl in Hwin. lia.
Qed.

Lemma canRestart_window_limit_witness :
  Forall (fun t => t - 0 <= RESTART_RESET_MS) [30000; 60000; 90000; 120000]
  ∧ restartTrace "C" [0; 30000; 60000; 90000; 120000]
      (set_restartAttempts (delete "C") emptyWorld)
    = [(true, Some 1); (true, Some 2); (true, Some 3); (false, Some 3); (false, Some 3)]
  ∧ (restartsAllowed
       (restartTrace "C" [0; 30000; 60000; 90000; 120000]%Z
          (set_restartAttempts (delete "C") emptyWorld)) <= 3)%nat.
Proof.
  assert (H : Forall (fun t => t - 0 <= RESTART_RESET_MS) [30000; 60000; 90000; 120000]).
  { unfold RESTART_RESET_MS. repeat constructor; lia. }
  split; [exact H|]. split; [vm_compute; reflexivity|].
  exact (canRestart_window_limit "C" 0 [30000; 60000; 90000; 120000] emptyWorld H).
Defined.


(** ** Operations run alone *)

Lemma run_step {R} (e : Ext) (es : list Ext) (w : World) (t : task R) :
  (∀ r, t ≠ Done r) -> run (e :: es) w t = run es (resume e w t).1 (resume e w t).2.
Proof.
  intros Hnot. destruct t as [r | g | busy g]; [exfalso; exact (Hnot r eq_refl) | |].
  - exact (run_Susp e es w g).
  - change (run (e :: es) w (Poll busy g))
      with (let (w', t') := resume e w (Poll busy g) in run es w' t').
    destruct (resume e w (Poll busy g)); reflexivity.
Qed.

Section Settles.
Context {R : Type} (P : Ext -> Prop).

Lemma settles_run (Q : World -> R -> Prop) (n : nat) (w : World) (t : task R) :
  settles P Q n w t ->
  ∀ es, Forall P es -> (n <= List.length es)%nat ->
        ∃ w' r, run es w t = Some (w', r) ∧ Q w' r.
Proof.
  intros H. induction H as [n w r HQ | n w t Hnot Hstep IH]; intros es HP Hlen.
  - exists w, r. split; [apply run_Done | exact HQ].
  - destruct es as [|e es]; [simpl in Hlen; lia|].
    apply Forall_cons in HP as [He HP]. simpl in Hlen.
    destruct (IH e He es HP ltac:(lia)) as (w' & r & Hrun & HQ).
    exists w', r. split; [|exact HQ]. rewrite run_step by exact Hnot. exact Hrun.
Qed.

Lemma settles_weaken (Q Q' : World -> R -> Prop) (n m : nat) (w : World) (t : task R) :
  settles P Q n w t -> (n <= m)%nat -> (∀ w' r, Q w' r -> Q' w' r) ->
  settles P Q' m w t.
Proof.
  intros H. revert m. induction H as [n w r HQ | n w t Hnot Hstep IH]; intros m Hm HQQ.
  - apply settles_Done, HQQ, HQ.
  - destruct m as [|m]; [lia|]. apply settles_step; [exact Hnot|].
    intros e He. apply IH; [exact He | lia | exact HQQ].
Qed.

Lemma settles_Susp (Q : World -> R -> Prop) (n : nat) (w : World)
    (k : Ext -> World -> seg R) :
  (∀ e, P e -> settles_seg P Q n (k e w)) -> settles P Q (S n) w (Susp k).
Proof. intros H. apply settles_step; [intros r; discriminate | exact H]. Qed.

Lemma settles_seg_Done (Q : World -> R -> Prop) (n : nat) (w : World) (r : R) :
  Q w r -> settles_seg P Q n (w, Done r).
Proof. intros H. apply settles_Done, H. Qed.

Lemma settles_seg_Susp (Q : World -> R -> Prop) (n : nat) (w : World)
    (k : Ext -> World -> seg R) :
  (∀ e, P e -> settles_seg P Q n (k e w)) -> settles_seg P Q (S n) (w, Susp k).
Proof. intros H. apply settles_Susp, H. Qed.

Lemma settles_Done_inv (Q : World -> R -> Prop) (n : nat) (w : World) (r : R) :
  settles P Q n w (Done r) -> Q w r.
Proof.
  intros H. inversion H as [n0 w0 r0 HQ | n0 w0 t0 Hnot Hstep]; subst.
  - exact HQ.
  - exfalso. exact (Hnot r eq_refl).
Qed.

Lemma settles_finally_rest (Q Q' : World -> R -> Prop) (fin : World -> World)
    (n : nat) (w1 : World) (t1 : task R) :
  (∀ w' r, Q w' r -> Q' (fin w') r) ->
  settles P Q n w1 t1 ->
  ((∀ r, t1 ≠ Done r) -> settles P Q' n w1 (finally_ t1 fin)) ->
  settles P Q' n
    (match t1 with Done r => (fin w1, Done r) | _ => (w1, finally_ t1 fin) end).1
    (match t1 with Done r => (fin w1, Done r) | _ => (w1, finally_ t1 fin) end).2.
Proof.
  intros Hfin H1 IH1. destruct t1 as [r | g | busy g]; cbn [fst snd].
  - apply settles_Done, Hfin. eapply settles_Done_inv, H1.
  - apply IH1. intros r; discriminate.
  - apply IH1. intros r; discriminate.
Qed.

Lemma settles_finally (Q Q' : World -> R -> Prop) (fin : World -> World)
    (n : nat) (w : World) (t : task R) :
  settles P Q n w t -> (∀ r, t ≠ Done r) ->
  (∀ w' r, Q w' r -> Q' (fin w') r) ->
  settles P Q' n w (finally_ t fin).
Proof.
  intros H. induction H as [n w r HQ | n w t Hnot Hstep IH]; intros Hun Hfin.
  - exfalso. exact (Hun r eq_refl).
  - destruct t as [r0 | g | busy g]; [exfalso; exact (Hnot r0 eq_refl) | |].
    + simpl. apply settles_step; [intros r; discriminate|]. intros e He. cbn [resume].
      specialize (Hstep e He). specialize (IH e He). cbn [resume] in Hstep, IH.
      destruct (g e w) as [w1 t1]. cbn [fst snd] in Hstep, IH.
      apply (settles_finally_rest Q Q'); [exact Hfin | exact Hstep |].
      intros Hun1. apply IH; assumption.
    + simpl. apply settles_step; [intros r; discriminate|]. intros e He.
      specialize (Hstep e He). specialize (IH e He). cbn [resume] in Hstep, IH |- *.
      destruct (busy w).
      * cbn [fst snd] in Hstep, IH |- *.
        apply IH; [intros r; discriminate | exact Hfin].
      * destruct (g e w) as [w1 t1]. cbn [fst snd] in Hstep, IH.
        apply (settles_finally_rest Q Q'); [exact Hfin | exact Hstep |].
        intros Hun1. apply IH; assumption.
Qed.

Lemma settles_finally_seg (Q Q' : World -> R -> Prop) (fin : World -> World)
    (n : nat) (s : seg R) :
  settles_seg P Q n s ->
  (∀ w' r, Q w' r -> Q' (fin w') r) ->
  settles_seg P Q' n (finally_seg s fin).
Proof.
  unfold settles_seg, finally_seg. destruct s as [w t]. cbn [fst snd]. intros H Hfin.
  destruct t as [r | g | busy g]; cbn [fst snd].
  - apply settles_Done, Hfin. eapply settles_Done_inv, H.
  - eapply settles_finally; [exact H | intros r; discriminate | exact Hfin].
  - eapply settles_finally; [exact H | intros r; discriminate | exact Hfin].
Qed.
End Settles.

Lemma settles_await {A R} (P : Ext -> Prop) (QA : World -> A -> Prop)
    (Q : World -> R -> Prop) (n m : nat) (w : World) (t : task A)
    (k : A -> Ext -> World -> seg R) :
  settles P QA n w t ->
  (∀ w1 a e, P e -> QA w1 a -> settles_seg P Q m (k a e w1)) ->
  settles P Q (n + S m) w (await_ t k).
Proof.
  intros H Hk. induction H as [n w a HQ | n w t Hnot Hstep IH].
  - simpl. apply (settles_weaken P Q Q (S m)); [|lia|auto].
    apply settles_Susp. intros e He. apply Hk; assumption.
  - destruct t as [r0 | g | busy g]; [exfalso; exact (Hnot r0 eq_refl) | |].
    + simpl. apply settles_step; [intros r; discriminate|]. intros e He. cbn [resume].
      specialize (IH e He). cbn [resume] in IH. destruct (g e w) as [w1 t1]. exact IH.
    + simpl. apply settles_step; [intros r; discriminate|]. intros e He.
      specialize (IH e He). cbn [resume] in *. destruct (busy w).
      * exact IH.
      * destruct (g e w) as [w1 t1]. exact IH.
Qed.

Lemma settles_call_await {A R} (P : Ext -> Prop) (QA : World -> A -> Prop)
    (Q : World -> R -> Prop) (n m : nat) (s : seg A)
    (k : A -> Ext -> World -> seg R) :
  settles_seg P QA n s ->
  (∀ w1 a e, P e -> QA w1 a -> settles_seg P Q m (k a e w1)) ->
  settles_seg P Q (n + S m) (call_await s k).
Proof. intros H Hk. unfold settles_seg, call_await. cbn [fst snd]. eapply settles_await; eassumption. Qed.

Lemma settles_acquire {R} (P : Ext -> Prop) (Q : World -> R -> Prop) (n : nat)
    (sessionId : string) (w : World) (body : Ext -> World -> seg R) :
  sessionLocks w !! sessionId = None ->
  (∀ e, P e -> settles_seg P Q n (body e (set_sessionLocks (insert sessionId true) w))) ->
  settles P Q (S (S n)) w (acquireSessionLock sessionId body).
Proof.
  intros Hfree Hbody. unfold acquireSessionLock.
  apply settles_step; [intros r; discriminate|]. intros e He. cbn [resume].
  unfold lockHeld. rewrite Hfree. cbn [fst snd].
  apply settles_Susp. exact Hbody.
Qed.


Lemma same_registry_refl (w : World) : same_registry w w.
Proof. repeat split. Qed.

Lemma same_registry_trans (w1 w2 w3 : World) :
  same_registry w1 w2 -> same_registry w2 w3 -> same_registry w1 w3.
Proof. unfold same_registry. intros (? & ? & ? & ?) (? & ? & ? & ?). repeat split; congruence. Qed.

(** *** The orphan reaper *)

Section Reaper.
Context (P : Ext -> Prop) (cfg : Config) (sessionId : string) (w : World).

Lemma orphan_after_unlink_settles (w1 : World) (n : nat) :
  same_registry w w1 ->
  is_Some (fs w !! singletonLockPath cfg sessionId) ->
  fs w1 = fs w ->
  ((signals w1 = signals w ∧ procs w1 = procs w
    ∧ ((∀ e, P e -> killAllowed e = true) ->
       ∀ pid, lockPid (fs w !! singletonLockPath cfg sessionId) = Some pid ->
              pid ≠ 0 -> is_Some (procs w !! pid) -> False))
   ∨ ∃ pid, lockPid (fs w !! singletonLockPath cfg sessionId) = Some pid
            ∧ pid ≠ 0 ∧ is_Some (procs w !! pid)
            ∧ signals w1 = pid :: signals w ∧ procs w1 = delete pid (procs w)) ->
  settles_seg P (reaper_post P cfg sessionId w) (S n)
    (w1, Susp (orphan_after_unlink cfg sessionId)).
Proof.
  intros Hreg Hlock Hfs Hkill. apply settles_seg_Susp. intros e He.
  unfold orphan_after_unlink. apply settles_seg_Done. exists true.
  split; [reflexivity|].
  set (w2 := if unlinkOk e then set_fs (delete (singletonLockPath cfg sessionId)) w1 else w1).
  assert (Hsame : sessions w2 = sessions w1 ∧ pendingSessions w2 = pendingSessions w1
            ∧ sessionLocks w2 = sessionLocks w1 ∧ restartAttempts w2 = restartAttempts w1
            ∧ signals w2 = signals w1 ∧ procs w2 = procs w1).
  { subst w2. destruct (unlinkOk e); repeat split. }
  destruct Hsame as (Hs & Hp & Hl & Hr & Hsig & Hpr).
  split; [|split].
  - split; [|split; [|split; [|split]]].
    + destruct Hreg as (? & ? & ? & ?). repeat split; congruence.
    + split; [intros _; exact Hlock | reflexivity].
    + discriminate.
    + subst w2. destruct (unlinkOk e); simpl; [right; rewrite Hfs; reflexivity | left; exact Hfs].
    + rewrite Hsig, Hpr.
      destruct Hkill as [(Hsg & Hpc & _) | Hkilled]; [left; split; assumption | right; exact Hkilled].
  - intros Hall _. subst w2. rewrite (Hall e He). simpl. rewrite Hfs. reflexivity.
  - intros Hallowed pid Hpid Hne Hlive. rewrite Hsig, Hpr.
    destruct Hkill as [(_ & _ & Hno) | (pid' & Hpid' & _ & _ & Hsig' & Hpr')].
    + exfalso. exact (Hno Hallowed pid Hpid Hne Hlive).
    + assert (pid' = pid) as -> by congruence. split; assumption.
Qed.

Lemma killOrphaned_settles :
  settles_seg P (reaper_post P cfg sessionId w) 4
    (killOrphanedBrowserByLockFile cfg sessionId w).
Proof.
  unfold killOrphanedBrowserByLockFile. apply settles_seg_Susp. intros e1 He1.
  unfold orphan_after_lstat.
  destruct (fs w !! singletonLockPath cfg sessionId) as [node|] eqn:Hlock.
  2:{ apply settles_seg_Done. exists false. split; [reflexivity|].
      split; [|split].
      - split; [apply same_registry_refl|]. split.
        + split; [discriminate | intros [x Hx]; rewrite Hlock in Hx; discriminate Hx].
        + split; [reflexivity|]. split; [left; reflexivity|]. left. split; reflexivity.
      - intros _ [=].
      - intros _ pid Hpid. rewrite Hlock in Hpid. discriminate Hpid. }
  assert (Hsome : is_Some (fs w !! singletonLockPath cfg sessionId))
    by (rewrite Hlock; eauto).
  apply settles_seg_Susp. intros e2 He2. unfold orphan_after_readlink. rewrite Hlock.
  destruct (lockPid (Some node)) as [pid|] eqn:Hpid.
  2:{ apply orphan_after_unlink_settles;
        [apply same_registry_refl | exact Hsome | reflexivity |].
      left. rewrite Hlock, Hpid. repeat split. intros _ pid [=]. }
  case_bool_decide as Hzero.
  { apply orphan_after_unlink_settles;
      [apply same_registry_refl | exact Hsome | reflexivity |].
    left. rewrite Hlock, Hpid. repeat split. intros _ pid' [= <-] Hne. contradiction. }
  destruct (procs w !! pid) as [owner|] eqn:Hlive.
  2:{ apply orphan_after_unlink_settles;
        [apply same_registry_refl | exact Hsome | reflexivity |].
      left. rewrite Hlock, Hpid. repeat split. intros _ pid' [= <-] _ [x Hx].
      rewrite Hlive in Hx. discriminate. }
  destruct (killAllowed e2) eqn:Hallowed.
  2:{ apply orphan_after_unlink_settles;
        [apply same_registry_refl | exact Hsome | reflexivity |].
      left. rewrite Hlock, Hpid. repeat split. intros Hall.
      rewrite (Hall e2 He2) in Hallowed. discriminate. }
  apply settles_seg_Susp. intros e3 He3.
  apply orphan_after_unlink_settles; [repeat split | exact Hsome | reflexivity |].
  right. exists pid. rewrite Hlock. repeat split; auto.
Qed.
End Reaper.

(** X5.  [killOrphanedBrowserByLockFile] run to its end on any answers:
    it gives [false] and changes nothing when the session folder holds no
    [SingletonLock], and [true] otherwise; it never touches the four
    tables; of the file system it removes at most the lock, and does
    remove it when [unlink] succeeds; and it sends at most one signal,
    a SIGKILL to the pid the lock names, which it does send whenever that
    pid is not 0, names a live process and the process may be signalled,
    whoever owns the process. *)
Theorem killOrphaned_effects (cfg : Config) (sessionId : string) (w : World)
    (es : list Ext) :
  (4 <= List.length es)%nat ->
  ∃ w' b,
    run_seg es (killOrphanedBrowserByLockFile cfg sessionId w)
    = Some (w', Resolved (VBool b))
    ∧ reaped cfg sessionId w w' b
    ∧ (Forall (fun e => unlinkOk e = true) es -> b = true ->
       fs w' = delete (singletonLockPath cfg sessionId) (fs w))
    ∧ (Forall (fun e => killAllowed e = true) es ->
       ∀ pid, lockPid (fs w !! singletonLockPath cfg sessionId) = Some pid ->
              pid ≠ 0 -> is_Some (procs w !! pid) ->
              signals w' = pid :: signals w ∧ procs w' = delete pid (procs w)).
Proof.
  intros Hlen.
  destruct (settles_run (fun e => e ∈ es) _ _ _ _
              (killOrphaned_settles (fun e => e ∈ es) cfg sessionId w) es)
    as (w' & r & Hrun & b & -> & Hreaped & Hunlink & Hkill);
    [apply Forall_forall; auto | exact Hlen |].
  exists w', b. split; [exact Hrun|]. split; [exact Hreaped|]. split.
  - intros Hall. apply Hunlink. apply Forall_forall, Hall.
  - intros Hall. apply Hkill. apply Forall_forall, Hall.
Qed.

Lemma killOrphaned_effects_witness :
  (4 <= List.length (replicate 4 quietExt))%nat
  ∧ lockPid (fs reusedPidWorld !! singletonLockPath posixConfig "C") = Some 4242
  ∧ ∃ w', run_seg (replicate 4 quietExt)
                  (killOrphanedBrowserByLockFile posixConfig "C" reusedPidWorld)
          = Some (w', Resolved (VBool true))
        ∧ same_registry reusedPidWorld w'
        ∧ signals w' = 4242 :: signals reusedPidWorld.
Proof.
  assert (Hlen : (4 <= List.length (replicate 4 quietExt))%nat) by (simpl; lia).
  assert (Hpid : lockPid (fs reusedPidWorld !! singletonLockPath posixConfig "C")
                 = Some 4242) by (vm_compute; reflexivity).
  split; [exact Hlen|]. split; [exact Hpid|].
  destruct (killOrphaned_effects posixConfig "C" reusedPidWorld (replicate 4 quietExt) Hlen)
    as (w' & b & Hrun & Hreaped & _ & Hkill).
  assert (Hb : b = true).
  { apply (proj1 (proj2 Hreaped)). vm_compute. eauto. }
  subst b. exists w'. split; [exact Hrun|]. split; [exact (proj1 Hreaped)|].
  apply (Hkill ltac:(simpl; repeat constructor) 4242 Hpid ltac:(lia)).
  vm_compute. eauto.
Defined.


(** *** Setup *)

Lemma pending_reserve_drop (sessionId : string) (s : gset string) :
  sessionId ∉ s -> ({[sessionId]} ∪ s) ∖ {[sessionId]} = s.
Proof.
  intros Hnot. apply set_eq; intros x.
  rewrite elem_of_difference, elem_of_union, elem_of_singleton.
  split; [tauto|]. intros Hx. split; [auto|]. intros ->; contradiction.
Qed.

Section SetupAlone.
Context (P : Ext -> Prop) (cfg : Config) (sessionId : string) (w : World).
Context (e0 : Ext) (HP0 : P e0) (Hconstruct : constructOk e0 = true).
Context (Hsess : sessions w !! sessionId = None) (Hpend : sessionId ∉ pendingSessions w).

(** The worlds a setup passes through once it has made the reservation. *)
Local Abbreviation reserved w1 :=
  (sessions w1 = sessions w
   ∧ pendingSessions w1 = {[sessionId]} ∪ pendingSessions w
   ∧ sessionLocks w1 = sessionLocks w
   ∧ restartAttempts w1 = restartAttempts w
   ∧ procs w1 = procs w
   ∧ signals w1 = signals w).

Lemma setup_failure_post (w1 : World) (msg : string) :
  sessions w1 = sessions w ->
  pendingSessions w1 = {[sessionId]} ∪ pendingSessions w ->
  sessionLocks w1 = sessionLocks w ->
  restartAttempts w1 = restartAttempts w ->
  (fs w1 = fs w ∨ fs w1 = delete (singletonLockPath cfg sessionId) (fs w)) ->
  ((∀ e, P e -> launchSucceeds e) -> False) ->
  setup_post P cfg sessionId w
    (set_pendingSessions (fun s => s ∖ {[sessionId]}) w1)
    (Resolved (VSetup false msg None)).
Proof.
  intros Hs Hp Hl Hr Hfs Hno. exists false, msg, None. split; [reflexivity|]. simpl.
  rewrite Hp, (pending_reserve_drop _ _ Hpend).
  repeat split; auto; try discriminate;
    try (rewrite Hsess; reflexivity); try (intros Hok _; exfalso; exact (Hno Hok)).
Qed.

Lemma setup_after_initialize_settles (w1 : World) (n : nat) :
  reserved w1 ->
  fs w1 = (if releaseBrowserLock cfg
           then delete (singletonLockPath cfg sessionId) (fs w) else fs w) ->
  settles_seg P (setup_post P cfg sessionId w) (S (S n))
    (w1, Susp (setup_after_initialize sessionId)).
Proof.
  intros (Hs & Hp & Hl & Hr & Hpr & Hsg) Hfs.
  assert (Hfs' : fs w1 = fs w ∨ fs w1 = delete (singletonLockPath cfg sessionId) (fs w)).
  { rewrite Hfs. destruct (releaseBrowserLock cfg); auto. }
  apply settles_seg_Susp. intros e He. unfold setup_after_initialize.
  destruct (launch e) as [pid | partial err] eqn:Hlaunch.
  - apply settles_seg_Done. exists true, "Session initiated successfully",
      (Some (mkClient (Some pid))). split; [reflexivity|]. simpl.
    rewrite Hp, (pending_reserve_drop _ _ Hpend), Hs, Hpr.
    repeat split; auto; try discriminate.
    + exists pid. repeat split; auto.
    + intros [partial [err Hfail]]%(fun H => H e He). congruence.
    + intros pid0 Hpid0 _. rewrite (Hpid0 e He) in Hlaunch. congruence.
  - apply settles_seg_Susp. intros e' He'. unfold setup_after_kill.
    apply settles_seg_Done.
    assert (Hkilled : ∀ w2, w2 = killBrowserProcess (mkClient partial)
                              (match partial with Some pid => spawn pid sessionId w1
                                             | None => w1 end) ->
              sessions w2 = sessions w1 ∧ pendingSessions w2 = pendingSessions w1
              ∧ sessionLocks w2 = sessionLocks w1 ∧ restartAttempts w2 = restartAttempts w1
              ∧ fs w2 = fs w1).
    { intros w2 ->. unfold killBrowserProcess.
      destruct partial as [pid|]; simpl; [|repeat split].
      rewrite lookup_insert_eq. repeat split. }
    destruct (Hkilled _ eq_refl) as (Hs2 & Hp2 & Hl2 & Hr2 & Hfs2).
    apply setup_failure_post; try congruence.
    intros Hok. destruct (Hok e He) as [[pid Hpid] _]. congruence.
Qed.

Lemma setupSession_fresh_settles :
  settles_seg P (setup_post P cfg sessionId w) 4 (setupSession_call cfg sessionId e0 w).
Proof.
  unfold setupSession_call. rewrite Hsess, bool_decide_eq_false_2 by exact Hpend.
  rewrite Hconstruct. cbv zeta.
  assert (Hres : reserved (set_pendingSessions (fun s => {[sessionId]} ∪ s) w))
    by (repeat split).
  destruct (releaseBrowserLock cfg) eqn:Hrbl.
  2:{ apply setup_after_initialize_settles; [exact Hres|]. rewrite Hrbl. reflexivity. }
  apply settles_seg_Susp. intros e1 He1. unfold setup_after_lstat. cbn [fs sessions set_pendingSessions].
  rewrite Hsess.
  destruct (fs w !! singletonLockPath cfg sessionId) as [node|] eqn:Hlock.
  2:{ apply setup_after_initialize_settles; [exact Hres|]. rewrite Hrbl. simpl.
      symmetry. apply delete_id. exact Hlock. }
  apply settles_seg_Susp. intros e2 He2. unfold setup_after_unlink.
  destruct (unlinkOk e2) eqn:Hunlink.
  - apply setup_after_initialize_settles; [repeat split|]. rewrite Hrbl. reflexivity.
  - apply settles_seg_Done. apply setup_failure_post; auto.
    intros Hok. destruct (Hok e2 He2) as (_ & Hu & _). congruence.
Qed.
End SetupAlone.

Lemma setupSession_call_settles (P : Ext -> Prop) (cfg : Config) (sessionId : string)
    (e : Ext) (w : World) :
  P e -> settles_seg P (setup_post P cfg sessionId w) 4 (setupSession_call cfg sessionId e w).
Proof.
  intros He.
  destruct (sessions w !! sessionId) as [client|] eqn:Hsess.
  { unfold setupSession_call. rewrite Hsess. apply settles_seg_Done.
    eexists false, _, (Some client). split; [reflexivity|].
    repeat split; auto; try discriminate.
    intros _ [Habs _]. congruence. }
  destruct (decide (sessionId ∈ pendingSessions w)) as [Hin|Hnot].
  { unfold setupSession_call. rewrite Hsess, bool_decide_eq_true_2 by exact Hin.
    apply settles_seg_Done. eexists false, _, None. split; [reflexivity|].
    repeat split; auto; try discriminate.
    intros _ [_ Habs]. contradiction. }
  destruct (constructOk e) eqn:Hc.
  { apply (setupSession_fresh_settles P cfg sessionId w e); assumption. }
  unfold setupSession_call. rewrite Hsess, bool_decide_eq_false_2, Hc by exact Hnot.
  cbv zeta. apply settles_seg_Done.
  apply (setup_failure_post P cfg sessionId w Hsess Hnot); auto.
  intros Hok. destruct (Hok e He) as (_ & _ & Hc'). congruence.
Qed.

Lemma setupSession_settles (P : Ext -> Prop) (cfg : Config) (sessionId : string) (w : World) :
  settles P (setup_post P cfg sessionId w) 5 w (setupSession cfg sessionId).
Proof.
  unfold setupSession. apply settles_Susp. intros e He.
  apply setupSession_call_settles, He.
Qed.


(** X6.  [setupSession] run alone from any world, on any answers: it
    settles within five segments and never rejects; whichever way it
    ends, no reservation of its own is left ([pendingSessions] is as
    before) and the lock and restart tables are untouched; it reports
    success only for a key that was ABSENT, and has then registered the
    client it returns, whose browser is the one new process; when it
    reports failure the registry is as before, and the [client] field is
    the registered client, if there is one. *)
Theorem setupSession_contract (cfg : Config) (sessionId : string) (w : World)
    (es : list Ext) :
  (5 <= List.length es)%nat ->
  ∃ w' ok msg c,
    run es w (setupSession cfg sessionId) = Some (w', Resolved (VSetup ok msg c))
    ∧ pendingSessions w' = pendingSessions w
    ∧ sessionLocks w' = sessionLocks w
    ∧ restartAttempts w' = restartAttempts w
    ∧ (ok = true ->
       isAbsent sessionId w
       ∧ ∃ pid, c = Some (mkClient (Some pid))
                ∧ sessions w' = <[sessionId := mkClient (Some pid)]> (sessions w)
                ∧ procs w' = <[pid := sessionId]> (procs w)
                ∧ signals w' = signals w)
    ∧ (ok = false -> sessions w' = sessions w ∧ c = sessions w !! sessionId).
Proof.
  intros Hlen.
  destruct (settles_run (fun e => e ∈ es) _ _ _ _
              (setupSession_settles (fun e => e ∈ es) cfg sessionId w) es)
    as (w' & r & Hrun & ok & msg & c & -> & Hp & Hl & Hr & _ & Hok & Hfail & _);
    [apply Forall_forall; auto | exact Hlen |].
  exists w', ok, msg, c. split; [exact Hrun|]. repeat (split; [assumption|]).
  split; [|exact Hfail].
  intros Htrue. destruct (Hok Htrue) as (Habs & _ & pid & Hc & Hs & Hpr & Hsg & _).
  split; [exact Habs|]. exists pid. repeat split; assumption.
Qed.

Lemma setupSession_contract_witness :
  (5 <= List.length (replicate 5 failingExt))%nat
  ∧ ∃ w' msg, run (replicate 5 failingExt) reusedPidWorld (setupSession posixConfig "C")
              = Some (w', Resolved (VSetup false msg None))
            ∧ pendingSessions w' = pendingSessions reusedPidWorld
            ∧ sessions w' = sessions reusedPidWorld.
Proof.
  assert (Hlen : (5 <= List.length (replicate 5 failingExt))%nat) by (simpl; lia).
  split; [exact Hlen|].
  destruct (setupSession_contract posixConfig "C" reusedPidWorld (replicate 5 failingExt) Hlen)
    as (w' & ok & msg & c & Hrun & Hp & _ & _ & _ & Hfail).
  assert (Hres : run (replicate 5 failingExt) reusedPidWorld (setupSession posixConfig "C")
                 = Some (w', Resolved (VSetup ok msg c))) by exact Hrun.
  vm_compute in Hrun. injection Hrun as _ Hok Hmsg Hc. subst ok c.
  exists w', msg. split; [exact Hres|]. split; [exact Hp|]. exact (proj1 (Hfail eq_refl)).
Defined.

Lemma launchGives_succeeds (pid : Z) (e : Ext) :
  launchGives pid e -> launchSucceeds e.
Proof. intros (Hl & Hu & Hc). split; [exists pid; exact Hl | split; assumption]. Qed.

(** X7.  [setupSession] run alone on an ABSENT key, on answers under
    which the client can be built, a stale lock can be removed and the
    launch gives the browser [pid]: it reports success with that client;
    the key is ACTIVE with it and no reservation is left; the browser is
    the one new process and nothing is signalled; and with
    [releaseBrowserLock] set, a [SingletonLock] left in the session
    folder has been removed before the launch, while without it the file
    system is not touched. *)
Theorem setupSession_success (cfg : Config) (sessionId : string) (w : World)
    (pid : Z) (es : list Ext) :
  isAbsent sessionId w ->
  Forall (launchGives pid) es ->
  (5 <= List.length es)%nat ->
  ∃ w',
    run es w (setupSession cfg sessionId) = Some (w', won pid)
    ∧ sessions w' = <[sessionId := mkClient (Some pid)]> (sessions w)
    ∧ pendingSessions w' = pendingSessions w
    ∧ sessionLocks w' = sessionLocks w
    ∧ restartAttempts w' = restartAttempts w
    ∧ procs w' = <[pid := sessionId]> (procs w)
    ∧ signals w' = signals w
    ∧ fs w' = (if releaseBrowserLock cfg
               then delete (singletonLockPath cfg sessionId) (fs w)
               else fs w).
Proof.
  intros Habs Hes Hlen.
  destruct (settles_run (launchGives pid) _ _ _ _
              (setupSession_settles (launchGives pid) cfg sessionId w) es Hes Hlen)
    as (w' & r & Hrun & ok & msg & c & -> & Hp & Hl & Hr & _ & Hok & _ & Hgo & _ & Hpid).
  assert (Htrue : ok = true).
  { apply Hgo; [|exact Habs]. intros e He. eapply launchGives_succeeds, He. }
  destruct (Hok Htrue) as (_ & Hmsg & pid' & Hc & Hs & Hpr & Hsg & Hfs).
  assert (Hc' : c = Some (mkClient (Some pid))).
  { apply Hpid; [|exact Htrue]. intros e He. exact (proj1 He). }
  assert (pid' = pid) as -> by congruence.
  exists w'. subst ok c msg. split; [exact Hrun|]. repeat split; assumption.
Qed.

Lemma setupSession_success_witness :
  isAbsent "C" reusedPidWorld
  ∧ Forall (launchGives 1) (replicate 5 quietExt)
  ∧ fs reusedPidWorld !! singletonLockPath posixConfig "C" = Some (Symlink "host-4242")
  ∧ ∃ w', run (replicate 5 quietExt) reusedPidWorld (setupSession posixConfig "C")
          = Some (w', won 1)
        ∧ sessions w' !! "C" = Some (mkClient (Some 1))
        ∧ fs w' !! singletonLockPath posixConfig "C" = None.
Proof.
  assert (Habs : isAbsent "C" reusedPidWorld).
  { split; [vm_compute; reflexivity | apply not_elem_of_empty]. }
  assert (Hes : Forall (launchGives 1) (replicate 5 quietExt)).
  { simpl. repeat constructor. }
  split; [exact Habs|]. split; [exact Hes|]. split; [vm_compute; reflexivity|].
  destruct (setupSession_success posixConfig "C" reusedPidWorld 1 (replicate 5 quietExt)
              Habs Hes ltac:(simpl; lia))
    as (w' & Hrun & Hs & _ & _ & _ & _ & _ & Hfs).
  exists w'. split; [exact Hrun|]. split.
  - rewrite Hs. apply lookup_insert_eq.
  - rewrite Hfs. simpl. apply lookup_delete_eq.
Defined.


Lemma reserve_drop_world (sessionId : string) (w : World) :
  sessionId ∉ pendingSessions w ->
  set_pendingSessions (fun s => s ∖ {[sessionId]})
    (set_pendingSessions (fun s => {[sessionId]} ∪ s) w) = w.
Proof.
  intros Hnot. destruct w as [s p l r f pr sg]. unfold set_pendingSessions. simpl in *.
  rewrite (pending_reserve_drop _ _ Hnot). reflexivity.
Qed.

(** X8.  [setupSession] on an ABSENT key, with [releaseBrowserLock] set
    and a [SingletonLock] in the session folder that cannot be removed
    ([unlink] rejects): the call gives up before any browser is
    launched, reports the failure with the message of that error, and
    leaves the world, the lock file included, exactly as it found it. *)
Theorem setupSession_lock_unremovable (cfg : Config) (sessionId : string) (w : World)
    (e1 e2 e3 : Ext) (es : list Ext) :
  isAbsent sessionId w ->
  releaseBrowserLock cfg = true ->
  is_Some (fs w !! singletonLockPath cfg sessionId) ->
  constructOk e1 = true ->
  unlinkOk e3 = false ->
  run (e1 :: e2 :: e3 :: es) w (setupSession cfg sessionId)
  = Some (w, Resolved (VSetup false (errorMessage e3) None)).
Proof.
  intros [Hsess Hpend] Hrbl [node Hlock] Hc Hu.
  unfold setupSession. rewrite run_Susp. unfold setupSession_call.
  rewrite Hsess, bool_decide_eq_false_2, Hc, Hrbl by exact Hpend. cbv zeta. cbn [fst snd].
  rewrite run_Susp. unfold setup_after_lstat. cbn [fs sessions set_pendingSessions].
  rewrite Hlock, Hsess. cbn [fst snd].
  rewrite run_Susp. unfold setup_after_unlink. rewrite Hu. cbn [fst snd].
  rewrite run_Done, (reserve_drop_world _ _ Hpend). reflexivity.
Qed.

Lemma setupSession_lock_unremovable_witness :
  isAbsent "C" reusedPidWorld
  ∧ releaseBrowserLock posixConfig = true
  ∧ is_Some (fs reusedPidWorld !! singletonLockPath posixConfig "C")
  ∧ run [quietExt; quietExt; lockedExt] reusedPidWorld (setupSession posixConfig "C")
    = Some (reusedPidWorld,
            Resolved (VSetup false "EPERM: operation not permitted, unlink" None)).
Proof.
  assert (Habs : isAbsent "C" reusedPidWorld).
  { split; [vm_compute; reflexivity | apply not_elem_of_empty]. }
  assert (Hlock : is_Some (fs reusedPidWorld !! singletonLockPath posixConfig "C")).
  { vm_compute. eauto. }
  split; [exact Habs|]. split; [reflexivity|]. split; [exact Hlock|].
  exact (setupSession_lock_unremovable posixConfig "C" reusedPidWorld
           quietExt quietExt lockedExt [] Habs eq_refl Hlock eq_refl eq_refl).
Defined.


(** *** Teardown *)

Lemma settles_seg_weaken {R} (P : Ext -> Prop) (Q Q' : World -> R -> Prop) (n m : nat)
    (s : seg R) :
  settles_seg P Q n s -> (n <= m)%nat -> (∀ w' r, Q w' r -> Q' w' r) ->
  settles_seg P Q' m s.
Proof. unfold settles_seg. apply settles_weaken. Qed.

Lemma guarded_settles {R} (P : Ext -> Prop) (Qb Q : World -> R -> Prop) (n : nat)
    (sessionId : string) (w : World) (body : Ext -> World -> seg R) :
  sessionLocks w !! sessionId = None ->
  (∀ e, P e -> settles_seg P Qb n (body e (set_sessionLocks (insert sessionId true) w))) ->
  (∀ w' r, Qb w' r -> Q (releaseSessionLock sessionId w') r) ->
  settles P Q (S (S n)) w
    (acquireSessionLock sessionId
       (fun e w => finally_seg (body e w) (releaseSessionLock sessionId))).
Proof.
  intros Hfree Hbody Hfin. apply settles_acquire; [exact Hfree|].
  intros e He. eapply settles_finally_seg; [apply Hbody, He | exact Hfin].
Qed.

Lemma lock_given_back (sessionId : string) (w w' : World) :
  sessionLocks w !! sessionId = None ->
  sessionLocks w' = sessionLocks (set_sessionLocks (insert sessionId true) w) ->
  sessionLocks (releaseSessionLock sessionId w') = sessionLocks w.
Proof.
  intros Hfree Hl. simpl. rewrite Hl. simpl.
  rewrite delete_insert_eq. apply delete_id, Hfree.
Qed.

Lemma wait_disconnect_settles {R} (P : Ext -> Prop) (Q : World -> R -> Prop) (m : nat)
    (after : bool -> Ext -> World -> seg R) (w : World) :
  (∀ b e, P e -> b = browserConnected e -> settles_seg P Q m (after b e w)) ->
  ∀ ticks e, P e -> settles_seg P Q (ticks + m) (wait_disconnect ticks after e w).
Proof.
  intros Hafter. induction ticks as [|n IH]; intros e He; simpl.
  - destruct (browserConnected e) eqn:Hc; apply Hafter; auto.
  - destruct (browserConnected e) eqn:Hc.
    + apply settles_seg_Susp. intros e' He'. apply IH, He'.
    + eapply settles_seg_weaken; [apply (Hafter false e He); auto | lia | auto].
Qed.

Lemma killBrowserProcess_may_kill (client : Client) (w : World) :
  may_kill client w (killBrowserProcess client w)
  ∧ same_registry w (killBrowserProcess client w)
  ∧ fs (killBrowserProcess client w) = fs w.
Proof.
  unfold killBrowserProcess, may_kill.
  destruct (pupBrowser client) as [pid|]; [|repeat split; left; split; reflexivity].
  destruct (procs w !! pid) as [owner|] eqn:Hlive; [|repeat split; left; split; reflexivity].
  repeat split. right. exists pid. rewrite Hlive. repeat split; eauto.
Qed.

Lemma may_kill_refl (client : Client) (w : World) : may_kill client w w.
Proof. left. split; reflexivity. Qed.

(** **** [deleteSessionFolder] *)

Lemma deleteSessionFolder_settles (P : Ext -> Prop) (cfg : Config) (sessionId : string)
    (w : World) :
  settles_seg P (folder_post P cfg sessionId w) 3 (deleteSessionFolder cfg sessionId w).
Proof.
  assert (Hsame : ∀ r, (r = Resolved VUndefined ∨ ∃ err, r = Rejected err) ->
            (∀ err, (∀ e, P e -> folderMissing cfg sessionId err e) ->
                    r = Rejected err ∧ fs w = fs w) ->
            (∀ dir root, (∀ e, P e -> folderResolves cfg sessionId dir root e) ->
                         String.prefix (safeSessionPath cfg root) dir = true ->
                         r = Resolved VUndefined
                         ∧ ∀ p, under cfg dir p = true -> fs w !! p = None) ->
            folder_post P cfg sessionId w w r).
  { intros r Hr Hmiss Hres. split; [apply same_registry_refl|].
    split; [reflexivity|]. split; [reflexivity|]. split; [intros p; left; reflexivity|].
    split; [exact Hr|]. split; [exact Hmiss | exact Hres]. }
  unfold deleteSessionFolder. apply settles_seg_Susp. intros e1 He1.
  unfold folder_after_realpath_target.
  destruct (realpath e1 (targetDirPath cfg sessionId)) as [dir|] eqn:Hdir.
  2:{ apply settles_seg_Done. apply Hsame; [right; eauto | |].
      - intros err Hmiss. destruct (Hmiss e1 He1) as [_ <-]. auto.
      - intros dir root Hres. destruct (Hres e1 He1) as (Hd & _). congruence. }
  apply settles_seg_Susp. intros e2 He2. unfold folder_after_realpath_root.
  destruct (realpath e2 (sessionFolderPath cfg)) as [root|] eqn:Hroot.
  2:{ apply settles_seg_Done. apply Hsame; [right; eauto | |].
      - intros err Hmiss. destruct (Hmiss e1 He1) as [Hd _]. congruence.
      - intros dir' root Hres. destruct (Hres e2 He2) as (_ & Hr & _). congruence. }
  destruct (String.prefix (safeSessionPath cfg root) dir) eqn:Hguard.
  2:{ apply settles_seg_Done. apply Hsame; [right; eauto | |].
      - intros err Hmiss. destruct (Hmiss e1 He1) as [Hd _]. congruence.
      - intros dir' root' Hres Hpre. destruct (Hres e1 He1) as (Hd & _).
        destruct (Hres e2 He2) as (_ & Hr & _). congruence. }
  apply settles_seg_Susp. intros e3 He3. unfold folder_after_rm.
  destruct (rmOk e3) eqn:Hrm; apply settles_seg_Done.
  - split; [repeat split|]. split; [reflexivity|]. split; [reflexivity|]. split; [|split; [|split]].
    + intros p. simpl.
      destruct (filter_removes cfg dir (fs w) p) as [[Hp | [Hp _]] _]; auto.
    + left. reflexivity.
    + intros err Hmiss. destruct (Hmiss e1 He1) as [Hd _]. congruence.
    + intros dir' root' Hres Hpre. split; [reflexivity|].
      intros p Hu. destruct (Hres e1 He1) as (Hd & _). simpl.
      assert (dir' = dir) as -> by congruence.
      apply (filter_removes cfg dir (fs w) p), Hu.
  - split; [repeat split|]. split; [reflexivity|]. split; [reflexivity|]. split; [|split; [|split]].
    + intros p. simpl.
      destruct (filter_keeps_or_removes cfg dir (rmSurvives e3) (fs w) p)
        as [Hp | [Hp _]]; auto.
    + right. eauto.
    + intros err Hmiss. destruct (Hmiss e1 He1) as [Hd _]. congruence.
    + intros dir' root' Hres Hpre. destruct (Hres e3 He3) as (_ & _ & Hrm'). congruence.
Qed.


(** **** A key without client *)

Lemma only_removes_refl (w : World) : only_removes w w.
Proof. intros p. left. reflexivity. Qed.

Lemma only_removes_trans (w1 w2 w3 : World) :
  only_removes w1 w2 -> only_removes w2 w3 -> only_removes w1 w3.
Proof.
  intros H12 H23 p. destruct (H23 p) as [H | H]; [|right; exact H].
  rewrite H. apply H12.
Qed.

Lemma only_removes_fs (w w' : World) :
  (fs w' = fs w ∨ ∃ p, fs w' = delete p (fs w)) -> only_removes w w'.
Proof.
  intros [H | [q H]] p; rewrite H; [left; reflexivity|].
  destruct (decide (q = p)) as [->|Hne].
  - right. apply lookup_delete_eq.
  - left. apply lookup_delete_ne, Hne.
Qed.

Section OrphanTeardown.
Context (P : Ext -> Prop) (cfg : Config) (sessionId : string).

Lemma reaper_post_orphan (w w1 : World) (r : Completion) :
  reaper_post P cfg sessionId w w1 r ->
  orphan_post P cfg sessionId w
    (set_pendingSessions (fun s => s ∖ {[sessionId]}) w1).
Proof.
  intros (b & -> & ((Hs & Hp & Hl & Hr) & Hb & _ & Heff) & Hunlink & Hkill).
  split; [exact Hs|]. split; [simpl; rewrite Hp; reflexivity|].
  split; [exact Hl|]. split; [exact Hr|]. split; [exact Heff|]. split.
  - intros Hall Hlock. apply Hunlink; [exact Hall | apply Hb, Hlock].
  - exact Hkill.
Qed.

Lemma destroy_orphan_settles (e : Ext) (w : World) :
  P e -> sessions w !! sessionId = None ->
  settles_seg P (fun w' r => r = Resolved VUndefined ∧ orphan_post P cfg sessionId w w')
    5 (destroy_body cfg sessionId e w).
Proof.
  intros He Hsess. unfold destroy_body. rewrite Hsess.
  apply (settles_call_await P (reaper_post P cfg sessionId w) _ 4 0).
  - apply killOrphaned_settles.
  - intros w1 a e1 He1 Hpost. apply settles_seg_Done.
    split; [reflexivity | eapply reaper_post_orphan, Hpost].
Qed.

Lemma delete_orphan_settles (validation : option Validation) (e : Ext) (w : World) :
  P e -> sessions w !! sessionId = None ->
  settles_seg P
    (fun w' r => r = Resolved VUndefined ∧ delete_orphan_post P cfg sessionId w w')
    9 (delete_body cfg sessionId validation e w).
Proof.
  intros He Hsess. unfold delete_body. rewrite Hsess.
  apply (settles_call_await P (reaper_post P cfg sessionId w) _ 4 4).
  - apply killOrphaned_settles.
  - intros w1 a e1 He1 Hpost.
    apply (settles_call_await P
             (folder_post P cfg sessionId
                (set_pendingSessions (fun s => s ∖ {[sessionId]}) w1)) _ 3 0).
    + apply deleteSessionFolder_settles.
    + intros w2 a' e2 He2 Hfolder. apply settles_seg_Done. split; [reflexivity|].
      destruct (reaper_post_orphan _ _ _ Hpost)
        as (Hs & Hp & Hl & Hr & (Hfs & Hkill) & _ & _).
      destruct Hfolder as ((Hs2 & Hp2 & Hl2 & Hr2) & Hpr2 & Hsg2 & Hrm & _ & _ & Hok).
      split; [congruence|]. split; [congruence|]. split; [congruence|].
      split; [congruence|]. split; [|split].
      * eapply only_removes_trans; [|exact Hrm]. apply only_removes_fs.
        simpl in Hfs. destruct Hfs as [Hfs | Hfs]; [left | right; eexists]; exact Hfs.
      * rewrite Hpr2, Hsg2. exact Hkill.
      * intros dir root Hres Hpre. apply (Hok dir root Hres Hpre).
Qed.
End OrphanTeardown.

(** **** A key with a client *)

Section ActiveTeardown.
Context (P : Ext -> Prop) (cfg : Config) (sessionId : string) (client : Client).

Lemma cleared_clearSession (w w1 : World) :
  same_registry w w1 -> cleared sessionId w (clearSession sessionId w1).
Proof.
  intros (Hs & Hp & _ & Hr). unfold cleared, clearSession. simpl.
  rewrite Hs, Hp, Hr. repeat split.
Qed.

Lemma destroy_finish_settles (w : World) (b : bool) (e : Ext) :
  P e -> b = browserConnected e ->
  settles_seg P
    (fun w' r => r = Resolved VUndefined ∧ destroy_active_post P sessionId client w w')
    1 (destroy_finish sessionId client b e w).
Proof.
  intros He Hb. unfold destroy_finish.
  destruct (killBrowserProcess_may_kill client w) as (Hkill & Hreg & Hfs).
  destruct b.
  - apply settles_seg_Susp. intros e' He'. apply settles_seg_Done.
    split; [reflexivity|]. split; [apply cleared_clearSession, Hreg|].
    split; [apply Hreg|]. split; [exact Hfs|]. split; [exact Hkill|]. split.
    + intros _. reflexivity.
    + intros Hall. rewrite (Hall e He) in Hb. discriminate.
  - apply settles_seg_Done.
    split; [reflexivity|]. split; [apply cleared_clearSession, same_registry_refl|].
    split; [reflexivity|]. split; [reflexivity|].
    split; [left; split; reflexivity|]. split.
    + intros Hall. rewrite (Hall e He) in Hb. discriminate.
    + intros _. reflexivity.
Qed.

Lemma destroy_active_settles (e : Ext) (w : World) :
  P e -> sessions w !! sessionId = Some client ->
  settles_seg P
    (fun w' r => r = Resolved VUndefined ∧ destroy_active_post P sessionId client w w')
    13 (destroy_body cfg sessionId e w).
Proof.
  intros He Hsess. unfold destroy_body. rewrite Hsess.
  apply settles_seg_Susp. intros e1 He1. apply settles_seg_Susp. intros e2 He2.
  apply (wait_disconnect_settles P _ 1 (destroy_finish sessionId client) w
           (fun b e He Hb => destroy_finish_settles w b e He Hb) 10 e2 He2).
Qed.

Lemma delete_tail_settles (w0 w : World) (e : Ext) :
  P e -> same_registry w0 w -> fs w = fs w0 -> may_kill client w0 w ->
  settles_seg P (delete_active_post P cfg sessionId client w0) 4
    (delete_tail cfg sessionId e w).
Proof.
  intros He Hreg Hfs Hkill. unfold delete_tail.
  apply (settles_call_await P
           (folder_post P cfg sessionId (clearSession sessionId w)) _ 3 0).
  - apply deleteSessionFolder_settles.
  - intros w2 r e2 He2 ((Hs2 & Hp2 & Hl2 & Hr2) & Hpr2 & Hsg2 & Hrm & Hres & Hmiss & Hok).
    apply settles_seg_Done.
    destruct (cleared_clearSession w0 w Hreg) as (Hcs & Hcp & Hcr).
    split; [repeat split; congruence|].
    split; [rewrite Hl2; simpl; apply Hreg|].
    split; [intros p; destruct (Hrm p) as [H | H]; [left; rewrite H; simpl; rewrite Hfs; reflexivity
                                                   | right; exact H]|].
    split; [unfold may_kill in *; rewrite Hpr2, Hsg2; exact Hkill|].
    split; [|split].
    + destruct r as [v | err]; [left | right; eauto].
      destruct Hres as [Hres | [err Hres]]; [reflexivity | discriminate Hres].
    + intros err Hall. destruct (Hmiss err Hall) as [-> Hfs2].
      split; [reflexivity|]. rewrite Hfs2. simpl. exact Hfs.
    + intros dir root Hall Hpre. destruct (Hok dir root Hall Hpre) as [-> Hgone].
      split; [reflexivity | exact Hgone].
Qed.

Lemma delete_finish_settles (w : World) (b : bool) (e : Ext) :
  P e ->
  settles_seg P (delete_active_post P cfg sessionId client w) 5
    (delete_finish cfg sessionId client b e w).
Proof.
  intros He. unfold delete_finish.
  destruct (killBrowserProcess_may_kill client w) as (Hkill & Hreg & Hfs).
  destruct b.
  - apply settles_seg_Susp. intros e' He'. apply delete_tail_settles; assumption.
  - eapply settles_seg_weaken;
      [apply (delete_tail_settles w w e He (same_registry_refl w) eq_refl (may_kill_refl _ _))
      | lia | auto].
Qed.

Lemma delete_active_settles (validation : option Validation) (e : Ext) (w : World) :
  P e -> sessions w !! sessionId = Some client ->
  settles_seg P (delete_active_post P cfg sessionId client w) 17
    (delete_body cfg sessionId validation e w).
Proof.
  intros He Hsess. unfold delete_body. rewrite Hsess.
  apply settles_seg_Susp. intros e1 He1. cbv zeta.
  assert (Hloop : ∀ e', P e' ->
            settles_seg P (delete_active_post P cfg sessionId client w) 15
              (wait_disconnect 10 (delete_finish cfg sessionId client) e' w)).
  { intros e' He'.
    apply (wait_disconnect_settles P _ 5 (delete_finish cfg sessionId client) w
             (fun b e He _ => delete_finish_settles w b e He) 10 e' He'). }
  assert (Hlater : settles_seg P (delete_active_post P cfg sessionId client w) 16
            (w, Susp (wait_disconnect 10 (delete_finish cfg sessionId client)))).
  { apply settles_seg_Susp. exact Hloop. }
  assert (Hnow : settles_seg P (delete_active_post P cfg sessionId client w) 16
            (wait_disconnect 10 (delete_finish cfg sessionId client) e1 w)).
  { eapply settles_seg_weaken; [apply Hloop, He1 | lia | auto]. }
  destruct validation as [v|]; [|exact Hnow].
  destruct (success v); [exact Hlater|].
  destruct (String.eqb (message v) "session_not_connected"); [exact Hlater | exact Hnow].
Qed.
End ActiveTeardown.


(** **** The operations, lock included *)

Section Unlocked.
Context (P : Ext -> Prop) (cfg : Config) (sessionId : string) (w : World).
Context (Hfree : sessionLocks w !! sessionId = None).

Local Abbreviation wL := (set_sessionLocks (insert sessionId true) w).

Lemma orphan_post_unlock (w' : World) :
  orphan_post P cfg sessionId wL w' ->
  orphan_post P cfg sessionId w (releaseSessionLock sessionId w').
Proof.
  intros (Hs & Hp & Hl & Hr & Heff & Hunlink & Hkill).
  split; [exact Hs|]. split; [exact Hp|].
  split; [apply lock_given_back; assumption|].
  split; [exact Hr|]. split; [exact Heff|]. split; [exact Hunlink | exact Hkill].
Qed.

Lemma delete_orphan_post_unlock (w' : World) :
  delete_orphan_post P cfg sessionId wL w' ->
  delete_orphan_post P cfg sessionId w (releaseSessionLock sessionId w').
Proof.
  intros (Hs & Hp & Hl & Hr & Hrm & Hkill & Hok).
  split; [exact Hs|]. split; [exact Hp|].
  split; [apply lock_given_back; assumption|].
  split; [exact Hr|]. split; [exact Hrm|]. split; [exact Hkill | exact Hok].
Qed.

Lemma destroy_active_post_unlock (client : Client) (w' : World) :
  destroy_active_post P sessionId client wL w' ->
  destroy_active_post P sessionId client w (releaseSessionLock sessionId w').
Proof.
  intros (Hc & Hl & Hfs & Hkill & Hconn & Hdis).
  split; [exact Hc|]. split; [apply lock_given_back; assumption|].
  split; [exact Hfs|]. split; [exact Hkill|]. split; [|exact Hdis].
  intros Hall. simpl. rewrite (Hconn Hall). unfold killBrowserProcess.
  destruct (pupBrowser client) as [pid|]; [|reflexivity]. simpl.
  destruct (procs w !! pid); reflexivity.
Qed.

Lemma delete_active_post_unlock (client : Client) (w' : World) (r : Completion) :
  delete_active_post P cfg sessionId client wL w' r ->
  delete_active_post P cfg sessionId client w (releaseSessionLock sessionId w') r.
Proof.
  intros (Hc & Hl & Hrm & Hkill & Hres & Hmiss & Hok).
  split; [exact Hc|]. split; [apply lock_given_back; assumption|].
  split; [exact Hrm|]. split; [exact Hkill|]. split; [exact Hres|].
  split; [exact Hmiss | exact Hok].
Qed.

Lemma destroySession_orphan_settles :
  sessions w !! sessionId = None ->
  settles P (fun w' r => r = Resolved VUndefined ∧ orphan_post P cfg sessionId w w')
    7 w (destroySession cfg sessionId).
Proof.
  intros Hsess. unfold destroySession.
  eapply guarded_settles; [exact Hfree | |].
  - intros e He. apply destroy_orphan_settles; [exact He | exact Hsess].
  - intros w' r [-> Hpost]. split; [reflexivity | apply orphan_post_unlock, Hpost].
Qed.

Lemma destroySession_active_settles (client : Client) :
  sessions w !! sessionId = Some client ->
  settles P
    (fun w' r => r = Resolved VUndefined ∧ destroy_active_post P sessionId client w w')
    15 w (destroySession cfg sessionId).
Proof.
  intros Hsess. unfold destroySession.
  eapply guarded_settles; [exact Hfree | |].
  - intros e He. apply destroy_active_settles; [exact He | exact Hsess].
  - intros w' r [-> Hpost]. split; [reflexivity | apply destroy_active_post_unlock, Hpost].
Qed.

Lemma deleteSession_orphan_settles (validation : option Validation) :
  sessions w !! sessionId = None ->
  settles P
    (fun w' r => r = Resolved VUndefined ∧ delete_orphan_post P cfg sessionId w w')
    11 w (deleteSession cfg sessionId validation).
Proof.
  intros Hsess. unfold deleteSession.
  eapply guarded_settles; [exact Hfree | |].
  - intros e He. apply delete_orphan_settles; [exact He | exact Hsess].
  - intros w' r [-> Hpost]. split; [reflexivity | apply delete_orphan_post_unlock, Hpost].
Qed.

Lemma deleteSession_active_settles (validation : option Validation) (client : Client) :
  sessions w !! sessionId = Some client ->
  settles P (delete_active_post P cfg sessionId client w)
    19 w (deleteSession cfg sessionId validation).
Proof.
  intros Hsess. unfold deleteSession.
  eapply guarded_settles; [exact Hfree | |].
  - intros e He. apply delete_active_settles; [exact He | exact Hsess].
  - intros w' r Hpost. apply delete_active_post_unlock, Hpost.
Qed.
End Unlocked.

Lemma Forall_elem_of {A} (Q : A -> Prop) (l : list A) :
  Forall Q l -> ∀ x, x ∈ l -> Q x.
Proof. intros H. apply Forall_forall, H. Qed.

Lemma Forall_elem_of_self {A} (l : list A) : Forall (fun x => x ∈ l) l.
Proof. apply Forall_forall. auto. Qed.

(** X9.  [destroySession] run alone on a key that has no client, its
    lock free: it settles without error within seven segments; the
    reservation of the key, if a setup holds one, is dropped without
    waiting for that setup; [sessions], the lock table and the restart
    record of the key are as before; and the file system and the
    processes are changed only as the orphan reaper changes them (the
    lock removed, the process it names killed). *)
Theorem destroySession_without_client (cfg : Config) (sessionId : string) (w : World)
    (es : list Ext) :
  sessions w !! sessionId = None ->
  sessionLocks w !! sessionId = None ->
  (7 <= List.length es)%nat ->
  ∃ w',
    run es w (destroySession cfg sessionId) = Some (w', Resolved VUndefined)
    ∧ sessions w' = sessions w
    ∧ pendingSessions w' = pendingSessions w ∖ {[sessionId]}
    ∧ sessionLocks w' = sessionLocks w
    ∧ restartAttempts w' = restartAttempts w
    ∧ reaper_effects cfg sessionId w w'.
Proof.
  intros Hsess Hfree Hlen.
  destruct (settles_run (fun e => e ∈ es) _ _ _ _
              (destroySession_orphan_settles (fun e => e ∈ es) cfg sessionId w Hfree Hsess)
              es (Forall_elem_of_self es) Hlen)
    as (w' & r & Hrun & -> & Hs & Hp & Hl & Hr & Heff & _).
  exists w'. repeat (split; [assumption|]). exact Heff.
Qed.

Lemma destroySession_without_client_witness :
  sessions oneSetupWorld !! "C" = None
  ∧ sessionLocks oneSetupWorld !! "C" = None
  ∧ "C" ∈ pendingSessions oneSetupWorld
  ∧ ∃ w', run (replicate 7 quietExt) oneSetupWorld (destroySession posixConfig "C")
          = Some (w', Resolved VUndefined)
        ∧ pendingSessions w' = pendingSessions oneSetupWorld ∖ {["C"]}.
Proof.
  assert (Hsess : sessions oneSetupWorld !! "C" = None) by reflexivity.
  assert (Hfree : sessionLocks oneSetupWorld !! "C" = None) by reflexivity.
  split; [exact Hsess|]. split; [exact Hfree|]. split.
  - unfold oneSetupWorld. simpl. apply elem_of_union_l, elem_of_singleton. reflexivity.
  - destruct (destroySession_without_client posixConfig "C" oneSetupWorld
                (replicate 7 quietExt) Hsess Hfree ltac:(simpl; lia))
      as (w' & Hrun & _ & Hp & _).
    exists w'. split; assumption.
Defined.

(** X10.  [destroySession] run alone on a key with a client, its lock
    free: it settles without error within fifteen segments; the key is
    gone from [sessions], from [pendingSessions] and from the restart
    table, the lock table and the file system are as before; and at most
    one signal is sent, a SIGKILL to the browser of that client, which is
    sent when the browser still answers connected at every one of the
    checks made over ten seconds and its process is alive, and is not
    sent when it answers disconnected. *)
Theorem destroySession_with_client (cfg : Config) (sessionId : string) (client : Client)
    (w : World) (es : list Ext) :
  sessions w !! sessionId = Some client ->
  sessionLocks w !! sessionId = None ->
  (15 <= List.length es)%nat ->
  ∃ w',
    run es w (destroySession cfg sessionId) = Some (w', Resolved VUndefined)
    ∧ cleared sessionId w w'
    ∧ sessionLocks w' = sessionLocks w
    ∧ fs w' = fs w
    ∧ (signals w' = signals w
       ∨ ∃ pid, pupBrowser client = Some pid ∧ is_Some (procs w !! pid)
                ∧ signals w' = pid :: signals w)
    ∧ (Forall (fun e => browserConnected e = true) es ->
       ∀ pid, pupBrowser client = Some pid -> is_Some (procs w !! pid) ->
              signals w' = pid :: signals w)
    ∧ (Forall (fun e => browserConnected e = false) es -> signals w' = signals w).
Proof.
  intros Hsess Hfree Hlen.
  destruct (settles_run (fun e => e ∈ es) _ _ _ _
              (destroySession_active_settles (fun e => e ∈ es) cfg sessionId w Hfree
                 client Hsess)
              es (Forall_elem_of_self es) Hlen)
    as (w' & r & Hrun & -> & Hc & Hl & Hfs & Hkill & Hconn & Hdis).
  exists w'. repeat (split; [assumption|]). split; [|split].
  - destruct Hkill as [[Hsg _] | (pid & Hpid & Hlive & Hsg & _)];
      [left; exact Hsg | right; exists pid; repeat split; assumption].
  - intros Hall pid Hpid [owner Hlive]. rewrite (Hconn (Forall_elem_of _ _ Hall)).
    unfold killBrowserProcess. rewrite Hpid, Hlive. reflexivity.
  - intros Hall. exact (Hdis (Forall_elem_of _ _ Hall)).
Qed.

Lemma destroySession_with_client_witness :
  sessions reusedPidWorld !! "D" = Some (mkClient (Some 4242))
  ∧ sessionLocks reusedPidWorld !! "D" = None
  ∧ Forall (fun e => browserConnected e = false) (replicate 15 quietExt)
  ∧ ∃ w', run (replicate 15 quietExt) reusedPidWorld (destroySession posixConfig "D")
          = Some (w', Resolved VUndefined)
        ∧ sessions w' !! "D" = None
        ∧ signals w' = signals reusedPidWorld.
Proof.
  assert (Hsess : sessions reusedPidWorld !! "D" = Some (mkClient (Some 4242)))
    by (vm_compute; reflexivity).
  assert (Hfree : sessionLocks reusedPidWorld !! "D" = None) by reflexivity.
  assert (Hdis : Forall (fun e => browserConnected e = false) (replicate 15 quietExt)).
  { simpl. repeat constructor. }
  split; [exact Hsess|]. split; [exact Hfree|]. split; [exact Hdis|].
  destruct (destroySession_with_client posixConfig "D" _ reusedPidWorld
              (replicate 15 quietExt) Hsess Hfree ltac:(simpl; lia))
    as (w' & Hrun & (Hs & _) & _ & _ & _ & _ & Hquiet).
  exists w'. split; [exact Hrun|]. split.
  - rewrite Hs. apply lookup_delete_eq.
  - exact (Hquiet Hdis).
Defined.


(** X11.  [deleteSession] run alone on a key that has no client, its
    lock free: whatever the file system answers, be it that the session
    folder cannot be resolved, lies outside the session root or cannot
    be removed, the call settles without error within eleven segments;
    the reservation of the key is dropped and the other tables are as
    before; nothing is created in the file system; the only signal that
    can be sent is the reaper's; and when the folder resolves to [dir]
    below the resolved root and [rm] goes through, [dir] and all below
    it are gone. *)
Theorem deleteSession_without_client (cfg : Config) (sessionId : string)
    (validation : option Validation) (w : World) (es : list Ext) :
  sessions w !! sessionId = None ->
  sessionLocks w !! sessionId = None ->
  (11 <= List.length es)%nat ->
  ∃ w',
    run es w (deleteSession cfg sessionId validation) = Some (w', Resolved VUndefined)
    ∧ sessions w' = sessions w
    ∧ pendingSessions w' = pendingSessions w ∖ {[sessionId]}
    ∧ sessionLocks w' = sessionLocks w
    ∧ restartAttempts w' = restartAttempts w
    ∧ only_removes w w'
    ∧ ((signals w' = signals w ∧ procs w' = procs w)
       ∨ ∃ pid, lockPid (fs w !! singletonLockPath cfg sessionId) = Some pid
                ∧ signals w' = pid :: signals w
                ∧ procs w' = delete pid (procs w))
    ∧ (∀ dir root, Forall (folderResolves cfg sessionId dir root) es ->
                   String.prefix (safeSessionPath cfg root) dir = true ->
                   ∀ p, under cfg dir p = true -> fs w' !! p = None).
Proof.
  intros Hsess Hfree Hlen.
  destruct (settles_run (fun e => e ∈ es) _ _ _ _
              (deleteSession_orphan_settles (fun e => e ∈ es) cfg sessionId w Hfree
                 validation Hsess)
              es (Forall_elem_of_self es) Hlen)
    as (w' & r & Hrun & -> & Hs & Hp & Hl & Hr & Hrm & Hkill & Hok).
  exists w'. repeat (split; [assumption|]). split.
  - destruct Hkill as [Hsame | (pid & Hpid & _ & _ & Hsg & Hpr)];
      [left; exact Hsame | right; exists pid; repeat split; assumption].
  - intros dir root Hall. apply Hok. exact (Forall_elem_of _ _ Hall).
Qed.

Lemma deleteSession_without_client_witness :
  sessions reusedPidWorld !! "C" = None
  ∧ sessionLocks reusedPidWorld !! "C" = None
  ∧ ∃ w', run (replicate 11 missingFolderExt) reusedPidWorld
              (deleteSession posixConfig "C" None)
          = Some (w', Resolved VUndefined)
        ∧ sessions w' = sessions reusedPidWorld.
Proof.
  assert (Hsess : sessions reusedPidWorld !! "C" = None) by (vm_compute; reflexivity).
  assert (Hfree : sessionLocks reusedPidWorld !! "C" = None) by reflexivity.
  split; [exact Hsess|]. split; [exact Hfree|].
  destruct (deleteSession_without_client posixConfig "C" None reusedPidWorld
              (replicate 11 missingFolderExt) Hsess Hfree ltac:(simpl; lia))
    as (w' & Hrun & Hs & _).
  exists w'. split; assumption.
Defined.

(** X12.  [deleteSession] run alone on a key with a client, its lock
    free: it settles within nineteen segments; whether it resolves or
    rejects, the key is gone from [sessions], from [pendingSessions] and
    from the restart table, the lock is free again, nothing is created
    in the file system and the only signal that can have been sent is a
    SIGKILL to the browser of that client; it rejects only with the error
    of [deleteSessionFolder]: with that error and the file system
    untouched when the session folder cannot be resolved, and not at all
    when the folder resolves to [dir] below the resolved root and [rm]
    goes through, in which case [dir] and all below it are gone. *)
Theorem deleteSession_with_client (cfg : Config) (sessionId : string)
    (validation : option Validation) (client : Client) (w : World) (es : list Ext) :
  sessions w !! sessionId = Some client ->
  sessionLocks w !! sessionId = None ->
  (19 <= List.length es)%nat ->
  ∃ w' r,
    run es w (deleteSession cfg sessionId validation) = Some (w', r)
    ∧ cleared sessionId w w'
    ∧ sessionLocks w' = sessionLocks w
    ∧ only_removes w w'
    ∧ (signals w' = signals w
       ∨ ∃ pid, pupBrowser client = Some pid ∧ signals w' = pid :: signals w)
    ∧ (r = Resolved VUndefined ∨ ∃ err, r = Rejected err)
    ∧ (∀ err, Forall (folderMissing cfg sessionId err) es ->
              r = Rejected err ∧ fs w' = fs w)
    ∧ (∀ dir root, Forall (folderResolves cfg sessionId dir root) es ->
                   String.prefix (safeSessionPath cfg root) dir = true ->
                   r = Resolved VUndefined
                   ∧ ∀ p, under cfg dir p = true -> fs w' !! p = None).
Proof.
  intros Hsess Hfree Hlen.
  destruct (settles_run (fun e => e ∈ es) _ _ _ _
              (deleteSession_active_settles (fun e => e ∈ es) cfg sessionId w Hfree
                 validation client Hsess)
              es (Forall_elem_of_self es) Hlen)
    as (w' & r & Hrun & Hc & Hl & Hrm & Hkill & Hres & Hmiss & Hok).
  exists w', r. repeat (split; [assumption|]). split; [|split; [exact Hres|split]].
  - destruct Hkill as [[Hsg _] | (pid & Hpid & _ & Hsg & _)];
      [left; exact Hsg | right; exists pid; split; assumption].
  - intros err Hall. apply Hmiss. exact (Forall_elem_of _ _ Hall).
  - intros dir root Hall. apply Hok. exact (Forall_elem_of _ _ Hall).
Qed.

Lemma deleteSession_with_client_witness :
  sessions reusedPidWorld !! "D" = Some (mkClient (Some 4242))
  ∧ sessionLocks reusedPidWorld !! "D" = None
  ∧ Forall (folderMissing posixConfig "D" "ENOENT: no such file or directory")
           (replicate 19 missingFolderExt)
  ∧ ∃ w', run (replicate 19 missingFolderExt) reusedPidWorld
              (deleteSession posixConfig "D" None)
          = Some (w', Rejected "ENOENT: no such file or directory")
        ∧ sessions w' !! "D" = None
        ∧ sessionLocks w' !! "D" = None.
Proof.
  assert (Hsess : sessions reusedPidWorld !! "D" = Some (mkClient (Some 4242)))
    by (vm_compute; reflexivity).
  assert (Hfree : sessionLocks reusedPidWorld !! "D" = None) by reflexivity.
  assert (Hmiss : Forall (folderMissing posixConfig "D" "ENOENT: no such file or directory")
                         (replicate 19 missingFolderExt)).
  { simpl. repeat constructor. }
  split; [exact Hsess|]. split; [exact Hfree|]. split; [exact Hmiss|].
  destruct (deleteSession_with_client posixConfig "D" None _ reusedPidWorld
              (replicate 19 missingFolderExt) Hsess Hfree ltac:(simpl; lia))
    as (w' & r & Hrun & (Hs & _) & Hl & _ & _ & _ & Hrej & _).
  destruct (Hrej _ Hmiss) as [-> _].
  exists w'. split; [exact Hrun|]. split.
  - rewrite Hs. apply lookup_delete_eq.
  - rewrite Hl. exact Hfree.
Defined.


(** *** Reload and crash recovery *)

Section Relaunch.
Context (P : Ext -> Prop) (cfg : Config) (sessionId : string) (client : Client).

Lemma setup_after_drop_settles (w0 w1 : World) (e : Ext) :
  P e ->
  sessions w1 = delete sessionId (sessions w0) ->
  pendingSessions w1 = pendingSessions w0 ∖ {[sessionId]} ->
  sessionLocks w1 = sessionLocks w0 ->
  restartAttempts w1 = restartAttempts w0 ->
  settles_seg P
    (fun w' r => relaunched P sessionId w0 w'
                 ∧ restartAttempts w' = restartAttempts w0
                 ∧ ∀ pid, (∀ e, P e -> launchGives pid e) -> signals w' = signals w1)
    4 (setupSession_call cfg sessionId e w1).
Proof.
  intros He Hs Hp Hl Hr.
  assert (Habs : isAbsent sessionId w1).
  { split; [rewrite Hs; apply lookup_delete_eq|]. rewrite Hp.
    intros Hin. apply elem_of_difference in Hin as [_ Hin].
    apply Hin, elem_of_singleton. reflexivity. }
  eapply settles_seg_weaken; [apply (setupSession_call_settles P), He | lia |].
  intros w' r (ok & msg & c & -> & Hp' & Hl' & Hr' & _ & Hok & Hfail & Hgo & Hno & Hpid).
  assert (Hgives : ∀ pid, (∀ e, P e -> launchGives pid e) ->
            sessions w' = <[sessionId := mkClient (Some pid)]> (sessions w0)
            ∧ signals w' = signals w1).
  { intros pid Hall.
    assert (Htrue : ok = true).
    { apply Hgo; [|exact Habs]. intros e' He'. eapply launchGives_succeeds, Hall, He'. }
    destruct (Hok Htrue) as (_ & _ & pid' & Hc & Hs' & _ & Hsg & _).
    assert (Hc' : c = Some (mkClient (Some pid))).
    { apply Hpid; [|exact Htrue]. intros e' He'. exact (proj1 (Hall e' He')). }
    assert (pid' = pid) as -> by congruence.
    split; [|exact Hsg]. rewrite Hs', Hs. apply insert_delete_eq. }
  split; [|split].
  - split; [congruence|]. split; [congruence|]. split; [|split].
    + destruct ok.
      * destruct (Hok eq_refl) as (_ & _ & pid & _ & Hs' & _).
        right. exists pid. rewrite Hs', Hs. apply insert_delete_eq.
      * left. destruct (Hfail eq_refl) as [Hs' _]. congruence.
    + intros Hall. destruct (Hfail (Hno Hall)) as [Hs' _]. congruence.
    + intros pid Hall. apply (Hgives pid Hall).
  - congruence.
  - intros pid Hall. apply (Hgives pid Hall).
Qed.

Lemma reload_relaunch_settles (w0 w : World) (killed : bool) (e : Ext) :
  P e ->
  w = (if killed then killBrowserProcess client w0 else w0) ->
  (if killed then ∃ e', P e' ∧ closeOk e' = false else ∃ e', P e' ∧ closeOk e' = true) ->
  settles_seg P
    (fun w' r => r = Resolved VUndefined ∧ reload_post P sessionId client w0 w')
    5 (reload_relaunch cfg sessionId e w).
Proof.
  intros He Hw Hflag. unfold reload_relaunch.
  assert (Hreg : same_registry w0 w).
  { subst w. destruct killed; [apply killBrowserProcess_may_kill | apply same_registry_refl]. }
  destruct Hreg as (Hs & Hp & Hl & Hr).
  eapply (settles_call_await P _ _ 4 0).
  - apply (setup_after_drop_settles w0 (dropSession sessionId w) e He); simpl; congruence.
  - intros w1 a e1 He1 (Hrel & Hr1 & Hsig). apply settles_seg_Done.
    split; [reflexivity|]. split; [exact Hrel|]. split; [exact Hr1|].
    intros pid Hall. rewrite (Hsig pid Hall). simpl. subst w. split.
    + intros Hclose. destruct killed; [|reflexivity].
      destruct Hflag as (e' & He' & Hno). rewrite (Hclose e' He') in Hno. discriminate.
    + intros Hclose. destruct killed; [reflexivity|].
      destruct Hflag as (e' & He' & Hyes). rewrite (Hclose e' He') in Hyes. discriminate.
Qed.

Lemma reload_close_settles (w0 : World) :
  ∀ more e, P e ->
    settles_seg P
      (fun w' r => r = Resolved VUndefined ∧ reload_post P sessionId client w0 w')
      (more + 6) (reload_close more cfg sessionId client e w0).
Proof.
  induction more as [|n IH]; intros e He; simpl.
  - destruct (closeOk e) eqn:Hc.
    + eapply settles_seg_weaken;
        [apply (reload_relaunch_settles w0 w0 false e He eq_refl); eauto | lia | auto].
    + apply settles_seg_Susp. intros e' He'.
      apply (reload_relaunch_settles w0 _ true e' He' eq_refl). eauto.
  - destruct (closeOk e) eqn:Hc.
    + apply settles_seg_Susp. intros e' He'. apply IH, He'.
    + apply settles_seg_Susp. intros e' He'.
      eapply settles_seg_weaken;
        [apply (reload_relaunch_settles w0 _ true e' He' eq_refl); eauto | lia | auto].
Qed.

Lemma reload_active_settles (e : Ext) (w : World) :
  P e -> sessions w !! sessionId = Some client ->
  settles_seg P
    (fun w' r => r = Resolved VUndefined ∧ reload_post P sessionId client w w')
    9 (reload_body cfg sessionId e w).
Proof.
  intros He Hsess. unfold reload_body. rewrite Hsess.
  apply settles_seg_Susp. intros e1 He1. apply (reload_close_settles w 2 e1 He1).
Qed.

Lemma restart_body_settles (e : Ext) (w : World) :
  P e ->
  settles_seg P
    (fun w' r => r = Resolved VUndefined ∧ restart_post P sessionId client w w')
    8 (restart_body cfg sessionId client e w).
Proof.
  intros He. unfold restart_body.
  apply settles_seg_Susp. intros e1 He1. apply settles_seg_Susp. intros e2 He2.
  apply settles_seg_Susp. intros e3 He3.
  destruct (killBrowserProcess_may_kill client (dropSession sessionId w))
    as (_ & (Hs & Hp & Hl & Hr) & _).
  eapply (settles_call_await P _ _ 4 0).
  - apply (setup_after_drop_settles w _ e3 He3); [rewrite Hs | rewrite Hp | rewrite Hl
                                                   | rewrite Hr]; reflexivity.
  - intros w1 a e4 He4 (Hrel & Hr1 & Hsig). apply settles_seg_Done.
    split; [reflexivity|]. split; [exact Hrel|]. split; [exact Hr1|].
    intros pid Hall. rewrite (Hsig pid Hall). unfold killBrowserProcess.
    destruct (pupBrowser client) as [p|]; [|reflexivity]. simpl.
    destruct (procs w !! p); reflexivity.
Qed.
End Relaunch.


Lemma release_acquired (sessionId : string) (w : World) :
  sessionLocks w !! sessionId = None ->
  releaseSessionLock sessionId (set_sessionLocks (insert sessionId true) w) = w.
Proof.
  intros Hfree. destruct w as [s p l r f pr sg].
  unfold releaseSessionLock, set_sessionLocks. simpl in *.
  rewrite delete_insert_eq, (delete_id _ _ Hfree). reflexivity.
Qed.

(** X13.  [reloadSession] on a key that has no client, be the key
    ABSENT or PENDING: the call takes the session lock, finds nothing to
    reload and settles without error, leaving the whole world as it
    was; it starts no session. *)
Theorem reloadSession_without_client (cfg : Config) (sessionId : string) (w : World)
    (e1 e2 : Ext) (es : list Ext) :
  sessions w !! sessionId = None ->
  sessionLocks w !! sessionId = None ->
  run (e1 :: e2 :: es) w (reloadSession cfg sessionId) = Some (w, Resolved VUndefined).
Proof.
  intros Hsess Hfree. unfold reloadSession, acquireSessionLock.
  rewrite run_step by (intros r; discriminate). cbn [resume]. unfold lockHeld.
  rewrite Hfree. cbn [fst snd]. rewrite run_Susp.
  unfold reload_body, finally_seg. cbn [sessions set_sessionLocks]. rewrite Hsess.
  cbn [fst snd]. rewrite run_Done, (release_acquired _ _ Hfree). reflexivity.
Qed.

Lemma reloadSession_without_client_witness :
  sessions oneSetupWorld !! "C" = None
  ∧ sessionLocks oneSetupWorld !! "C" = None
  ∧ run [quietExt; quietExt] oneSetupWorld (reloadSession posixConfig "C")
    = Some (oneSetupWorld, Resolved VUndefined).
Proof.
  assert (Hsess : sessions oneSetupWorld !! "C" = None) by reflexivity.
  assert (Hfree : sessionLocks oneSetupWorld !! "C" = None) by reflexivity.
  split; [exact Hsess|]. split; [exact Hfree|].
  exact (reloadSession_without_client posixConfig "C" oneSetupWorld quietExt quietExt []
           Hsess Hfree).
Defined.

Lemma relaunched_unlock (P : Ext -> Prop) (sessionId : string) (w w' : World) :
  sessionLocks w !! sessionId = None ->
  relaunched P sessionId (set_sessionLocks (insert sessionId true) w) w' ->
  relaunched P sessionId w (releaseSessionLock sessionId w').
Proof.
  intros Hfree (Hl & Hp & Hs & Hfail & Hok).
  split; [apply lock_given_back; assumption|]. split; [exact Hp|].
  split; [exact Hs|]. split; [exact Hfail | exact Hok].
Qed.

Lemma signals_kill_locks (client : Client) (f : gmap string bool -> gmap string bool)
    (w : World) :
  signals (killBrowserProcess client (set_sessionLocks f w))
  = signals (killBrowserProcess client w).
Proof.
  unfold killBrowserProcess. destruct (pupBrowser client) as [pid|]; [|reflexivity].
  simpl. destruct (procs w !! pid); reflexivity.
Qed.

Lemma reloadSession_active_settles (P : Ext -> Prop) (cfg : Config) (sessionId : string)
    (client : Client) (w : World) :
  sessionLocks w !! sessionId = None ->
  sessions w !! sessionId = Some client ->
  settles P (fun w' r => r = Resolved VUndefined ∧ reload_post P sessionId client w w')
    11 w (reloadSession cfg sessionId).
Proof.
  intros Hfree Hsess. unfold reloadSession.
  eapply guarded_settles; [exact Hfree | |].
  - intros e He. apply reload_active_settles; [exact He | exact Hsess].
  - intros w' r [-> (Hrel & Hr & Hsig)]. split; [reflexivity|].
    split; [apply relaunched_unlock; assumption|]. split; [exact Hr|].
    intros pid Hall. destruct (Hsig pid Hall) as [Hclosed Hkilled]. split.
    + exact Hclosed.
    + intros Hc. simpl. rewrite (Hkilled Hc). apply signals_kill_locks.
Qed.

(** X14.  [reloadSession] run alone on a key with a client, its lock
    free: it settles without error within eleven segments, whether or
    not the session comes up again; the old entry is dropped, the lock is
    free again, no reservation is left and the restart table is
    untouched.  When the relaunch fails the call still resolves, and the
    key is ABSENT: the session is lost without an error.  When the
    relaunch gives the browser [pid], the key is ACTIVE with the new
    client, and the old browser was sent SIGKILL exactly when closing it
    had failed. *)
Theorem reloadSession_with_client (cfg : Config) (sessionId : string) (client : Client)
    (w : World) (es : list Ext) :
  sessions w !! sessionId = Some client ->
  sessionLocks w !! sessionId = None ->
  (11 <= List.length es)%nat ->
  ∃ w',
    run es w (reloadSession cfg sessionId) = Some (w', Resolved VUndefined)
    ∧ sessionLocks w' = sessionLocks w
    ∧ pendingSessions w' = pendingSessions w ∖ {[sessionId]}
    ∧ restartAttempts w' = restartAttempts w
    ∧ (sessions w' = delete sessionId (sessions w)
       ∨ ∃ pid, sessions w' = <[sessionId := mkClient (Some pid)]> (sessions w))
    ∧ (Forall (fun e => ∃ partial err, launch e = LaunchFail partial err) es ->
       sessions w' = delete sessionId (sessions w))
    ∧ (∀ pid, Forall (launchGives pid) es ->
              sessions w' = <[sessionId := mkClient (Some pid)]> (sessions w)
              ∧ (Forall (fun e => closeOk e = true) es -> signals w' = signals w)
              ∧ (Forall (fun e => closeOk e = false) es ->
                 signals w' = signals (killBrowserProcess client w))).
Proof.
  intros Hsess Hfree Hlen.
  destruct (settles_run (fun e => e ∈ es) _ _ _ _
              (reloadSession_active_settles (fun e => e ∈ es) cfg sessionId client w
                 Hfree Hsess)
              es (Forall_elem_of_self es) Hlen)
    as (w' & r & Hrun & -> & (Hl & Hp & Hs & Hfail & Hok) & Hr & Hsig).
  exists w'. split; [exact Hrun|]. split; [exact Hl|]. split; [exact Hp|].
  split; [exact Hr|]. split; [exact Hs|]. split.
  - intros Hall. apply Hfail. exact (Forall_elem_of _ _ Hall).
  - intros pid Hall. pose proof (Forall_elem_of _ _ Hall) as Hall'.
    split; [apply Hok, Hall'|]. destruct (Hsig pid Hall') as [Hclosed Hkilled]. split.
    + intros Hc. apply Hclosed. exact (Forall_elem_of _ _ Hc).
    + intros Hc. apply Hkilled. exact (Forall_elem_of _ _ Hc).
Qed.

Lemma reloadSession_with_client_witness :
  sessions reusedPidWorld !! "D" = Some (mkClient (Some 4242))
  ∧ sessionLocks reusedPidWorld !! "D" = None
  ∧ Forall (fun e => ∃ partial err, launch e = LaunchFail partial err)
           (replicate 11 failingExt)
  ∧ ∃ w', run (replicate 11 failingExt) reusedPidWorld (reloadSession posixConfig "D")
          = Some (w', Resolved VUndefined)
        ∧ sessions w' !! "D" = None
        ∧ "D" ∉ pendingSessions w'.
Proof.
  assert (Hsess : sessions reusedPidWorld !! "D" = Some (mkClient (Some 4242)))
    by (vm_compute; reflexivity).
  assert (Hfree : sessionLocks reusedPidWorld !! "D" = None) by reflexivity.
  assert (Hfail : Forall (fun e => ∃ partial err, launch e = LaunchFail partial err)
                         (replicate 11 failingExt)).
  { simpl. repeat constructor; eexists _, _; reflexivity. }
  split; [exact Hsess|]. split; [exact Hfree|]. split; [exact Hfail|].
  destruct (reloadSession_with_client posixConfig "D" _ reusedPidWorld
              (replicate 11 failingExt) Hsess Hfree ltac:(simpl; lia))
    as (w' & Hrun & _ & Hp & _ & _ & Hlost & _).
  exists w'. split; [exact Hrun|]. split.
  - rewrite (Hlost Hfail). apply lookup_delete_eq.
  - rewrite Hp. intros Hin. apply elem_of_difference in Hin as [_ Hin].
    apply Hin, elem_of_singleton. reflexivity.
Defined.

(** **** Crash recovery *)

Lemma canRestart_denied (sessionId : string) (now : Z) (w : World) :
  (canRestart sessionId now w).1 = false -> (canRestart sessionId now w).2 = w.
Proof.
  unfold canRestart. destruct (restartAttempts w !! sessionId) as [a|]; [|discriminate].
  destruct (now - firstAttempt a >? RESTART_RESET_MS); [discriminate|].
  destruct (count a >=? MAX_RESTART_ATTEMPTS); [reflexivity|].
  destruct (now - lastAttempt a <? RESTART_COOLDOWN_MS); [reflexivity | discriminate].
Qed.

(** X15.  A crash of a session whose restart is denied, be it that the
    third restart of the window has been used or that the last restart
    is less than [RESTART_COOLDOWN_MS] old: [safeRestartSession] gives
    the session up for good.  It drops the key from [sessions] and
    [pendingSessions], kills the browser of the crashed client, and
    settles; it takes no lock, starts no setup, schedules no later
    attempt, and leaves the restart record as it is. *)
Theorem safeRestartSession_denied (cfg : Config) (sessionId : string) (client : Client)
    (w : World) (a : Attempts) (e1 e2 : Ext) (es : list Ext) :
  restartAttempts w !! sessionId = Some a ->
  now e1 - firstAttempt a <= RESTART_RESET_MS ->
  (count a >= MAX_RESTART_ATTEMPTS ∨ now e1 - lastAttempt a < RESTART_COOLDOWN_MS) ->
  run (e1 :: e2 :: es) w (safeRestartSession cfg sessionId client)
  = Some (killBrowserProcess client (dropSession sessionId w), Resolved VUndefined).
Proof.
  intros Hrec Hwindow Hdeny.
  assert (Hno : (canRestart sessionId (now e1) w).1 = false).
  { unfold canRestart. rewrite Hrec.
    destruct (Z.gtb_spec (now e1 - firstAttempt a) RESTART_RESET_MS); [lia|].
    destruct (Z.geb_spec (count a) MAX_RESTART_ATTEMPTS); [reflexivity|].
    destruct (Z.ltb_spec (now e1 - lastAttempt a) RESTART_COOLDOWN_MS); [reflexivity|].
    lia. }
  pose proof (canRestart_denied _ _ _ Hno) as Hw.
  unfold safeRestartSession. rewrite run_Susp. unfold safeRestartSession_call.
  destruct (canRestart sessionId (now e1) w) as [ok w1]. simpl in Hno, Hw. subst ok w1.
  cbn [fst snd]. rewrite run_Susp. cbn [fst snd]. apply run_Done.
Qed.

Lemma safeRestartSession_denied_witness :
  restartAttempts crashedWorld !! "D" = Some (mkAttempts 1 0 0)
  ∧ now quietExt - 0 <= RESTART_RESET_MS
  ∧ now quietExt - 0 < RESTART_COOLDOWN_MS
  ∧ ∃ w', run [quietExt; quietExt] crashedWorld
              (safeRestartSession posixConfig "D" (mkClient (Some 4242)))
          = Some (w', Resolved VUndefined)
        ∧ sessions w' !! "D" = None
        ∧ signals w' = [4242]
        ∧ restartAttempts w' = restartAttempts crashedWorld.
Proof.
  assert (Hrec : restartAttempts crashedWorld !! "D" = Some (mkAttempts 1 0 0))
    by (vm_compute; reflexivity).
  assert (Hwin : now quietExt - 0 <= RESTART_RESET_MS) by (vm_compute; discriminate).
  assert (Hcool : now quietExt - 0 < RESTART_COOLDOWN_MS) by (vm_compute; reflexivity).
  split; [exact Hrec|]. split; [exact Hwin|]. split; [exact Hcool|].
  eexists. split.
  - exact (safeRestartSession_denied posixConfig "D" (mkClient (Some 4242)) crashedWorld
             (mkAttempts 1 0 0) quietExt quietExt [] Hrec Hwin (or_intror Hcool)).
  - vm_compute. repeat split.
Defined.


Lemma canRestart_tables (sessionId : string) (now : Z) (w : World) :
  sessions (canRestart sessionId now w).2 = sessions w
  ∧ pendingSessions (canRestart sessionId now w).2 = pendingSessions w
  ∧ sessionLocks (canRestart sessionId now w).2 = sessionLocks w
  ∧ signals (canRestart sessionId now w).2 = signals w
  ∧ procs (canRestart sessionId now w).2 = procs w.
Proof. rewrite canRestart_world. repeat split. Qed.

Lemma restart_guarded_settles (P : Ext -> Prop) (cfg : Config) (sessionId : string)
    (client : Client) (w : World) :
  sessionLocks w !! sessionId = None ->
  settles_seg P
    (fun w' r => r = Resolved VUndefined ∧ restart_post P sessionId client w w')
    9 (set_sessionLocks (insert sessionId true) w,
       Susp (fun e w => finally_seg (restart_body cfg sessionId client e w)
                                     (releaseSessionLock sessionId))).
Proof.
  intros Hfree. apply settles_seg_Susp. intros e He.
  eapply settles_finally_seg; [apply restart_body_settles, He|].
  intros w' r [-> (Hrel & Hr & Hsig)]. split; [reflexivity|].
  split; [apply relaunched_unlock; assumption|]. split; [exact Hr|].
  intros pid Hall. simpl. rewrite (Hsig pid Hall). apply signals_kill_locks.
Qed.

(** X16.  A crash of a session whose restart is allowed, the lock of the
    key free: [safeRestartSession] records the attempt, takes the lock,
    drops the old entry, kills the browser of the crashed client if it
    is still alive, waits, and calls [setupSession]; it settles without
    error within ten segments and gives the lock back, whether or not
    the session comes up again.  When the relaunch fails the key is
    ABSENT afterwards; when it gives the browser [pid] the key is ACTIVE
    with the new client.  The restart record is the one [canRestart]
    wrote. *)
Theorem safeRestartSession_allowed (cfg : Config) (sessionId : string) (client : Client)
    (w : World) (e1 : Ext) (es : list Ext) :
  (canRestart sessionId (now e1) w).1 = true ->
  sessionLocks w !! sessionId = None ->
  (9 <= List.length es)%nat ->
  ∃ w',
    run (e1 :: es) w (safeRestartSession cfg sessionId client)
    = Some (w', Resolved VUndefined)
    ∧ restartAttempts w' = restartAttempts (canRestart sessionId (now e1) w).2
    ∧ sessionLocks w' = sessionLocks w
    ∧ pendingSessions w' = pendingSessions w ∖ {[sessionId]}
    ∧ (sessions w' = delete sessionId (sessions w)
       ∨ ∃ pid, sessions w' = <[sessionId := mkClient (Some pid)]> (sessions w))
    ∧ (Forall (fun e => ∃ partial err, launch e = LaunchFail partial err) es ->
       sessions w' = delete sessionId (sessions w))
    ∧ (∀ pid, Forall (launchGives pid) es ->
              sessions w' = <[sessionId := mkClient (Some pid)]> (sessions w)
              ∧ signals w' = signals (killBrowserProcess client w)).
Proof.
  intros Hyes Hfree Hlen.
  destruct (canRestart_tables sessionId (now e1) w) as (Hs1 & Hp1 & Hl1 & Hsg1 & Hpr1).
  unfold safeRestartSession. rewrite run_Susp. unfold safeRestartSession_call.
  destruct (canRestart sessionId (now e1) w) as [ok w1].
  simpl in Hyes, Hs1, Hp1, Hl1, Hsg1, Hpr1. subst ok. cbn [snd].
  unfold acquireSessionLock. cbn [resume]. unfold lockHeld.
  rewrite Hl1, Hfree. cbn [fst snd].
  assert (Hfree1 : sessionLocks w1 !! sessionId = None) by (rewrite Hl1; exact Hfree).
  destruct (settles_run (fun e => e ∈ es) _ _ _ _
              (restart_guarded_settles (fun e => e ∈ es) cfg sessionId client w1 Hfree1)
              es (Forall_elem_of_self es) Hlen)
    as (w' & r & Hrun & -> & (Hl & Hp & Hs & Hfail & Hok) & Hr & Hsig).
  exists w'. split; [exact Hrun|]. split; [exact Hr|]. split; [congruence|].
  split; [congruence|]. rewrite Hs1 in Hs, Hfail, Hok. split; [exact Hs|]. split.
  - intros Hall. apply Hfail. exact (Forall_elem_of _ _ Hall).
  - intros pid Hall. pose proof (Forall_elem_of _ _ Hall) as Hall'.
    split; [apply Hok, Hall'|]. rewrite (Hsig pid Hall'). unfold killBrowserProcess.
    destruct (pupBrowser client) as [p|]; [|exact Hsg1]. rewrite Hpr1.
    destruct (procs w !! p); simpl; congruence.
Qed.

Lemma safeRestartSession_allowed_witness :
  (canRestart "D" (now laterExt) crashedWorld).1 = true
  ∧ sessionLocks crashedWorld !! "D" = None
  ∧ Forall (launchGives 1) (replicate 9 laterExt)
  ∧ ∃ w', run (laterExt :: replicate 9 laterExt) crashedWorld
              (safeRestartSession posixConfig "D" (mkClient (Some 4242)))
          = Some (w', Resolved VUndefined)
        ∧ sessions w' !! "D" = Some (mkClient (Some 1))
        ∧ signals w' = [4242]
        ∧ restartAttempts w' !! "D" = Some (mkAttempts 2 0 40000).
Proof.
  assert (Hyes : (canRestart "D" (now laterExt) crashedWorld).1 = true)
    by (vm_compute; reflexivity).
  assert (Hfree : sessionLocks crashedWorld !! "D" = None) by reflexivity.
  assert (Hes : Forall (launchGives 1) (replicate 9 laterExt)).
  { simpl. repeat constructor. }
  split; [exact Hyes|]. split; [exact Hfree|]. split; [exact Hes|].
  destruct (safeRestartSession_allowed posixConfig "D" (mkClient (Some 4242)) crashedWorld
              laterExt (replicate 9 laterExt) Hyes Hfree ltac:(simpl; lia))
    as (w' & Hrun & Hr & _ & _ & _ & _ & Hok).
  destruct (Hok 1 Hes) as [Hs Hsg].
  exists w'. split; [exact Hrun|]. split; [|split].
  - rewrite Hs. apply lookup_insert_eq.
  - rewrite Hsg. vm_compute. reflexivity.
  - rewrite Hr. vm_compute. reflexivity.
Defined.


(** *** Restoring the sessions of the session folder *)

Lemma listed_cons (file : string) (rest : list string) :
  listed (file :: rest)
  = match session_of_file file with
    | Some sessionId => sessionId :: listed rest
    | None => listed rest
    end.
Proof. reflexivity. Qed.

Lemma restore_loop_settles (P : Ext -> Prop) (cfg : Config) (files : list string) :
  ∀ e w, P e ->
    settles_seg P (fun w' r => r = Resolved VUndefined ∧ restore_post P files w w')
      (5 * List.length files) (restore_loop cfg files e w).
Proof.
  induction files as [|file rest IH]; intros e w He.
  - apply settles_seg_Done. split; [reflexivity|].
    repeat split; auto. intros _ k Hk. apply elem_of_nil in Hk. contradiction.
  - cbn [restore_loop].
    destruct (session_of_file file) as [sessionId|] eqn:Hfile.
    2:{ eapply settles_seg_weaken; [apply IH, He | simpl; lia |].
        intros w' r [-> Hpost]. split; [reflexivity|].
        unfold restore_post in *. rewrite listed_cons, Hfile. exact Hpost. }
    replace (5 * List.length (file :: rest))%nat
      with (4 + S (5 * List.length rest))%nat by (simpl; lia).
    eapply settles_call_await; [apply (setupSession_call_settles P), He|].
    intros w1 a e1 He1 (ok & msg & c & -> & Hp & Hl & Hr & _ & Hok & Hfail & Hgo & _).
    eapply settles_seg_weaken; [apply IH, He1 | lia |].
    intros w' r [-> (Hp' & Hl' & Hr' & Hsub & Hother & Hall)]. split; [reflexivity|].
    assert (Hsub1 : sessions w ⊆ sessions w1).
    { destruct ok.
      - destruct (Hok eq_refl) as ([Hnone _] & _ & pid & _ & Hs & _).
        rewrite Hs. apply insert_subseteq, Hnone.
      - destruct (Hfail eq_refl) as [-> _]. reflexivity. }
    assert (Hother1 : ∀ k, k ≠ sessionId -> sessions w1 !! k = sessions w !! k).
    { intros k Hne. destruct ok.
      - destruct (Hok eq_refl) as (_ & _ & pid & _ & Hs & _).
        rewrite Hs. apply lookup_insert_ne. congruence.
      - destruct (Hfail eq_refl) as [-> _]. reflexivity. }
    unfold restore_post. rewrite listed_cons, Hfile.
    split; [congruence|]. split; [congruence|]. split; [congruence|].
    split; [etransitivity; eassumption|]. split.
    + intros k Hk. rewrite not_elem_of_cons in Hk. destruct Hk as [Hne Hk].
      rewrite (Hother k Hk). apply Hother1, Hne.
    + intros Hsucc k Hk Hnot. apply elem_of_cons in Hk as [-> | Hk].
      * assert (Hhere : is_Some (sessions w1 !! sessionId)).
        { destruct (sessions w !! sessionId) as [c0|] eqn:Hs0.
          - exists c0. eapply lookup_weaken; eassumption.
          - assert (Htrue : ok = true) by (apply Hgo; [exact Hsucc | split; assumption]).
            destruct (Hok Htrue) as (_ & _ & pid & _ & Hs & _).
            rewrite Hs, lookup_insert_eq. eauto. }
        destruct Hhere as [c0 Hc0]. exists c0. eapply lookup_weaken; eassumption.
      * apply Hall; [exact Hsucc | exact Hk | congruence].
Qed.

(** X17.  [restoreSessions] with a session folder in place, run to the
    end of the callback of [readdir] over the entries [files], nothing
    else running: every entry named [session-<id>] is set up, one after
    the other, and a setup that fails does not stop the loop, which
    settles without error.  Afterwards the reservations are as before
    (none of its own is left), the lock and restart tables are
    untouched, every client that was registered still is, keys the listing does not name are as before, and when the
    answers let every setup go through, every id the listing names that
    was not reserved is ACTIVE. *)
Theorem restoreSessions_sets_up_listed (cfg : Config) (files : list string) (ok : bool)
    (w : World) (es : list Ext) :
  is_Some (fs w !! sessionFolderPath cfg) ->
  (1 + 5 * List.length files <= List.length es)%nat ->
  ∃ w',
    run_seg es (restoreSessions cfg (mkListing ok (Some files)) w)
    = Some (w', Resolved VUndefined)
    ∧ pendingSessions w' = pendingSessions w
    ∧ sessionLocks w' = sessionLocks w
    ∧ restartAttempts w' = restartAttempts w
    ∧ sessions w ⊆ sessions w'
    ∧ (∀ k, k ∉ listed files -> sessions w' !! k = sessions w !! k)
    ∧ (Forall launchSucceeds es ->
       ∀ k, k ∈ listed files -> k ∉ pendingSessions w -> is_Some (sessions w' !! k)).
Proof.
  intros [node Hroot] Hlen. unfold run_seg, restoreSessions. rewrite Hroot. cbn [fst snd].
  assert (Hsettles : settles (fun e => e ∈ es)
            (fun w' r => r = Resolved VUndefined ∧ restore_post (fun e => e ∈ es) files w w')
            (S (5 * List.length files)) w
            (Susp (restore_callback cfg (mkListing ok (Some files))))).
  { apply settles_Susp. intros e He. unfold restore_callback. simpl readdir.
    apply restore_loop_settles, He. }
  destruct (settles_run _ _ _ _ _ Hsettles es (Forall_elem_of_self es) Hlen)
    as (w' & r & Hrun & -> & Hp & Hl & Hr & Hsub & Hother & Hall).
  exists w'. split; [exact Hrun|]. split; [exact Hp|]. split; [exact Hl|].
  split; [exact Hr|]. split; [exact Hsub|]. split; [exact Hother|].
  intros Hes. apply Hall. exact (Forall_elem_of _ _ Hes).
Qed.

Lemma restoreSessions_sets_up_listed_witness :
  is_Some (fs restartedWorld !! sessionFolderPath posixConfig)
  ∧ listed ["session-A"; "notes.txt"; "session-"; "session-B"] = ["A"; "B"]
  ∧ ∃ w', run_seg (replicate 21 quietExt)
            (restoreSessions posixConfig
               (mkListing true (Some ["session-A"; "notes.txt"; "session-"; "session-B"]))
               restartedWorld)
          = Some (w', Resolved VUndefined)
        ∧ is_Some (sessions w' !! "A") ∧ is_Some (sessions w' !! "B").
Proof.
  assert (Hroot : is_Some (fs restartedWorld !! sessionFolderPath posixConfig)).
  { vm_compute. eauto. }
  assert (Hlisted : listed ["session-A"; "notes.txt"; "session-"; "session-B"] = ["A"; "B"])
    by (vm_compute; reflexivity).
  split; [exact Hroot|]. split; [exact Hlisted|].
  destruct (restoreSessions_sets_up_listed posixConfig
              ["session-A"; "notes.txt"; "session-"; "session-B"] true restartedWorld
              (replicate 21 quietExt) Hroot ltac:(simpl; lia))
    as (w' & Hrun & _ & _ & _ & _ & _ & Hall).
  assert (Hes : Forall launchSucceeds (replicate 21 quietExt)).
  { apply Forall_forall. intros e He. apply elem_of_replicate in He as [-> _].
    split; [exists 1; reflexivity | split; reflexivity]. }
  exists w'. split; [exact Hrun|]. split.
  - apply (Hall Hes); [rewrite Hlisted; apply list_elem_of_here | apply not_elem_of_empty].
  - apply (Hall Hes); [rewrite Hlisted; apply list_elem_of_further, list_elem_of_here
                      | apply not_elem_of_empty].
Defined.


(** *** Flushing the sessions of the session folder *)

Lemma settles_resume {R} (P : Ext -> Prop) (Q : World -> R -> Prop) (n : nat)
    (w : World) (t : task R) (e : Ext) :
  settles P Q (S n) w t -> (∀ r, t ≠ Done r) -> P e ->
  settles_seg P Q n (resume e w t).
Proof.
  intros H Hnot He. inversion H as [n0 w0 r HQ | n0 w0 t0 _ Hstep]; subst.
  - exfalso. exact (Hnot r eq_refl).
  - apply Hstep, He.
Qed.

Lemma validate_attempts_settles (P : Ext -> Prop) (p : Probe) (w : World) :
  ∀ retries maxRetry, (maxRetry + retries = 2)%nat ->
    settles_seg P
      (fun w' v => w' = w
                   ∧ match evaluable_loop (S retries) maxRetry p with
                     | Some (Some v') => v = v'
                     | Some None => v = validate_getState p
                     | None => False
                     end)
      (S (S retries)) (validate_attempts retries maxRetry p w).
Proof.
  induction retries as [|n IH]; intros m Hm.
  - assert (m = 2%nat) as -> by lia. simpl.
    destruct (isClosed (attempt p 2)); [apply settles_seg_Done; auto | |
                                        apply settles_seg_Done; auto].
    apply settles_seg_Susp. intros e He.
    destruct (race (attempt p 2)); try (apply settles_seg_Susp; intros e' He');
      apply settles_seg_Done; auto.
  - cbn [validate_attempts]. cbn [evaluable_loop].
    assert (Hm' : (m =? 2)%nat = false) by (apply Nat.eqb_neq; lia). rewrite Hm'.
    specialize (IH (S m) ltac:(lia)).
    destruct (isClosed (attempt p m)).
    + apply settles_seg_Done; auto.
    + apply settles_seg_Susp. intros e He.
      destruct (race (attempt p m)).
      * apply settles_seg_Susp. intros e' He'. apply settles_seg_Done; auto.
      * apply settles_seg_Susp. intros e' He'. apply settles_seg_Done; auto.
      * eapply settles_seg_weaken; [exact IH | lia | auto].
    + eapply settles_seg_weaken; [exact IH | lia | auto].
Qed.

(** The coroutine and the function [validateSession] agree: the call
    settles, changes nothing, and gives what the function gives on the
    world of the call. *)
Lemma validateSession_call_settles (P : Ext -> Prop) (p : Probe) (sessionId : string)
    (w : World) :
  settles_seg P (fun w' v => w' = w ∧ validateSession w sessionId p = Some v)
    5 (validateSession_call p sessionId w).
Proof.
  unfold validateSession_call, validateSession.
  destruct (sessions w !! sessionId) as [client|]; [|apply settles_seg_Done; auto].
  apply settles_seg_Susp. intros e He.
  eapply settles_seg_weaken; [apply (validate_attempts_settles P p w 2 0); lia | lia |].
  intros w' v [-> Hv]. split; [reflexivity|].
  destruct (evaluable_loop 3 0 p) as [[v'|]|]; [congruence | | contradiction].
  subst v. unfold validate_getState.
  destruct (getState p) as [st| |err]; [|reflexivity|reflexivity].
  destruct (String.eqb st "CONNECTED"); reflexivity.
Qed.

Lemma reportsConnected_ext (probes : string -> Probe) (k : string) (w w' : World) :
  sessions w' !! k = sessions w !! k ->
  reportsConnected probes k w -> reportsConnected probes k w'.
Proof.
  unfold reportsConnected, validateSession. intros ->. auto.
Qed.

Lemma untouched_refl (k : string) (w : World) : untouched k w w.
Proof. repeat split; auto. Qed.

Lemma untouched_trans (k : string) (w1 w2 w3 : World) :
  untouched k w1 w2 -> untouched k w2 w3 -> untouched k w1 w3.
Proof.
  intros (Hs & Hp & Hr) (Hs' & Hp' & Hr'). split; [congruence|].
  split; [tauto | congruence].
Qed.

(** What a [deleteSession] that has settled leaves of the tables,
    whether the key had a client or not. *)
Lemma deleteSession_tables (P : Ext -> Prop) (cfg : Config) (sessionId : string)
    (validation : option Validation) (w : World) :
  sessionLocks w !! sessionId = None ->
  settles P
    (fun w' r => sessionLocks w' = sessionLocks w
                 ∧ sessions w' = delete sessionId (sessions w)
                 ∧ pendingSessions w' = pendingSessions w ∖ {[sessionId]}
                 ∧ (∀ k, k ≠ sessionId ->
                         restartAttempts w' !! k = restartAttempts w !! k)
                 ∧ (r = Resolved VUndefined ∨ ∃ err, r = Rejected err))
    19 w (deleteSession cfg sessionId validation).
Proof.
  intros Hfree. destruct (sessions w !! sessionId) as [client|] eqn:Hsess.
  - eapply settles_weaken;
      [apply (deleteSession_active_settles P cfg sessionId w Hfree validation client Hsess)
      | lia |].
    intros w' r ((Hs & Hp & Hr) & Hl & _ & _ & Hres & _).
    repeat (split; [assumption|]). split; [|exact Hres].
    intros k Hne. rewrite Hr. apply lookup_delete_ne. congruence.
  - eapply settles_weaken;
      [apply (deleteSession_orphan_settles P cfg sessionId w Hfree validation Hsess)
      | lia |].
    intros w' r (-> & Hs & Hp & Hl & Hr & _).
    split; [exact Hl|]. split; [rewrite Hs; symmetry; apply delete_id, Hsess|].
    split; [exact Hp|]. split; [intros k _; rewrite Hr; reflexivity | left; reflexivity].
Qed.


Section FlushLoop.
Context (probes : string -> Probe) (deleteOnlyInactive : bool).

Lemma flush_post_skipped (sessionId : string) (rest : list string) (w w' : World)
    (r : Completion) :
  deleteOnlyInactive = true ->
  reportsConnected probes sessionId w ->
  flush_post probes deleteOnlyInactive rest w w' r ->
  ∀ file, session_of_file file = Some sessionId ->
          flush_post probes deleteOnlyInactive (file :: rest) w w' r.
Proof.
  intros Hdoi Hconn (Hl & Hs & Hp & Hother & Hkeep & Hres & Hgone) file Hfile.
  unfold flush_post. rewrite listed_cons, Hfile.
  split; [exact Hl|]. split; [exact Hs|]. split; [exact Hp|]. split.
  { intros k Hk. apply not_elem_of_cons in Hk as [_ Hk]. apply Hother, Hk. }
  split; [exact Hkeep|]. split; [exact Hres|].
  intros Hr k Hk Hflush. apply elem_of_cons in Hk as [-> | Hk].
  - exfalso. destruct Hflush as [Hno | Hno]; [congruence | exact (Hno Hconn)].
  - apply Hgone; assumption.
Qed.

Lemma flush_post_flushed (sessionId : string) (rest : list string) (w w2 w' : World)
    (r : Completion) :
  (deleteOnlyInactive = true -> ¬ reportsConnected probes sessionId w) ->
  sessionLocks w2 = sessionLocks w ->
  sessions w2 = delete sessionId (sessions w) ->
  pendingSessions w2 = pendingSessions w ∖ {[sessionId]} ->
  (∀ k, k ≠ sessionId -> restartAttempts w2 !! k = restartAttempts w !! k) ->
  flush_post probes deleteOnlyInactive rest w2 w' r ->
  ∀ file, session_of_file file = Some sessionId ->
          flush_post probes deleteOnlyInactive (file :: rest) w w' r.
Proof.
  intros Hnot Hl2 Hs2 Hp2 Hr2 (Hl & Hs & Hp & Hother & Hkeep & Hres & Hgone) file Hfile.
  assert (Hstep : ∀ k, k ≠ sessionId -> untouched k w w2).
  { intros k Hne. split; [rewrite Hs2; apply lookup_delete_ne; congruence|].
    split; [|apply Hr2, Hne]. rewrite Hp2, elem_of_difference, elem_of_singleton. tauto. }
  unfold flush_post. rewrite listed_cons, Hfile.
  split; [congruence|].
  split; [etransitivity; [exact Hs|]; rewrite Hs2; apply delete_subseteq|].
  split; [etransitivity; [exact Hp|]; rewrite Hp2; apply subseteq_difference_l; reflexivity|].
  split.
  { intros k Hk. apply not_elem_of_cons in Hk as [Hne Hk].
    eapply untouched_trans; [apply Hstep, Hne | apply Hother, Hk]. }
  split.
  { intros Hdoi k Hconn.
    assert (Hne : k ≠ sessionId) by (intros ->; exact (Hnot Hdoi Hconn)).
    pose proof (Hstep k Hne) as Hu.
    eapply untouched_trans; [exact Hu|]. apply (Hkeep Hdoi).
    eapply reportsConnected_ext; [exact (proj1 Hu) | exact Hconn]. }
  split; [exact Hres|].
  intros Hr k Hk Hflush. destruct (decide (k = sessionId)) as [->|Hne].
  - split.
    + eapply lookup_weaken_None; [|exact Hs]. rewrite Hs2. apply lookup_delete_eq.
    + intros Hin. apply Hp in Hin. rewrite Hp2 in Hin.
      apply elem_of_difference in Hin as [_ Hin]. apply Hin, elem_of_singleton. reflexivity.
  - apply elem_of_cons in Hk as [-> | Hk]; [contradiction|].
    apply Hgone; [exact Hr | exact Hk |].
    destruct Hflush as [Hno | Hno]; [left; exact Hno | right].
    intros Hconn. apply Hno.
    eapply reportsConnected_ext; [|exact Hconn]. symmetry. exact (proj1 (Hstep k Hne)).
Qed.

Lemma flush_post_stopped (sessionId err : string) (rest : list string) (w w2 : World) :
  (deleteOnlyInactive = true -> ¬ reportsConnected probes sessionId w) ->
  sessionLocks w2 = sessionLocks w ->
  sessions w2 = delete sessionId (sessions w) ->
  pendingSessions w2 = pendingSessions w ∖ {[sessionId]} ->
  (∀ k, k ≠ sessionId -> restartAttempts w2 !! k = restartAttempts w !! k) ->
  ∀ file, session_of_file file = Some sessionId ->
          flush_post probes deleteOnlyInactive (file :: rest) w w2 (Rejected err).
Proof.
  intros Hnot Hl2 Hs2 Hp2 Hr2 file Hfile.
  assert (Hstep : ∀ k, k ≠ sessionId -> untouched k w w2).
  { intros k Hne. split; [rewrite Hs2; apply lookup_delete_ne; congruence|].
    split; [|apply Hr2, Hne]. rewrite Hp2, elem_of_difference, elem_of_singleton. tauto. }
  unfold flush_post. rewrite listed_cons, Hfile.
  split; [exact Hl2|]. split; [rewrite Hs2; apply delete_subseteq|].
  split; [rewrite Hp2; apply subseteq_difference_l; reflexivity|]. split.
  { intros k Hk. apply not_elem_of_cons in Hk as [Hne _]. apply Hstep, Hne. }
  split.
  { intros Hdoi k Hconn. apply Hstep. intros ->. exact (Hnot Hdoi Hconn). }
  split; [right; eauto | discriminate].
Qed.

Lemma flush_loop_settles (P : Ext -> Prop) (cfg : Config) (files : list string) :
  ∀ e w, P e ->
    (∀ k, k ∈ listed files -> sessionLocks w !! k = None) ->
    settles_seg P (flush_post probes deleteOnlyInactive files w)
      (25 * List.length files) (flush_loop cfg probes deleteOnlyInactive files e w).
Proof.
  induction files as [|file rest IH]; intros e w He Hfree.
  - apply settles_seg_Done. split; [reflexivity|]. split; [reflexivity|].
    split; [reflexivity|]. split; [intros k _; apply untouched_refl|].
    split; [intros _ k _; apply untouched_refl|]. split; [left; reflexivity|].
    intros _ k Hk. apply elem_of_nil in Hk. contradiction.
  - cbn [flush_loop]. destruct (session_of_file file) as [sessionId|] eqn:Hfile.
    2:{ eapply settles_seg_weaken; [apply IH; [exact He|] | simpl; lia |].
        - intros k Hk. apply Hfree. rewrite listed_cons, Hfile. exact Hk.
        - intros w' r Hpost. unfold flush_post in *. rewrite listed_cons, Hfile.
          exact Hpost. }
    assert (Hfree_here : sessionLocks w !! sessionId = None).
    { apply Hfree. rewrite listed_cons, Hfile. apply list_elem_of_here. }
    assert (Hfree_rest : ∀ k, k ∈ listed rest -> sessionLocks w !! k = None).
    { intros k Hk. apply Hfree. rewrite listed_cons, Hfile.
      apply list_elem_of_further, Hk. }
    replace (25 * List.length (file :: rest))%nat
      with (5 + S (18 + S (25 * List.length rest)))%nat by (simpl; lia).
    eapply settles_call_await; [apply (validateSession_call_settles P)|].
    intros w1 v e1 He1 [-> Hv].
    destruct (negb deleteOnlyInactive || negb (success v))%bool eqn:Hflush.
    + assert (Hnot : deleteOnlyInactive = true -> ¬ reportsConnected probes sessionId w).
      { intros -> (v' & Hv' & Hsucc). rewrite Hv in Hv'. injection Hv' as <-.
        rewrite Hsucc in Hflush. discriminate Hflush. }
      eapply settles_call_await.
      * apply (settles_resume P _ 18 w _ e1
                 (deleteSession_tables P cfg sessionId (Some v) w Hfree_here));
          [intros r; discriminate | exact He1].
      * intros w2 r e2 He2 (Hl2 & Hs2 & Hp2 & Hr2 & Hres).
        destruct r as [value | err].
        -- eapply settles_seg_weaken; [apply IH; [exact He2|] | lia |].
           ++ intros k Hk. rewrite Hl2. apply Hfree_rest, Hk.
           ++ intros w' r Hpost.
              exact (flush_post_flushed sessionId rest w w2 w' r Hnot Hl2 Hs2 Hp2 Hr2 Hpost
                       file Hfile).
        -- apply settles_seg_Done.
           exact (flush_post_stopped sessionId err rest w w2 Hnot Hl2 Hs2 Hp2 Hr2 file Hfile).
    + apply orb_false_iff in Hflush as [Hdoi Hsucc].
      apply negb_false_iff in Hdoi. apply negb_false_iff in Hsucc.
      eapply settles_seg_weaken; [apply IH; [exact He1 | exact Hfree_rest] | lia |].
      intros w' r Hpost.
      exact (flush_post_skipped sessionId rest w w' r Hdoi (ex_intro _ v (conj Hv Hsucc))
               Hpost file Hfile).
Qed.
End FlushLoop.


Lemma flushSessions_settles (P : Ext -> Prop) (cfg : Config) (probes : string -> Probe)
    (deleteOnlyInactive ok : bool) (files : list string) (w : World) :
  (∀ k, k ∈ listed files -> sessionLocks w !! k = None) ->
  settles P (flush_post probes deleteOnlyInactive files w)
    (S (25 * List.length files)) w
    (flushSessions cfg probes deleteOnlyInactive (mkListing ok (Some files))).
Proof.
  intros Hfree. unfold flushSessions. apply settles_Susp. intros e He. simpl readdir.
  apply flush_loop_settles; assumption.
Qed.

(** X18.  [flushSessions(true)] run alone over the entries [files], the
    locks of the sessions they name free: it settles, and a session that
    [validateSession] reports connected is passed over, so that its
    registry entry, its reservation and its restart record are as
    before (the tables only: the reaper run for another folder may
    still kill its browser); the same holds for every key the listing
    does not name; no client is registered and no key reserved by the
    flush; and when the flush resolves, every session the listing names
    that was not reported connected is gone from [sessions] and from
    [pendingSessions]. *)
Theorem flushSessions_keeps_connected (cfg : Config) (probes : string -> Probe)
    (ok : bool) (files : list string) (w : World) (es : list Ext) :
  (∀ k, k ∈ listed files -> sessionLocks w !! k = None) ->
  (1 + 25 * List.length files <= List.length es)%nat ->
  ∃ w' r,
    run es w (flushSessions cfg probes true (mkListing ok (Some files))) = Some (w', r)
    ∧ (∀ k, reportsConnected probes k w -> untouched k w w')
    ∧ (∀ k, k ∉ listed files -> untouched k w w')
    ∧ sessions w' ⊆ sessions w
    ∧ pendingSessions w' ⊆ pendingSessions w
    ∧ (r = Resolved VUndefined ->
       ∀ k, k ∈ listed files -> ¬ reportsConnected probes k w ->
            sessions w' !! k = None ∧ k ∉ pendingSessions w').
Proof.
  intros Hfree Hlen.
  destruct (settles_run (fun e => e ∈ es) _ _ _ _
              (flushSessions_settles (fun e => e ∈ es) cfg probes true ok files w Hfree)
              es (Forall_elem_of_self es) Hlen)
    as (w' & r & Hrun & _ & Hs & Hp & Hother & Hkeep & _ & Hgone).
  exists w', r. split; [exact Hrun|]. split; [exact (Hkeep eq_refl)|].
  split; [exact Hother|]. split; [exact Hs|]. split; [exact Hp|].
  intros Hr k Hk Hno. apply Hgone; [exact Hr | exact Hk | right; exact Hno].
Qed.

Lemma flushSessions_keeps_connected_witness :
  (∀ k, k ∈ listed ["session-C"; "session-D"] -> sessionLocks reusedPidWorld !! k = None)
  ∧ reportsConnected (fun _ => silentProbe) "D" reusedPidWorld
  ∧ ∃ w' r, run (replicate 51 quietExt) reusedPidWorld
                (flushSessions posixConfig (fun _ => silentProbe) true
                   (mkListing true (Some ["session-C"; "session-D"])))
            = Some (w', r)
          ∧ sessions w' !! "D" = Some (mkClient (Some 4242)).
Proof.
  assert (Hfree : ∀ k, k ∈ listed ["session-C"; "session-D"] ->
                       sessionLocks reusedPidWorld !! k = None).
  { intros k _. reflexivity. }
  assert (Hconn : reportsConnected (fun _ => silentProbe) "D" reusedPidWorld).
  { eexists. split; [vm_compute; reflexivity | reflexivity]. }
  split; [exact Hfree|]. split; [exact Hconn|].
  destruct (flushSessions_keeps_connected posixConfig (fun _ => silentProbe) true
              ["session-C"; "session-D"] reusedPidWorld (replicate 51 quietExt)
              Hfree ltac:(simpl; lia))
    as (w' & r & Hrun & Hkeep & _).
  exists w', r. split; [exact Hrun|].
  rewrite (proj1 (Hkeep "D" Hconn)). vm_compute. reflexivity.
Defined.




(** *** Operations in sequence *)

(** X20.  Setup and teardown undo each other on the tables: on an
    ABSENT key whose lock is free, [setupSession] that goes through
    followed by [destroySession] leaves [sessions], [pendingSessions]
    and the lock table exactly as they were before the setup, and no
    restart record for the key. *)
Theorem setupSession_then_destroySession (cfg : Config) (sessionId : string) (w : World)
    (pid : Z) (es1 es2 : list Ext) :
  isAbsent sessionId w ->
  sessionLocks w !! sessionId = None ->
  Forall (launchGives pid) es1 ->
  (5 <= List.length es1)%nat ->
  (15 <= List.length es2)%nat ->
  ∃ w1 w2,
    run es1 w (setupSession cfg sessionId) = Some (w1, won pid)
    ∧ run es2 w1 (destroySession cfg sessionId) = Some (w2, Resolved VUndefined)
    ∧ isActive sessionId w1
    ∧ sessions w2 = sessions w
    ∧ pendingSessions w2 = pendingSessions w
    ∧ sessionLocks w2 = sessionLocks w
    ∧ restartAttempts w2 = delete sessionId (restartAttempts w).
Proof.
  intros [Hsess Hpend] Hfree Hes1 Hlen1 Hlen2.
  destruct (settles_run (launchGives pid) _ _ _ _
              (setupSession_settles (launchGives pid) cfg sessionId w) es1 Hes1 Hlen1)
    as (w1 & r & Hrun1 & ok & msg & c & -> & Hp1 & Hl1 & Hr1 & _ & Hok & _ & Hgo & _ & Hpid).
  assert (Htrue : ok = true).
  { apply Hgo; [|split; assumption]. intros e He. eapply launchGives_succeeds, He. }
  destruct (Hok Htrue) as (_ & -> & pid' & Hc & Hs1 & _).
  assert (Hc' : c = Some (mkClient (Some pid))).
  { apply Hpid; [|exact Htrue]. intros e He. exact (proj1 He). }
  assert (pid' = pid) as -> by congruence. subst ok c.
  assert (Hreg : sessions w1 !! sessionId = Some (mkClient (Some pid))).
  { rewrite Hs1. apply lookup_insert_eq. }
  assert (Hfree1 : sessionLocks w1 !! sessionId = None) by (rewrite Hl1; exact Hfree).
  destruct (settles_run (fun e => e ∈ es2) _ _ _ _
              (destroySession_active_settles (fun e => e ∈ es2) cfg sessionId w1 Hfree1
                 _ Hreg)
              es2 (Forall_elem_of_self es2) Hlen2)
    as (w2 & r & Hrun2 & -> & (Hs2 & Hp2 & Hr2) & Hl2 & _).
  exists w1, w2. split; [exact Hrun1|]. split; [exact Hrun2|].
  split; [exists (mkClient (Some pid)); exact Hreg|].
  split; [rewrite Hs2, Hs1; apply delete_insert_id, Hsess|].
  split; [rewrite Hp2, Hp1; apply pending_delete_absent, Hpend|].
  split; [congruence|]. rewrite Hr2, Hr1. reflexivity.
Qed.

Lemma setupSession_then_destroySession_witness :
  isAbsent "C" reusedPidWorld
  ∧ sessionLocks reusedPidWorld !! "C" = None
  ∧ Forall (launchGives 1) (replicate 5 quietExt)
  ∧ ∃ w1 w2,
      run (replicate 5 quietExt) reusedPidWorld (setupSession posixConfig "C")
      = Some (w1, won 1)
      ∧ run (replicate 15 quietExt) w1 (destroySession posixConfig "C")
        = Some (w2, Resolved VUndefined)
      ∧ sessions w2 = sessions reusedPidWorld.
Proof.
  assert (Habs : isAbsent "C" reusedPidWorld).
  { split; [vm_compute; reflexivity | apply not_elem_of_empty]. }
  assert (Hfree : sessionLocks reusedPidWorld !! "C" = None) by reflexivity.
  assert (Hes : Forall (launchGives 1) (replicate 5 quietExt)).
  { simpl. repeat constructor. }
  split; [exact Habs|]. split; [exact Hfree|]. split; [exact Hes|].
  destruct (setupSession_then_destroySession posixConfig "C" reusedPidWorld 1
              (replicate 5 quietExt) (replicate 15 quietExt) Habs Hfree Hes
              ltac:(simpl; lia) ltac:(simpl; lia))
    as (w1 & w2 & Hrun1 & Hrun2 & _ & Hs & _).
  exists w1, w2. repeat split; assumption.
Defined.

(** X21.  The [ready] handler of a session restores its restart budget:
    once it has run, whatever the record of the key was, the next
    [canRestart] for the key is allowed, at whatever time it is asked,
    and starts a new window with count 1; the handler changes nothing
    else. *)
Theorem ready_restores_restart_budget (sessionId : string) (w : World) (e : Ext)
    (es : list Ext) (t : Z) :
  ∃ w1,
    run (e :: es) w (onReady sessionId) = Some (w1, Resolved VUndefined)
    ∧ w1 = set_restartAttempts (delete sessionId) w
    ∧ (canRestart sessionId t w1).1 = true
    ∧ restartAttempts (canRestart sessionId t w1).2 !! sessionId
      = Some (mkAttempts 1 t t).
Proof.
  exists (set_restartAttempts (delete sessionId) w).
  split; [unfold onReady; rewrite run_Susp; apply run_Done|].
  split; [reflexivity|].
  unfold canRestart. simpl. rewrite lookup_delete_eq. simpl.
  split; [reflexivity | apply lookup_insert_eq].
Qed.


(** ** Operations on different keys *)

Section KeyedBodies.
Context (k : string) (T : World -> World -> Prop) `{!KeyStep k T}.

Lemma keyed_refl w : T w w.
Proof. apply (key_refl (k := k)). Qed.

Lemma keyed_fs w w' f : T w w' -> T w (set_fs f w').
Proof. apply (key_fs (k := k)). Qed.

Lemma keyed_procs w w' f : T w w' -> T w (set_procs f w').
Proof. apply (key_procs (k := k)). Qed.

Lemma keyed_signals w w' f : T w w' -> T w (set_signals f w').
Proof. apply (key_signals (k := k)). Qed.

Lemma keyed_restart_delete w w' : T w w' -> T w (set_restartAttempts (delete k) w').
Proof. apply key_restart_delete. Qed.

Lemma keyed_lock_insert w w' : T w w' -> T w (set_sessionLocks (insert k true) w').
Proof. apply key_lock_insert. Qed.

Lemma keyed_lock_delete w w' : T w w' -> T w (releaseSessionLock k w').
Proof. apply key_lock_delete. Qed.

Lemma keyed_pending_add w w' :
  T w w' -> T w (set_pendingSessions (fun s => {[k]} ∪ s) w').
Proof. apply key_pending_add. Qed.

Lemma keyed_pending_delete w w' :
  T w w' -> T w (set_pendingSessions (fun s => s ∖ {[k]}) w').
Proof. apply key_pending_delete. Qed.

Lemma keyed_sessions_insert w w' c : T w w' -> T w (set_sessions (insert k c) w').
Proof. apply key_sessions_insert. Qed.

Lemma keyed_sessions_delete w w' : T w w' -> T w (set_sessions (delete k) w').
Proof. apply key_sessions_delete. Qed.

Lemma keyed_sigkill w w' pid : T w w' -> T w (sigkill pid w').
Proof. intros H. apply keyed_procs, keyed_signals, H. Qed.

Lemma keyed_spawn w w' pid : T w w' -> T w (spawn pid k w').
Proof. intros H. apply keyed_procs, H. Qed.

Lemma keyed_killBrowserProcess w w' client : T w w' -> T w (killBrowserProcess client w').
Proof.
  intros H. unfold killBrowserProcess.
  destruct (pupBrowser client) as [pid|]; [|exact H].
  destruct (procs w' !! pid); [apply keyed_sigkill|]; exact H.
Qed.

Lemma keyed_dropSession w w' : T w w' -> T w (dropSession k w').
Proof. intros H. apply keyed_pending_delete, keyed_sessions_delete, H. Qed.

Lemma keyed_clearSession w w' : T w w' -> T w (clearSession k w').
Proof.
  intros H. apply keyed_restart_delete, keyed_pending_delete, keyed_sessions_delete, H.
Qed.

Lemma keyed_canRestart w w' now : T w w' -> T w (canRestart k now w').2.
Proof. intros H. rewrite canRestart_world. apply key_restart_alter, H. Qed.

Ltac keyed_world :=
  solve [ eauto 12 using keyed_refl, keyed_fs, keyed_procs, keyed_signals,
            keyed_restart_delete, keyed_pending_add, keyed_pending_delete,
            keyed_sessions_insert, keyed_sessions_delete, keyed_sigkill, keyed_spawn,
            keyed_killBrowserProcess, keyed_dropSession, keyed_clearSession ].

Ltac keyed_step :=
  match goal with
  | |- always_seg _ _ (call_await _ _) => apply always_call_await; [|intros ? ? ?]
  | |- always_seg _ _ (match ?x with _ => _ end) => destruct x eqn:?
  | |- always_seg _ _ (let x := _ in _) => cbv zeta
  | |- always_seg _ _ (_, _) => split; cbn [fst snd]
  | |- always _ (Done _) => constructor
  | |- always _ (Susp _) => apply always_Susp_seg; intros ? ?
  | |- T _ _ => keyed_world
  end.

Ltac keyed := repeat keyed_step.

Lemma keyed_setup_after_initialize (e : Ext) (w : World) :
  always_seg T w (setup_after_initialize k e w).
Proof.
  unfold setup_after_initialize.
  destruct (launch e) as [pid | [pid|] err]; keyed; unfold setup_after_kill; keyed.
Qed.

Lemma keyed_setup_after_unlink (cfg : Config) (e : Ext) (w : World) :
  always_seg T w (setup_after_unlink cfg k e w).
Proof. unfold setup_after_unlink. keyed. apply keyed_setup_after_initialize. Qed.

Lemma keyed_setup_after_lstat (cfg : Config) (e : Ext) (w : World) :
  always_seg T w (setup_after_lstat cfg k e w).
Proof.
  unfold setup_after_lstat. keyed;
    first [ apply keyed_setup_after_initialize | apply keyed_setup_after_unlink ].
Qed.

Lemma keyed_setupSession_call (cfg : Config) (e : Ext) (w : World) :
  always_seg T w (setupSession_call cfg k e w).
Proof.
  unfold setupSession_call. keyed;
    first [ apply keyed_setup_after_initialize | apply keyed_setup_after_lstat ].
Qed.

Lemma keyed_orphan_after_unlink (cfg : Config) (e : Ext) (w : World) :
  always_seg T w (orphan_after_unlink cfg k e w).
Proof. unfold orphan_after_unlink. destruct (unlinkOk e); keyed. Qed.

Lemma keyed_orphan_after_readlink (cfg : Config) (e : Ext) (w : World) :
  always_seg T w (orphan_after_readlink cfg k e w).
Proof. unfold orphan_after_readlink. keyed; apply keyed_orphan_after_unlink. Qed.

Lemma keyed_killOrphaned (cfg : Config) (w : World) :
  always_seg T w (killOrphanedBrowserByLockFile cfg k w).
Proof.
  unfold killOrphanedBrowserByLockFile. keyed.
  unfold orphan_after_lstat. keyed. apply keyed_orphan_after_readlink.
Qed.

Lemma keyed_deleteSessionFolder (cfg : Config) (w : World) :
  always_seg T w (deleteSessionFolder cfg k w).
Proof.
  unfold deleteSessionFolder. keyed.
  unfold folder_after_realpath_target. keyed.
  unfold folder_after_realpath_root. keyed.
  unfold folder_after_rm. keyed.
Qed.

Lemma keyed_wait_disconnect (ticks : nat)
    (after : bool -> Ext -> World -> seg Completion) :
  (∀ b e w, always_seg T w (after b e w)) ->
  ∀ e w, always_seg T w (wait_disconnect ticks after e w).
Proof.
  intros Hafter. induction ticks as [|n IH]; intros e w; simpl.
  - destruct (browserConnected e); apply Hafter.
  - destruct (browserConnected e); [|apply Hafter]. keyed. apply IH.
Qed.

Lemma keyed_destroy_body (cfg : Config) (e : Ext) (w : World) :
  always_seg T w (destroy_body cfg k e w).
Proof.
  unfold destroy_body. destruct (sessions w !! k) as [client|].
  - keyed. apply keyed_wait_disconnect.
    intros b e' w'. unfold destroy_finish. keyed.
  - keyed. apply keyed_killOrphaned.
Qed.

Lemma keyed_delete_tail (cfg : Config) (e : Ext) (w : World) :
  always_seg T w (delete_tail cfg k e w).
Proof.
  unfold delete_tail. keyed.
  apply (always_seg_after T w (clearSession k w)); [apply (key_trans (k := k)) | keyed_world |].
  apply keyed_deleteSessionFolder.
Qed.

Lemma keyed_delete_body (cfg : Config) (v : option Validation) (e : Ext) (w : World) :
  always_seg T w (delete_body cfg k v e w).
Proof.
  unfold delete_body.
  assert (Hloop : ∀ client e w,
            always_seg T w (wait_disconnect 10 (delete_finish cfg k client) e w)).
  { intros client e' w'. apply keyed_wait_disconnect.
    intros b e'' w''. unfold delete_finish. destruct b.
    - keyed. apply keyed_delete_tail.
    - apply keyed_delete_tail. }
  destruct (sessions w !! k) as [client|].
  - keyed; apply Hloop.
  - keyed; [apply keyed_killOrphaned|].
    eapply always_seg_after;
      [apply (key_trans (k := k)) | | apply keyed_deleteSessionFolder].
    keyed_world.
Qed.

Lemma keyed_reload_relaunch (cfg : Config) (e : Ext) (w : World) :
  always_seg T w (reload_relaunch cfg k e w).
Proof.
  unfold reload_relaunch. keyed.
  apply (always_seg_after T w (dropSession k w)); [apply (key_trans (k := k)) | keyed_world |].
  apply keyed_setupSession_call.
Qed.

Lemma keyed_reload_close (more : nat) (cfg : Config) (client : Client) :
  ∀ e w, always_seg T w (reload_close more cfg k client e w).
Proof.
  induction more as [|n IH]; intros e w; simpl.
  - destruct (closeOk e); [apply keyed_reload_relaunch|].
    keyed. apply keyed_reload_relaunch.
  - destruct (closeOk e); keyed; [apply IH | apply keyed_reload_relaunch].
Qed.

Lemma keyed_reload_body (cfg : Config) (e : Ext) (w : World) :
  always_seg T w (reload_body cfg k e w).
Proof. unfold reload_body. keyed. apply keyed_reload_close. Qed.

Lemma keyed_restart_body (cfg : Config) (client : Client) (e : Ext) (w : World) :
  always_seg T w (restart_body cfg k client e w).
Proof. unfold restart_body. keyed. apply keyed_setupSession_call. Qed.

Lemma keyed_guarded (body : Ext -> World -> seg Completion) :
  (∀ e w, always_seg T w (body e w)) ->
  always T (acquireSessionLock k (fun e w => finally_seg (body e w) (releaseSessionLock k))).
Proof.
  intros Hbody. unfold acquireSessionLock. constructor; intros e w; cbn [fst snd].
  - apply keyed_lock_insert, keyed_refl.
  - apply always_Susp_seg. intros e' w'.
    apply always_finally_seg; [intros w1 w2; apply keyed_lock_delete | apply Hbody].
Qed.

Lemma keyed_invoke (cfg : Config) (op : Op) :
  op_key op = k -> always T (invoke cfg op).
Proof.
  destruct op as [k' | k' | k' | k' v | k' client | k']; simpl; intros ->.
  - unfold setupSession. apply always_Susp_seg. intros e w. apply keyed_setupSession_call.
  - apply keyed_guarded. intros e w. apply keyed_reload_body.
  - apply keyed_guarded. intros e w. apply keyed_destroy_body.
  - apply keyed_guarded. intros e w. apply keyed_delete_body.
  - unfold safeRestartSession. apply always_Susp_seg. intros e w.
    unfold safeRestartSession_call.
    pose proof (keyed_canRestart w w (now e) (keyed_refl w)) as Hcan.
    destruct (canRestart k (now e) w) as [ok w1]. cbn [snd] in Hcan.
    apply (always_seg_after T w w1); [apply (key_trans (k := k)) | exact Hcan |].
    destruct ok.
    + apply always_resume; [apply keyed_refl|].
      apply keyed_guarded. intros e' w'. apply keyed_restart_body.
    + keyed.
  - unfold onReady. keyed.
Qed.
End KeyedBodies.

#[local] Instance isolated_KeyStep (k j : string) :
  k ≠ j -> KeyStep k (isolated j).
Proof.
  intros Hne. split; unfold isolated; simpl.
  - intros w. repeat split; auto.
  - intros w1 w2 w3 (Hs & Hp & Hl & Hr) (Hs' & Hp' & Hl' & Hr').
    split; [congruence|]. split; [tauto|]. split; congruence.
  - auto.
  - auto.
  - auto.
  - intros w w' f (Hs & Hp & Hl & Hr). repeat split; try tauto.
    rewrite lookup_partial_alter_ne by exact Hne. exact Hr.
  - intros w w' (Hs & Hp & Hl & Hr). repeat split; try tauto.
    rewrite lookup_delete_ne by exact Hne. exact Hr.
  - intros w w' (Hs & Hp & Hl & Hr). repeat split; try tauto.
    rewrite lookup_insert_ne by exact Hne. exact Hl.
  - intros w w' (Hs & Hp & Hl & Hr). repeat split; try tauto.
    rewrite lookup_delete_ne by exact Hne. exact Hl.
  - intros w w' (Hs & Hp & Hl & Hr). split; [exact Hs|]. split; [|split; assumption].
    rewrite elem_of_union, elem_of_singleton. split; [|tauto].
    intros [-> | Hin]; [contradiction | tauto].
  - intros w w' (Hs & Hp & Hl & Hr). split; [exact Hs|]. split; [|split; assumption].
    rewrite elem_of_difference, elem_of_singleton. split; [tauto|].
    intros Hin. split; [tauto|]. intros ->. contradiction.
  - intros w w' c (Hs & Hp & Hl & Hr). repeat split; try tauto.
    rewrite lookup_insert_ne by exact Hne. exact Hs.
  - intros w w' (Hs & Hp & Hl & Hr). repeat split; try tauto.
    rewrite lookup_delete_ne by exact Hne. exact Hs.
Qed.

Lemma invoke_isolated (cfg : Config) (op : Op) (j : string) :
  op_key op ≠ j -> always (isolated j) (invoke cfg op).
Proof.
  intros Hne. apply (keyed_invoke (op_key op) (isolated j) (KeyStep0 := isolated_KeyStep _ _ Hne)).
  reflexivity.
Qed.


Lemma isolated_refl (j : string) (w : World) : isolated j w w.
Proof. repeat split; auto. Qed.

Lemma isolated_trans (j : string) (w1 w2 w3 : World) :
  isolated j w1 w2 -> isolated j w2 w3 -> isolated j w1 w3.
Proof.
  intros (Hs & Hp & Hl & Hr) (Hs' & Hp' & Hl' & Hr').
  split; [congruence|]. split; [tauto|]. split; congruence.
Qed.

Lemma step_beside_isolated (cfg : Config) (j : string) (s s' : System) :
  step_beside cfg j s s' ->
  Forall (always (isolated j)) (pool s) ->
  isolated j (world s) (world s') ∧ Forall (always (isolated j)) (pool s').
Proof.
  intros Hstep Hpool. destruct Hstep as [s s' Hres | s op _ Hne].
  - destruct Hres as [s i t e Hi _ _]. cbn [world pool].
    assert (Ht : always (isolated j) t).
    { rewrite Forall_forall in Hpool. apply Hpool. eapply list_elem_of_lookup_2, Hi. }
    destruct (always_resume (isolated j) e (world s) t (isolated_refl j) Ht) as [Hw Ht'].
    split; [exact Hw | apply Forall_insert; assumption].
  - cbn [world pool]. split; [apply isolated_refl|].
    apply Forall_app. split; [exact Hpool|].
    apply Forall_cons. split; [apply invoke_isolated, Hne | apply Forall_nil; exact I].
Qed.

(** X22.  Sessions do not interfere through the tables.  From a state
    with nothing in flight, whatever operations on other keys are
    started (setup, reload, destroy, delete, crash recovery, the ready
    handler), however their segments interleave and whatever the
    environment answers: the registry entry of [j], its reservation, its
    session lock and its restart record stay as they were.  (Files and
    processes are not protected in this way: the folder removal and the
    orphan reaper act on what the file system hands them.) *)
Theorem sessions_isolated (cfg : Config) (j : string) (s0 s : System) :
  pool s0 = [] ->
  rtc (step_beside cfg j) s0 s ->
  sessions (world s) !! j = sessions (world s0) !! j
  ∧ (j ∈ pendingSessions (world s) <-> j ∈ pendingSessions (world s0))
  ∧ sessionLocks (world s) !! j = sessionLocks (world s0) !! j
  ∧ restartAttempts (world s) !! j = restartAttempts (world s0) !! j.
Proof.
  intros Hpool Hsteps.
  assert (Hinv : isolated j (world s0) (world s)
                 ∧ Forall (always (isolated j)) (pool s)).
  { refine (rtc_ind_r (fun s => isolated j (world s0) (world s)
                                 ∧ Forall (always (isolated j)) (pool s))
                       s0 _ _ s Hsteps).
    - split; [apply isolated_refl | rewrite Hpool; constructor].
    - intros s1 s2 _ Hstep [Hw Hp].
      destruct (step_beside_isolated cfg j s1 s2 Hstep Hp) as [Hw' Hp'].
      split; [eapply isolated_trans; eassumption | exact Hp']. }
  exact (proj1 Hinv).
Qed.

Lemma sessions_isolated_witness :
  pool crashedSystem = []
  ∧ rtc (step_beside posixConfig "D") crashedSystem crashedSystemBusy
  ∧ "C" ∈ pendingSessions (world crashedSystemBusy)
  ∧ sessions (world crashedSystemBusy) !! "D" = Some (mkClient (Some 4242))
  ∧ restartAttempts (world crashedSystemBusy) !! "D" = Some (mkAttempts 1 0 0).
Proof.
  assert (Hpool : pool crashedSystem = []) by reflexivity.
  assert (Hsteps : rtc (step_beside posixConfig "D") crashedSystem crashedSystemBusy).
  { eapply rtc_l.
    { apply (beside_invoke posixConfig "D" crashedSystem (OpSetup "C")); [exact I|].
      discriminate. }
    apply rtc_once. apply beside_resume.
    apply (resume_at (fun _ => True)
             (mkSystem crashedWorld ([] ++ [invoke posixConfig (OpSetup "C")])%list)
             0%nat (setupSession posixConfig "C") quietExt);
      [reflexivity | intros r; discriminate | exact I]. }
  split; [exact Hpool|]. split; [exact Hsteps|].
  destruct (sessions_isolated posixConfig "D" crashedSystem crashedSystemBusy Hpool Hsteps)
    as (Hs & _ & _ & Hr).
  split; [|split].
  - unfold crashedSystemBusy, setupSession, setupSession_call.
    cbn [world resume]. change (sessions crashedWorld !! "C") with (@None Client).
    rewrite bool_decide_eq_false_2 by apply not_elem_of_empty.
    cbn. apply elem_of_union_l, elem_of_singleton. reflexivity.
  - rewrite Hs. vm_compute. reflexivity.
  - rewrite Hr. vm_compute. reflexivity.
Defined.


(** ** The session lock as a mutex *)

Lemma free_locking {R} (t : task R) : always same_locks t -> locking None t.
Proof.
  intros Ht. induction Ht as [r | g H1 H2 IH | busy g H1 H2 IH]; simpl.
  - reflexivity.
  - intros e w. exists None. split; [apply move_keep; [reflexivity | apply H1] | apply IH].
  - intros e w _. exists None. split; [apply move_keep; [reflexivity | apply H1] | apply IH].
Qed.

Lemma owner_segment {R} (k : string) (w w' : World) (t' : task R) :
  same_locks w w' ->
  ((∀ r, t' ≠ Done r) -> locking (Some k) (finally_ t' (releaseSessionLock k))) ->
  ∃ o', lock_move (Some k) o' w
          (match t' with
           | Done r => (releaseSessionLock k w', Done r)
           | _ => (w', finally_ t' (releaseSessionLock k))
           end).1
        ∧ locking o'
            (match t' with
             | Done r => (releaseSessionLock k w', Done r)
             | _ => (w', finally_ t' (releaseSessionLock k))
             end).2.
Proof.
  intros Hw IH. destruct t' as [r | g | busy g]; cbn [fst snd].
  - exists None. split; [|reflexivity].
    apply (move_release _ _ _ _ k); [reflexivity | reflexivity |].
    simpl. rewrite Hw. reflexivity.
  - exists (Some k). split; [apply move_keep; [reflexivity | exact Hw]|].
    apply IH. intros r; discriminate.
  - exists (Some k). split; [apply move_keep; [reflexivity | exact Hw]|].
    apply IH. intros r; discriminate.
Qed.

Lemma owner_finally {R} (k : string) (t : task R) :
  always same_locks t -> (∀ r, t ≠ Done r) ->
  locking (Some k) (finally_ t (releaseSessionLock k)).
Proof.
  intros Ht. induction Ht as [r | g H1 H2 IH | busy g H1 H2 IH]; intros Hnot.
  - exfalso. exact (Hnot r eq_refl).
  - simpl. intros e w. specialize (H1 e w). specialize (IH e w).
    destruct (g e w) as [w' t']. apply owner_segment; assumption.
  - simpl. intros e w _. specialize (H1 e w). specialize (IH e w).
    destruct (g e w) as [w' t']. apply owner_segment; assumption.
Qed.

Lemma owner_body (k : string) (body : Ext -> World -> seg Completion) :
  (∀ e w, always_seg same_locks w (body e w)) ->
  locking (Some k) (Susp (fun e w => finally_seg (body e w) (releaseSessionLock k))).
Proof.
  intros Hbody. simpl. intros e w. destruct (Hbody e w) as [Hw Ht].
  unfold finally_seg. destruct (body e w) as [w' t']. cbn [fst snd] in *.
  assert (Hfin : (∀ r, t' ≠ Done r) ->
                 locking (Some k) (finally_ t' (releaseSessionLock k)))
    by (intros Hnot; apply owner_finally; assumption).
  destruct t' as [r | g | busy g].
  - exact (owner_segment k w w' (Done r) Hw Hfin).
  - exact (owner_segment k w w' (Susp g) Hw Hfin).
  - exact (owner_segment k w w' (Poll busy g) Hw Hfin).
Qed.

Lemma guarded_locking (k : string) (body : Ext -> World -> seg Completion) :
  (∀ e w, always_seg same_locks w (body e w)) ->
  locking None
    (acquireSessionLock k (fun e w => finally_seg (body e w) (releaseSessionLock k))).
Proof.
  intros Hbody. unfold acquireSessionLock. cbn [locking]. intros e w Hfree.
  exists (Some k). cbn [fst snd]. split.
  - apply (move_acquire _ _ _ _ k); [reflexivity | reflexivity | exact Hfree | reflexivity].
  - apply owner_body, Hbody.
Qed.

Lemma locking_resume {R} (o : option string) (e : Ext) (w : World) (t : task R) :
  locking o t ->
  ∃ o', lock_move o o' w (resume e w t).1 ∧ locking o' (resume e w t).2.
Proof.
  intros Ht. destruct t as [r | g | busy g]; simpl in *.
  - exists o. split; [apply move_keep; reflexivity | exact Ht].
  - apply Ht.
  - destruct (busy w) eqn:Hbusy; [|apply Ht, Hbusy].
    exists o. split; [apply move_keep; reflexivity | exact Ht].
Qed.

Lemma lockHeld_same (k : string) (w w' : World) :
  sessionLocks w' = sessionLocks w -> lockHeld k w' = lockHeld k w.
Proof. unfold lockHeld. intros ->. reflexivity. Qed.

Lemma invoke_locking (cfg : Config) (op : Op) : locking None (invoke cfg op).
Proof.
  destruct op as [k | k | k | k v | k client | k]; simpl invoke.
  - apply free_locking, setupSession_always; typeclasses eauto.
  - apply guarded_locking. intros e w. apply reload_body_always; typeclasses eauto.
  - apply guarded_locking. intros e w. apply destroy_body_always; typeclasses eauto.
  - apply guarded_locking. intros e w. apply delete_body_always; typeclasses eauto.
  - unfold safeRestartSession. cbn [locking]. intros e w.
    unfold safeRestartSession_call.
    pose proof (step_canRestart same_locks w w k (now e) (step_refl w)) as Hcan.
    destruct (canRestart k (now e) w) as [ok w1]. cbn [snd] in Hcan.
    destruct ok.
    + destruct (locking_resume None e w1 _
                  (guarded_locking k (restart_body cfg k client)
                     (fun e w => restart_body_always same_locks cfg k client e w)))
        as [o' [Hmove Hlock]].
      exists o'. split; [|exact Hlock].
      destruct Hmove as [Ho Hl | k' Ho Ho' Hfree Hl | k' Ho Ho' Hl].
      * apply move_keep; [exact Ho | rewrite Hl; exact Hcan].
      * apply (move_acquire _ _ _ _ k'); [exact Ho | exact Ho' | | rewrite Hl, Hcan; reflexivity].
        rewrite <- Hfree. symmetry. apply lockHeld_same, Hcan.
      * discriminate Ho.
    + exists None. cbn [fst snd].
      destruct (restart_denied_always same_locks k client w1) as [Hw Ht].
      cbn [fst snd] in Hw, Ht. split.
      * apply move_keep; [reflexivity|]. unfold same_locks in *. rewrite Hw. exact Hcan.
      * apply free_locking. exact Ht.
  - apply free_locking, onReady_always; typeclasses eauto.
Qed.

Lemma lock_table_held (os : list (option string)) (s : System) (k : string) :
  lock_table os s -> lockHeld k (world s) = false -> Some k ∉ os.
Proof.
  intros (_ & Hheld & _ & Htrue) Hfree Hin. apply Hheld in Hin as [b Hb].
  pose proof (Htrue k b Hb) as ->. unfold lockHeld in Hfree. rewrite Hb in Hfree.
  discriminate.
Qed.

Lemma lock_table_resume (allowed : Ext -> Prop) (s s' : System) (os : list (option string)) :
  resume_step allowed s s' -> lock_table os s -> ∃ os', lock_table os' s'.
Proof.
  intros Hstep Htable. pose proof Htable as (Hall & Hheld & Huniq & Htrue).
  destruct Hstep as [s i t e Hi _ _].
  destruct (Forall2_lookup_r _ _ _ _ _ Hall Hi) as [o [Hoi Hlock]].
  destruct (locking_resume o e (world s) t Hlock) as [o' [Hmove Hlock']].
  assert (Hlt : (i < List.length os)%nat) by (eapply lookup_lt_Some, Hoi).
  exists (<[i := o']> os). split; [apply Forall2_insert; assumption|]. cbn [world pool].
  destruct Hmove as [Ho Hl | k1 Ho Ho' Hfree Hl | k1 Ho Ho' Hl]; rewrite Hl.
  - subst o'. rewrite list_insert_id by exact Hoi. repeat split; auto; apply Hheld.
  - subst o o'.
    assert (Hnot : Some k1 ∉ os) by (eapply lock_table_held; eassumption).
    split; [|split].
    + intros k. destruct (decide (k1 = k)) as [->|Hne].
      * rewrite lookup_insert_eq. split; [intros _ | eauto].
        apply list_elem_of_lookup. exists i. apply list_lookup_insert_eq, Hlt.
      * rewrite lookup_insert_ne by exact Hne. rewrite Hheld. split.
        -- intros Hin. apply list_elem_of_lookup in Hin as [j Hj].
           apply list_elem_of_lookup. exists j.
           rewrite list_lookup_insert_ne; [exact Hj|]. intros ->. congruence.
        -- intros Hin. apply list_elem_of_lookup in Hin as [j Hj].
           destruct (decide (i = j)) as [->|Hij].
           ++ rewrite list_lookup_insert_eq in Hj by exact Hlt. congruence.
           ++ rewrite list_lookup_insert_ne in Hj by exact Hij.
              eapply list_elem_of_lookup_2, Hj.
    + intros j1 j2 k Hj1 Hj2.
      destruct (decide (i = j1)) as [<-|H1]; destruct (decide (i = j2)) as [<-|H2].
      * reflexivity.
      * rewrite list_lookup_insert_eq in Hj1 by exact Hlt. injection Hj1 as ->.
        rewrite list_lookup_insert_ne in Hj2 by exact H2.
        exfalso. apply Hnot. eapply list_elem_of_lookup_2, Hj2.
      * rewrite list_lookup_insert_eq in Hj2 by exact Hlt. injection Hj2 as ->.
        rewrite list_lookup_insert_ne in Hj1 by exact H1.
        exfalso. apply Hnot. eapply list_elem_of_lookup_2, Hj1.
      * rewrite list_lookup_insert_ne in Hj1 by exact H1.
        rewrite list_lookup_insert_ne in Hj2 by exact H2. eapply Huniq; eassumption.
    + intros k b. destruct (decide (k1 = k)) as [->|Hne].
      * rewrite lookup_insert_eq. congruence.
      * rewrite lookup_insert_ne by exact Hne. apply Htrue.
  - subst o o'. split; [|split].
    + intros k. destruct (decide (k1 = k)) as [->|Hne].
      * rewrite lookup_delete_eq. split; [intros [b Hb]; discriminate|].
        intros Hin. exfalso. apply list_elem_of_lookup in Hin as [j Hj].
        destruct (decide (i = j)) as [->|Hij].
        -- rewrite list_lookup_insert_eq in Hj by exact Hlt. discriminate.
        -- rewrite list_lookup_insert_ne in Hj by exact Hij.
           apply Hij. eapply Huniq; eassumption.
      * rewrite lookup_delete_ne by exact Hne. rewrite Hheld. split.
        -- intros Hin. apply list_elem_of_lookup in Hin as [j Hj].
           apply list_elem_of_lookup. exists j.
           rewrite list_lookup_insert_ne; [exact Hj|]. intros ->. congruence.
        -- intros Hin. apply list_elem_of_lookup in Hin as [j Hj].
           destruct (decide (i = j)) as [->|Hij].
           ++ rewrite list_lookup_insert_eq in Hj by exact Hlt. discriminate.
           ++ rewrite list_lookup_insert_ne in Hj by exact Hij.
              eapply list_elem_of_lookup_2, Hj.
    + intros j1 j2 k Hj1 Hj2.
      destruct (decide (i = j1)) as [->|H1].
      { rewrite list_lookup_insert_eq in Hj1 by exact Hlt. discriminate. }
      destruct (decide (i = j2)) as [->|H2].
      { rewrite list_lookup_insert_eq in Hj2 by exact Hlt. discriminate. }
      rewrite list_lookup_insert_ne in Hj1 by exact H1.
      rewrite list_lookup_insert_ne in Hj2 by exact H2. eapply Huniq; eassumption.
    + intros k b. destruct (decide (k1 = k)) as [->|Hne].
      * rewrite lookup_delete_eq. discriminate.
      * rewrite lookup_delete_ne by exact Hne. apply Htrue.
Qed.

Lemma lock_table_step (cfg : Config) (s s' : System) (os : list (option string)) :
  step cfg s s' -> lock_table os s -> ∃ os', lock_table os' s'.
Proof.
  intros Hstep Htable. destruct Hstep as [s s' Hres | s op _].
  - eapply lock_table_resume; eassumption.
  - destruct Htable as (Hall & Hheld & Huniq & Htrue).
    exists (os ++ [None])%list. split; [|split; [|split]]; cbn [world pool].
    + apply Forall2_app; [exact Hall|]. constructor; [apply invoke_locking | constructor].
    + intros k. rewrite Hheld, elem_of_app. split; [auto|].
      intros [Hin | Hin]; [exact Hin|]. apply list_elem_of_singleton in Hin. discriminate.
    + intros j1 j2 k Hj1 Hj2.
      assert (Hin : ∀ j, (os ++ [None])%list !! j = Some (Some k) ->
                         os !! j = Some (Some k)).
      { intros j Hj. apply lookup_app_Some in Hj as [Hj | [_ Hj]]; [exact Hj|].
        destruct (j - List.length os)%nat; simpl in Hj; [congruence | discriminate]. }
      eapply Huniq; eauto.
    + exact Htrue.
Qed.

(** X23.  The session lock is a mutex on the key.  Started from the
    module as loaded, whatever operations arrive, however their segments
    interleave and whatever the environment answers: the operations in
    flight can each be given the lock it holds, if any, such that each
    behaves as a holder of just that lock (it takes a lock only when the
    lock is free, and gives back the lock it holds before it settles),
    the locks in the table are exactly the locks so held, and no lock is
    held by two operations.  So the guarded sections of [reloadSession],
    [destroySession], [deleteSession] and [safeRestartSession] on one
    key never overlap. *)
Theorem session_lock_mutex (cfg : Config) (s0 s : System) :
  initial s0 ->
  rtc (step cfg) s0 s ->
  ∃ os,
    Forall2 locking os (pool s)
    ∧ (∀ k, is_Some (sessionLocks (world s) !! k) <-> Some k ∈ os)
    ∧ (∀ i j k, os !! i = Some (Some k) -> os !! j = Some (Some k) -> i = j).
Proof.
  intros Hinit Hsteps.
  assert (Hinv : ∃ os, lock_table os s).
  { refine (rtc_ind_r (fun s => ∃ os, lock_table os s) s0 _ _ s Hsteps).
    - exists []. destruct Hinit as (Hpool & _ & _ & Hlocks & _).
      split; [rewrite Hpool; constructor|]. split; [|split].
      + intros k. rewrite Hlocks, lookup_empty. split.
        * intros [b Hb]. discriminate.
        * intros Hin. apply elem_of_nil in Hin. contradiction.
      + intros i j k Hi. discriminate.
      + intros k b. rewrite Hlocks, lookup_empty. discriminate.
    - intros s1 s2 _ Hstep [os Htable]. eapply lock_table_step; eassumption. }
  destruct Hinv as (os & Hall & Hheld & Huniq & _).
  exists os. split; [exact Hall|]. split; [exact Hheld | exact Huniq].
Qed.


Lemma session_lock_mutex_witness :
  initial loadedSystem
  ∧ rtc (step posixConfig) loadedSystem oneDestroySystem
  ∧ sessionLocks (world oneDestroySystem) !! "C" = Some true
  ∧ ∃ os, Forall2 locking os (pool oneDestroySystem) ∧ Some "C" ∈ os.
Proof.
  assert (Hinit : initial loadedSystem) by (repeat split).
  assert (Hsteps : rtc (step posixConfig) loadedSystem oneDestroySystem).
  { eapply rtc_l; [apply (step_invoke posixConfig loadedSystem (OpDestroy "C")); exact I|].
    apply rtc_once. apply step_resume.
    apply (resume_at (fun _ => True)
             (mkSystem emptyWorld ([] ++ [invoke posixConfig (OpDestroy "C")])%list)
             0%nat (destroySession posixConfig "C") quietExt);
      [reflexivity | intros r; discriminate | exact I]. }
  assert (Hheld : sessionLocks (world oneDestroySystem) !! "C" = Some true)
    by (vm_compute; reflexivity).
  split; [exact Hinit|]. split; [exact Hsteps|]. split; [exact Hheld|].
  destruct (session_lock_mutex posixConfig loadedSystem oneDestroySystem Hinit Hsteps)
    as (os & Hall & Hlocks & _).
  exists os. split; [exact Hall|]. apply Hlocks. rewrite Hheld. eauto.
Defined.


(** ** A teardown between two setups *)

Lemma exec_steps (cfg : Config) (schedule : list (nat * Ext)) :
  ∀ s, rtc (step cfg) s (exec schedule s).
Proof.
  induction schedule as [|[i e] rest IH]; intros s; [apply rtc_refl|].
  cbn [exec]. eapply rtc_trans; [|apply IH].
  unfold resume_index. destruct (pool s !! i) as [t|] eqn:Hi; [|apply rtc_refl].
  destruct t as [r | g | busy g].
  - cbn [resume fst snd]. rewrite list_insert_id by exact Hi.
    destruct s; apply rtc_refl.
  - apply rtc_once, step_resume.
    apply (resume_at (fun _ => True) s i (Susp g) e); [exact Hi | intros r; discriminate | exact I].
  - apply rtc_once, step_resume.
    apply (resume_at (fun _ => True) s i (Poll busy g) e);
      [exact Hi | intros r; discriminate | exact I].
Qed.

Lemma invoke_steps (cfg : Config) (w : World) (sessionId : string) :
  rtc (step cfg) (mkSystem w []) (mkSystem w (setupDestroySetup cfg sessionId)).
Proof.
  eapply rtc_l; [apply (step_invoke cfg (mkSystem w []) (OpSetup sessionId)); exact I|].
  eapply rtc_l; [apply (step_invoke cfg _ (OpDestroy sessionId)); exact I|].
  eapply rtc_l; [apply (step_invoke cfg _ (OpSetup sessionId)); exact I|].
  apply rtc_refl.
Qed.

Lemma exec_cons (i : nat) (e : Ext) (rest : list (nat * Ext)) (s : System) :
  exec ((i, e) :: rest) s = exec rest (resume_index i e s).
Proof. reflexivity. Qed.

Section TeardownBetween.
Context (cfg : Config) (sessionId : string).

Lemma setup_reserves (p : Z) (w : World) :
  sessions w !! sessionId = None -> sessionId ∉ pendingSessions w ->
  resume (launchExt p) w (setupSession cfg sessionId)
  = (set_pendingSessions (fun s => {[sessionId]} ∪ s) w,
     if releaseBrowserLock cfg
     then Susp (setup_after_lstat cfg sessionId)
     else Susp (setup_after_initialize sessionId)).
Proof.
  intros Hsess Hpend. unfold setupSession. cbn [resume]. unfold setupSession_call.
  rewrite Hsess, bool_decide_eq_false_2 by exact Hpend. cbn [constructOk launchExt].
  destruct (releaseBrowserLock cfg); reflexivity.
Qed.

Lemma setup_finds_no_lock (e : Ext) (w : World) :
  fs w !! singletonLockPath cfg sessionId = None ->
  resume e w (Susp (setup_after_lstat cfg sessionId))
  = (w, Susp (setup_after_initialize sessionId)).
Proof. intros Hlock. cbn [resume]. unfold setup_after_lstat. rewrite Hlock. reflexivity. Qed.

Lemma setup_registers (p : Z) (w : World) :
  resume (launchExt p) w (Susp (setup_after_initialize sessionId))
  = (set_pendingSessions (fun s => s ∖ {[sessionId]})
       (set_sessions (insert sessionId (mkClient (Some p))) (spawn p sessionId w)),
     Done (won p)).
Proof. reflexivity. Qed.

Lemma setup_reaches_launch (p : Z) (w : World) (i : nat) (ts : list (task Completion)) :
  ts !! i = Some (setupSession cfg sessionId) ->
  sessions w !! sessionId = None -> sessionId ∉ pendingSessions w ->
  fs w !! singletonLockPath cfg sessionId = None ->
  exec (alone i (replicate (if releaseBrowserLock cfg then 2 else 1) (launchExt p)))
       (mkSystem w ts)
  = mkSystem (set_pendingSessions (fun s => {[sessionId]} ∪ s) w)
             (<[i := Susp (setup_after_initialize sessionId)]> ts).
Proof.
  intros Hi Hsess Hpend Hlock.
  assert (Hlt : (i < List.length ts)%nat) by (eapply lookup_lt_Some, Hi).
  pose proof (setup_reserves p w Hsess Hpend) as Hcall.
  destruct (releaseBrowserLock cfg); unfold alone; cbn [replicate fmap list_fmap].
  - rewrite !exec_cons. cbn [exec]. unfold resume_index at 2. cbn [pool world].
    rewrite Hi, Hcall. cbn [fst snd]. unfold resume_index. cbn [pool world].
    rewrite list_lookup_insert_eq by exact Hlt.
    rewrite setup_finds_no_lock by exact Hlock. cbn [fst snd].
    rewrite list_insert_insert_eq. reflexivity.
  - rewrite !exec_cons. cbn [exec]. unfold resume_index. cbn [pool world].
    rewrite Hi, Hcall. reflexivity.
Qed.

Lemma setup_launches (p : Z) (w : World) (i : nat) (ts : list (task Completion)) :
  ts !! i = Some (Susp (setup_after_initialize sessionId)) ->
  resume_index i (launchExt p) (mkSystem w ts)
  = mkSystem (set_pendingSessions (fun s => s ∖ {[sessionId]})
                (set_sessions (insert sessionId (mkClient (Some p))) (spawn p sessionId w)))
             (<[i := Done (won p)]> ts).
Proof.
  intros Hi. unfold resume_index. cbn [pool world]. rewrite Hi, setup_registers.
  reflexivity.
Qed.
End TeardownBetween.

Lemma exec_alone (i : nat) (es : list Ext) :
  ∀ (s : System) (t : task Completion) (w' : World) (r : Completion),
    pool s !! i = Some t ->
    run es (world s) t = Some (w', r) ->
    exec (alone i es) s = mkSystem w' (<[i := Done r]> (pool s)).
Proof.
  induction es as [|e es IH]; intros s t w' r Hi Hrun.
  - destruct t as [r0 | g | busy g]; simpl in Hrun; try discriminate Hrun.
    injection Hrun as <- <-. simpl. rewrite list_insert_id by exact Hi. destruct s; reflexivity.
  - assert (Hlt : (i < List.length (pool s))%nat) by (eapply lookup_lt_Some, Hi).
    unfold alone. cbn [fmap list_fmap]. rewrite exec_cons. fold (alone i es).
    unfold resume_index. rewrite Hi.
    destruct t as [r0 | g | busy g].
    + rewrite run_Done in Hrun. injection Hrun as <- <-. cbn [resume fst snd].
      rewrite (IH _ (Done r0) (world s) r0);
        [| cbn [pool]; apply list_lookup_insert_eq, Hlt | apply run_Done].
      cbn [pool]. rewrite list_insert_insert_eq. reflexivity.
    + rewrite run_step in Hrun by discriminate.
      rewrite (IH _ (resume e (world s) (Susp g)).2 w' r);
        [| cbn [pool]; apply list_lookup_insert_eq, Hlt | exact Hrun].
      cbn [pool]. rewrite list_insert_insert_eq. reflexivity.
    + rewrite run_step in Hrun by discriminate.
      rewrite (IH _ (resume e (world s) (Poll busy g)).2 w' r);
        [| cbn [pool]; apply list_lookup_insert_eq, Hlt | exact Hrun].
      cbn [pool]. rewrite list_insert_insert_eq. reflexivity.
Qed.

Lemma exec_app (s1 s2 : list (nat * Ext)) (s : System) :
  exec (s1 ++ s2) s = exec s2 (exec s1 s).
Proof.
  revert s. induction s1 as [|[i e] s1 IH]; intros s; [reflexivity|].
  cbn [app exec]. apply IH.
Qed.

(** X24.  [destroySession] does not wait for a setup in flight, and
    the reservation it drops is the setup's.  For every key that is
    ABSENT with its lock free and no lock file, and any two browsers
    [p1] and [p2]: two calls of [setupSession] and one of [destroySession]
    on the key can interleave so that the teardown runs between the two
    setups, both launches go through and both calls report success; the
    registry then holds the second client only, while the browser of the
    first is alive and unknown to the registry, two processes on one
    data directory. *)
Theorem teardown_between_setups (cfg : Config) (sessionId : string) (p1 p2 : Z) (w : World) :
  isAbsent sessionId w ->
  sessionLocks w !! sessionId = None ->
  fs w !! singletonLockPath cfg sessionId = None ->
  p1 ≠ p2 ->
  ∃ s,
    rtc (step cfg) (mkSystem w []) s
    ∧ s = exec (teardownBetween cfg p1 p2) (mkSystem w (setupDestroySetup cfg sessionId))
    ∧ pool s = [Done (won p1); Done (Resolved VUndefined); Done (won p2)]
    ∧ procs (world s) !! p1 = Some sessionId
    ∧ procs (world s) !! p2 = Some sessionId
    ∧ sessions (world s) !! sessionId = Some (mkClient (Some p2))
    ∧ ¬ one_worker sessionId (world s).
Proof.
  intros [Hsess Hpend] Hfree Hlock Hne.
  exists (exec (teardownBetween cfg p1 p2) (mkSystem w (setupDestroySetup cfg sessionId))).
  split.
  { eapply rtc_trans; [apply invoke_steps | apply exec_steps]. }
  split; [reflexivity|].
  unfold teardownBetween, setupDestroySetup. rewrite !exec_app.
  (* the first setup reserves the key and waits for its launch *)
  rewrite (setup_reaches_launch cfg sessionId p1 w 0) by (assumption || reflexivity).
  cbn [insert list_insert].
  set (w1 := set_pendingSessions (fun s => {[sessionId]} ∪ s) w).
  (* the teardown runs to its end *)
  destruct (settles_run (fun e => e ∈ replicate 7 (launchExt p1)) _ _ _ _
              (destroySession_orphan_settles (fun e => e ∈ replicate 7 (launchExt p1))
                 cfg sessionId w1 Hfree Hsess)
              (replicate 7 (launchExt p1)) (Forall_elem_of_self _) ltac:(simpl; lia))
    as (w2 & r & Hrun & -> & Hs2 & Hp2 & Hl2 & _ & (Hfs2 & Hkill2) & _).
  rewrite (exec_alone 1 _
             (mkSystem w1 [Susp (setup_after_initialize sessionId);
                           destroySession cfg sessionId; setupSession cfg sessionId])
             (destroySession cfg sessionId) w2 (Resolved VUndefined) eq_refl Hrun).
  cbn [pool insert list_insert].
  assert (Hlock2 : fs w2 !! singletonLockPath cfg sessionId = None).
  { destruct Hfs2 as [-> | ->]; [exact Hlock | apply lookup_delete_eq]. }
  assert (Hprocs2 : procs w2 = procs w).
  { destruct Hkill2 as [[_ Hpr] | (pid & Hpid & _)]; [exact Hpr|].
    simpl in Hpid. rewrite Hlock in Hpid. discriminate Hpid. }
  assert (Hpend2 : sessionId ∉ pendingSessions w2).
  { rewrite Hp2. intros Hin. apply elem_of_difference in Hin as [_ Hin].
    apply Hin, elem_of_singleton. reflexivity. }
  assert (Hsess2 : sessions w2 !! sessionId = None) by (rewrite Hs2; exact Hsess).
  (* the second setup reserves the key in its turn *)
  rewrite (setup_reaches_launch cfg sessionId p2 w2 2) by (assumption || reflexivity).
  cbn [insert list_insert].
  (* the two launches come back *)
  rewrite !exec_cons. cbn [exec].
  rewrite (setup_launches sessionId p1 _ 0) by reflexivity. cbn [insert list_insert].
  rewrite (setup_launches sessionId p2 _ 2) by reflexivity. cbn [insert list_insert].
  cbn [world pool].
  assert (H1 : procs (set_pendingSessions (fun s => s ∖ {[sessionId]})
                 (set_sessions (insert sessionId (mkClient (Some p2)))
                    (spawn p2 sessionId
                       (set_pendingSessions (fun s => s ∖ {[sessionId]})
                          (set_sessions (insert sessionId (mkClient (Some p1)))
                             (spawn p1 sessionId
                                (set_pendingSessions (fun s => {[sessionId]} ∪ s) w2)))))))
               !! p1 = Some sessionId).
  { simpl. rewrite lookup_insert_ne by congruence. apply lookup_insert_eq. }
  assert (H2 : procs (set_pendingSessions (fun s => s ∖ {[sessionId]})
                 (set_sessions (insert sessionId (mkClient (Some p2)))
                    (spawn p2 sessionId
                       (set_pendingSessions (fun s => s ∖ {[sessionId]})
                          (set_sessions (insert sessionId (mkClient (Some p1)))
                             (spawn p1 sessionId
                                (set_pendingSessions (fun s => {[sessionId]} ∪ s) w2)))))))
               !! p2 = Some sessionId).
  { simpl. apply lookup_insert_eq. }
  split; [reflexivity|]. split; [exact H1|]. split; [exact H2|]. split.
  - simpl. apply lookup_insert_eq.
  - intros Hone. apply Hne. exact (Hone p1 p2 H1 H2).
Qed.

Lemma teardown_between_setups_witness :
  isAbsent "C" emptyWorld
  ∧ sessionLocks emptyWorld !! "C" = None
  ∧ fs emptyWorld !! singletonLockPath posixConfig "C" = None
  ∧ ∃ s, rtc (step posixConfig) (mkSystem emptyWorld []) s
         ∧ pool s = [Done (won 1); Done (Resolved VUndefined); Done (won 2)]
         ∧ procs (world s) !! 1 = Some "C"
         ∧ procs (world s) !! 2 = Some "C".
Proof.
  assert (Habs : isAbsent "C" emptyWorld).
  { split; [reflexivity | apply not_elem_of_empty]. }
  split; [exact Habs|]. split; [reflexivity|]. split; [reflexivity|].
  destruct (teardown_between_setups posixConfig "C" 1 2 emptyWorld Habs eq_refl eq_refl
              ltac:(discriminate))
    as (s & Hsteps & _ & Hpool & H1 & H2 & _).
  exists s. repeat split; assumption.
Defined.

(** ** Concurrent setups, as the specification words them *)

